(** * TMA benchmark log analysis: the three analysis scripts

    A shallow embedding of [analyze_performance_correct.py],
    [analyze_performance_fixed.py] and [analyze_performance_manual.py],
    and the properties of their parsers, statistics, summaries and
    charts.

    - Text is a [string] of code points below 256 (the file as Python
      decodes it, newlines already translated to LF).
    - A Python [float] is an IEEE 754 binary64 number, modelled by the
      Standard Library's [spec_float] at precision 53.
    - A Python exception is the [Raise] case of [result]. *)

From Stdlib Require Import ZArith List String Ascii Bool Lia PeanoNat.
From Stdlib Require Import SpecFloat PrimFloat FloatOps.
From Stdlib Require DecimalString.
From Stdlib Require Import QArith Qabs.
Import ListNotations.

Set Warnings "-inexact-float".
Local Open Scope list_scope.
Local Open Scope string_scope.
Local Open Scope nat_scope.

(** ** Python exceptions *)

Inductive exn : Type :=
| ValueError
| KeyError.

Inductive result (A : Type) : Type :=
| Return (a : A)
| Raise (e : exn).

Arguments Return {A} a.
Arguments Raise {A} e.

Definition bind {A B : Type} (m : result A) (k : A -> result B) : result B :=
  match m with
  | Return a => k a
  | Raise e => Raise e
  end.

Notation "x <- m ;; k" := (bind m (fun x => k))
  (at level 61, m at next level, right associativity).

(** ** Python [str] operations *)

Definition LF : ascii := "010"%char.

(** [s.startswith(p)] *)
Definition startswith (s p : string) : bool := String.prefix p s.

(** [sub in s] *)
Fixpoint str_in (sub s : string) : bool :=
  if String.prefix sub s then true
  else match s with
       | EmptyString => false
       | String _ s' => str_in sub s'
       end.

(** [str.isspace] on one character, for code points below 256:
    TAB..CR, FS..US, space, NEL and NBSP. *)
Definition isspace (c : ascii) : bool :=
  let n := nat_of_ascii c in
  ((9 <=? n) && (n <=? 13)) || ((28 <=? n) && (n <=? 32))
  || (n =? 133) || (n =? 160).

Fixpoint lstrip (s : string) : string :=
  match s with
  | EmptyString => EmptyString
  | String c s' => if isspace c then lstrip s' else s
  end.

Fixpoint rstrip (s : string) : string :=
  match s with
  | EmptyString => EmptyString
  | String c s' =>
      match rstrip s' with
      | EmptyString => if isspace c then EmptyString else String c EmptyString
      | r => String c r
      end
  end.

(** [s.strip()] *)
Definition strip (s : string) : string := rstrip (lstrip s).

(** [s.split('\n')]: the pieces between line feeds, never an empty list. *)
Fixpoint split_lf (s : string) : list string :=
  match s with
  | EmptyString => [EmptyString]
  | String c s' =>
      if Ascii.eqb c LF then EmptyString :: split_lf s'
      else match split_lf s' with
           | [] => [String c EmptyString]
           | h :: t => String c h :: t
           end
  end.

(** [f.readlines()]: the lines of the text, each with its line feed; the
    last one has none when the text does not end with one. *)
Fixpoint readlines (s : string) : list string :=
  match s with
  | EmptyString => []
  | String c s' =>
      if Ascii.eqb c LF then String c EmptyString :: readlines s'
      else match readlines s' with
           | [] => [String c EmptyString]
           | h :: t => String c h :: t
           end
  end.

(** The text whose lines are [ls], each ended by a line feed. *)
Fixpoint text_of_lines (ls : list string) : string :=
  match ls with
  | [] => EmptyString
  | l :: ls' => l ++ String LF (text_of_lines ls')
  end.

Fixpoint drop (n : nat) (s : string) : string :=
  match n, s with
  | O, _ => s
  | S n', String _ s' => drop n' s'
  | S _, EmptyString => EmptyString
  end.

(** ** binary64 *)

Definition float : Type := spec_float.

Definition b64_add : float -> float -> float := SFadd prec emax.
Definition b64_sub : float -> float -> float := SFsub prec emax.
Definition b64_mul : float -> float -> float := SFmul prec emax.
Definition b64_div : float -> float -> float := SFdiv prec emax.
Definition b64_sqrt : float -> float := SFsqrt prec emax.
Definition b64_ltb : float -> float -> bool := SFltb.
Definition b64_leb : float -> float -> bool := SFleb.
Definition b64_eqb : float -> float -> bool := SFeqb.

Definition b64_isnan (x : float) : bool :=
  match x with S754_nan => true | _ => false end.

Definition pos_zero : float := S754_zero false.
Definition neg_zero : float := S754_zero true.

(** The integer [n] as a binary64 number (rounded to nearest even). *)
Definition b64_of_Z (n : Z) : float := binary_normalize prec emax n 0 false.
Definition b64_of_nat (n : nat) : float := b64_of_Z (Z.of_nat n).

(** The decimal [M * 10^-k], correctly rounded: one division of two exact
    integers. *)
Definition b64_of_decimal (M : Z) (k : nat) : float :=
  match M with
  | Zpos m =>
      b64_div (S754_finite false m 0)
              (S754_finite false (Z.to_pos (10 ^ Z.of_nat k)) 0)
  | _ => pos_zero
  end.

(** *** [float(tok)] for a token of digits and dots

    The only strings the scripts pass to [float] are captures of
    [[\d.]+], so only these are modelled: Python accepts such a token
    when it has at least one digit and at most one dot, and raises
    [ValueError] otherwise. *)

Definition is_digit (c : ascii) : bool :=
  let n := nat_of_ascii c in (48 <=? n) && (n <=? 57).

Definition is_dot (c : ascii) : bool := Ascii.eqb c "."%char.

(** The character class [[\d.]]. *)
Definition is_num_char (c : ascii) : bool := is_digit c || is_dot c.

Definition digit_value (c : ascii) : Z := Z.of_nat (nat_of_ascii c - 48).

(** The integer written by the digits of [s], dots left out. *)
Fixpoint digits_Z (s : string) (acc : Z) : Z :=
  match s with
  | EmptyString => acc
  | String c s' =>
      digits_Z s' (if is_digit c then 10 * acc + digit_value c else acc)%Z
  end.

Fixpoint count_char (p : ascii -> bool) (s : string) : nat :=
  match s with
  | EmptyString => O
  | String c s' => (if p c then 1 else 0) + count_char p s'
  end.

(** The digits after the first dot. *)
Fixpoint frac_digits (s : string) : nat :=
  match s with
  | EmptyString => O
  | String c s' => if is_dot c then count_char is_digit s' else frac_digits s'
  end.

Fixpoint all_chars (p : ascii -> bool) (s : string) : bool :=
  match s with
  | EmptyString => true
  | String c s' => p c && all_chars p s'
  end.

Definition python_float (tok : string) : result float :=
  if all_chars is_num_char tok
     && (count_char is_dot tok <=? 1)
     && (1 <=? count_char is_digit tok)
  then Return (b64_of_decimal (digits_Z tok 0) (frac_digits tok))
  else Raise ValueError.

(** ** The two regular expressions *)

(** The longest prefix of [[\d.]] characters, and what follows it. *)
Fixpoint span_num (s : string) : string * string :=
  match s with
  | EmptyString => (EmptyString, EmptyString)
  | String c s' =>
      if is_num_char c
      then let (tok, rest) := span_num s' in (String c tok, rest)
      else (EmptyString, s)
  end.

(** A match of [Completed in ([\d.]+)ms] starting at the first character
    of [s]: the greedy run of [[\d.]] must be non-empty and followed by
    [ms]; giving characters back cannot help, since the character after
    a shorter run is a digit or a dot and not [m]. *)
Definition match_completed_at (s : string) : option string :=
  if startswith s "Completed in " then
    let (tok, rest) := span_num (drop 13 s) in
    match tok with
    | EmptyString => None
    | _ => if startswith rest "ms" then Some tok else None
    end
  else None.

(** [re.search(r'Completed in ([\d.]+)ms', line)]: group 1 of the
    leftmost match, [None] when there is none. *)
Fixpoint search_completed (line : string) : option string :=
  match match_completed_at line with
  | Some tok => Some tok
  | None =>
      match line with
      | EmptyString => None
      | String _ line' => search_completed line'
      end
  end.

(** [re.split] of the content on the capturing pattern made of
    [Copy with] and any characters up to the end of the line: the text
    before the first header, then each header (from [Copy with] to the
    end of its line, since the dot matches no line feed) followed by
    the text up to the next header.  [in_header] tells
    whether the characters read belong to a header; [cur] is the piece
    being read, reversed. *)
Fixpoint rev_string (acc s : string) : string :=
  match s with
  | EmptyString => acc
  | String c s' => rev_string (String c acc) s'
  end.

Fixpoint re_split_go (in_header : bool) (cur : string) (s : string)
  : list string :=
  match s with
  | EmptyString =>
      if in_header then [rev_string "" cur; ""] else [rev_string "" cur]
  | String c s' =>
      if in_header then
        if Ascii.eqb c LF
        then rev_string "" cur :: re_split_go false (String c "") s'
        else re_split_go true (String c cur) s'
      else
        if startswith s "Copy with"
        then rev_string "" cur :: re_split_go true (String c "") s'
        else re_split_go false (String c cur) s'
  end.

Definition re_split_copy_with (content : string) : list string :=
  re_split_go false "" content.

(** ** numpy on one-dimensional float64 arrays *)

(** Element-wise sum of the eight accumulators with the next eight
    elements. *)
Fixpoint add8 (r a : list float) : list float :=
  match r, a with
  | x :: r', y :: a' => b64_add x y :: add8 r' a'
  | _, _ => []
  end.

Fixpoint add_blocks (blocks : nat) (r a : list float)
  : list float * list float :=
  match blocks with
  | O => (r, a)
  | S b => add_blocks b (add8 r (firstn 8 a)) (skipn 8 a)
  end.

(** The unrolled loop of numpy's pairwise sum, for 8 to 128 elements:
    eight accumulators, combined as a balanced tree, then the elements
    left over. *)
Definition block_sum (a : list float) : float :=
  let '(r, rest) :=
    add_blocks (List.length a / 8 - 1) (firstn 8 a) (skipn 8 a) in
  match r with
  | [r0; r1; r2; r3; r4; r5; r6; r7] =>
      fold_left b64_add rest
        (b64_add (b64_add (b64_add r0 r1) (b64_add r2 r3))
                 (b64_add (b64_add r4 r5) (b64_add r6 r7)))
  | _ => fold_left b64_add a neg_zero
  end.

(** numpy's pairwise summation: a plain loop below 8 elements, the
    unrolled loop up to 128, and two halves (the first a multiple of 8)
    above.  [fuel] bounds the depth of the halving; the length is
    enough. *)
Fixpoint pairwise_sum (fuel : nat) (a : list float) : float :=
  let n := List.length a in
  if n <? 8 then fold_left b64_add a neg_zero
  else if n <=? 128 then block_sum a
  else match fuel with
       | O => block_sum a
       | S fuel' =>
           let n2 := n / 2 - (n / 2) mod 8 in
           b64_add (pairwise_sum fuel' (firstn n2 a))
                   (pairwise_sum fuel' (skipn n2 a))
       end.

(** [np.add.reduce(a)]: the identity of addition plus the pairwise sum.
    Only the sign of a zero sum depends on the two starting zeros. *)
Definition np_sum (a : list float) : float :=
  b64_add pos_zero (pairwise_sum (List.length a) a).

(** [np.mean(a)] *)
Definition np_mean (a : list float) : float :=
  b64_div (np_sum a) (b64_of_nat (List.length a)).

(** [np.var(a, ddof=ddof)]: the mean, the deviations from it, their
    squares, the sum of those over [max(N - ddof, 0)]. *)
Definition np_var (ddof : nat) (a : list float) : float :=
  let arrmean := np_mean a in
  let x := map (fun v => b64_sub v arrmean) a in
  let x := map (fun d => b64_mul d d) x in
  b64_div (np_sum x) (b64_of_nat (List.length a - ddof)).

(** [np.std(a, ddof=ddof)] *)
Definition np_std (ddof : nat) (a : list float) : float :=
  b64_sqrt (np_var ddof a).

(** [np.minimum(x, y)] and [np.maximum(x, y)]: a NaN on the left wins. *)
Definition np_minimum (x y : float) : float :=
  if b64_ltb x y || b64_isnan x then x else y.

Definition np_maximum (x y : float) : float :=
  if b64_ltb y x || b64_isnan x then x else y.

(** [np.min(a)] and [np.max(a)]: a reduction with no identity, which
    raises [ValueError] on an empty array. *)
Definition np_min (a : list float) : result float :=
  match a with
  | [] => Raise ValueError
  | x :: a' => Return (fold_left np_minimum a' x)
  end.

Definition np_max (a : list float) : result float :=
  match a with
  | [] => Raise ValueError
  | x :: a' => Return (fold_left np_maximum a' x)
  end.

(** ** The data model *)

(** A test case: the dictionary with keys [name], [multicast],
    [deep_copy] and [times].  [D] is the type of [deep_copy]: a [str]
    in the regex and line-range scripts, a [str] or [None] in the
    line-scanning script. *)
Record TestCase (D : Type) : Type := mkCase {
  name : string;
  multicast : bool;
  deep_copy : D;
  times : list float
}.

Arguments mkCase {D} _ _ _ _.
Arguments name {D} _.
Arguments multicast {D} _.
Arguments deep_copy {D} _.
Arguments times {D} _.

(** The dictionary [calculate_statistics] returns. *)
Record Statistics : Type := mkStats {
  mean : float;
  std : float;
  min : float;
  max : float;
  count : nat
}.

(** [calculate_statistics(times)], the same in the three scripts.  The
    entries are evaluated in order, so an empty list raises at
    [np.min]; [np.std] is called with numpy's default [ddof=0]. *)
Definition calculate_statistics (times : list float) : result Statistics :=
  let times_array := times in
  let mean := np_mean times_array in
  let std := np_std 0 times_array in
  min <- np_min times_array ;;
  max <- np_max times_array ;;
  Return (mkStats mean std min max (List.length times_array)).

(** One bar of the chart: its tick label, height, error bar and colour. *)
Record Bar : Type := mkBar {
  bar_label : string;
  bar_mean : float;
  bar_std : float;
  bar_color : string
}.

(** [color_map[key]] *)
Definition color_map (key : string) : result string :=
  if String.eqb key "TMA No Swizzling" then Return "blue"
  else if String.eqb key "TMA Multicast" then Return "red"
  else if String.eqb key "TMA No Multicast" then Return "green"
  else Raise KeyError.

(** ** Formatting *)

(** [N / D] rounded to the nearest integer, ties to even. *)
Definition div_half_even (N D : Z) : Z :=
  let q := (N / D)%Z in
  let r := (N mod D)%Z in
  if (2 * r <? D)%Z then q
  else if (D <? 2 * r)%Z then (q + 1)%Z
  else if Z.even q then q else (q + 1)%Z.

Definition string_of_Z (z : Z) : string :=
  DecimalString.NilZero.string_of_uint (N.to_uint (Z.to_N z)).

Definition string_of_nat (n : nat) : string := string_of_Z (Z.of_nat n).

Definition pad3 (s : string) : string :=
  match String.length s with
  | 0 => "000" ++ s
  | 1 => "00" ++ s
  | 2 => "0" ++ s
  | _ => s
  end.

(** [f"{x:.3f}"]: the exact value of [x] rounded to three decimals, ties
    to even; the sign is kept on a zero result. *)
Definition format_3f (x : float) : string :=
  match x with
  | S754_nan => "nan"
  | S754_infinity s => if s then "-inf" else "inf"
  | S754_zero s => if s then "-0.000" else "0.000"
  | S754_finite s m e =>
      let thousandths :=
        match e with
        | Zneg p => div_half_even (Zpos m * 1000) (Zpos (Pos.pow 2 p))
        | _ => (Zpos m * 2 ^ e * 1000)%Z
        end in
      (if s then "-" else "")
      ++ string_of_Z (thousandths / 1000) ++ "."
      ++ pad3 (string_of_Z (thousandths mod 1000))
  end.

(** The five lines [print_summary] prints after the heading of a case. *)
Definition stats_lines (stats : Statistics) : list string :=
  [ "  Mean: " ++ format_3f (mean stats) ++ " ms";
    "  Std:  " ++ format_3f (std stats) ++ " ms";
    "  Min:  " ++ format_3f (min stats) ++ " ms";
    "  Max:  " ++ format_3f (max stats) ++ " ms";
    "  Trials: " ++ string_of_nat (count stats) ].

Definition banner : list string :=
  [ "Performance Analysis Summary";
    "==================================================" ].

(** [f"{name} ({deep_copy})"] for a [str] depth. *)
Definition label_of (name deep_copy : string) : string :=
  name ++ " (" ++ deep_copy ++ ")".

(** [str(d)] for a depth that may be [None]. *)
Definition str_of_depth (d : option string) : string :=
  match d with
  | Some s => s
  | None => "None"
  end.

(** The condition [if xs:] on a list. *)
Definition nonempty {A : Type} (xs : list A) : bool :=
  match xs with
  | [] => false
  | _ :: _ => true
  end.

(** The loop shared by the parsers on one line: when the line holds both
    [Trial] and [Completed in] is checked by the caller; here the
    regular expression is searched and a match converted and appended. *)
Definition append_time (line : string) (times : list float)
  : result (list float) :=
  match search_completed line with
  | Some tok => t <- python_float tok ;; Return (times ++ [t])%list
  | None => Return times
  end.

(** ** [analyze_performance_correct.py]: sections split by a regular
    expression *)

Module Correct.

Definition Case : Type := TestCase string.

(** The lines of one section: [for line in section.split('\n')]. *)
Fixpoint extract_times (lines : list string) (times : list float)
  : result (list float) :=
  match lines with
  | [] => Return times
  | line :: lines' =>
      if str_in "Trial" line && str_in "Completed in" line
      then times' <- append_time line times ;; extract_times lines' times'
      else extract_times lines' times
  end.

Record state : Type := mkState {
  current_section : option string;
  current_deep_copy : option string;
  test_cases : list Case
}.

(** Truth of a [str] or [None]. *)
Definition truthy (s : option string) : bool :=
  match s with
  | Some (String _ _) => true
  | _ => false
  end.

(** [current_deep_copy or "Unknown"] *)
Definition or_unknown (d : option string) : string :=
  match d with
  | Some (String c s) => String c s
  | _ => "Unknown"
  end.

(** The name, multicast flag and depth chosen from the header, [None]
    for the [continue] branch. *)
Definition classify (header : string) (current_deep_copy : option string)
  : option (string * bool * string) :=
  if str_in "no swizzling" header then
    Some ("TMA No Swizzling", false, "1X")
  else if str_in "Multicast" header && negb (str_in "NO multicast" header) then
    Some ("TMA Multicast", true, or_unknown current_deep_copy)
  else if str_in "NO multicast" header then
    Some ("TMA No Multicast", false, or_unknown current_deep_copy)
  else None.

(** One turn of [for i, section in enumerate(sections)]. *)
Definition step (st : state) (section : string) : result state :=
  if startswith section "Copy with" then
    Return (mkState (Some (strip section)) None (test_cases st))
  else if str_in "Deep copy 2X" section then
    Return (mkState (current_section st) (Some "2X") (test_cases st))
  else if str_in "Deep copy 4X" section then
    Return (mkState (current_section st) (Some "4X") (test_cases st))
  else if truthy (current_section st) && str_in "Trial" section then
    times <- extract_times (split_lf section) [] ;;
    if nonempty times then
      match classify (match current_section st with Some h => h | None => "" end)
                     (current_deep_copy st) with
      | Some (name, multicast, deep_copy) =>
          Return (mkState (current_section st) (current_deep_copy st)
                    (test_cases st ++ [mkCase name multicast deep_copy times])%list)
      | None => Return st
      end
    else Return st
  else Return st.

Fixpoint loop (sections : list string) (st : state) : result state :=
  match sections with
  | [] => Return st
  | section :: sections' => st' <- step st section ;; loop sections' st'
  end.

Definition parse_performance_data (content : string) : result (list Case) :=
  let sections := re_split_copy_with content in
  st <- loop sections (mkState None None []) ;;
  Return (test_cases st).

(** The sort key [(x['name'], x['deep_copy'])], compared as tuples of
    strings. *)
Definition key_ltb (a b : Case) : bool :=
  String.ltb (name a) (name b)
  || (String.eqb (name a) (name b) && String.ltb (deep_copy a) (deep_copy b)).

(** [list.sort(key=...)] is stable: an element goes after the elements
    already placed whose key is not greater. *)
Fixpoint insert_case (c : Case) (sorted : list Case) : list Case :=
  match sorted with
  | [] => [c]
  | d :: sorted' =>
      if key_ltb c d then c :: sorted else d :: insert_case c sorted'
  end.

Definition sort_cases (cases : list Case) : list Case :=
  fold_left (fun sorted c => insert_case c sorted) cases [].

Fixpoint plot_loop (cases : list Case) (bars : list Bar) : result (list Bar) :=
  match cases with
  | [] => Return bars
  | case :: cases' =>
      if nonempty (times case) then
        stats <- calculate_statistics (times case) ;;
        color <- color_map (name case) ;;
        plot_loop cases'
          (bars ++ [mkBar (label_of (name case) (deep_copy case))
                          (mean stats) (std stats) color])%list
      else plot_loop cases' bars
  end.

(** [create_plot(test_cases)]: the bars handed to [ax.bar]. *)
Definition create_plot (test_cases : list Case) : result (list Bar) :=
  plot_loop (sort_cases test_cases) [].

Fixpoint summary_loop (cases : list Case) (out : list string)
  : result (list string) :=
  match cases with
  | [] => Return out
  | case :: cases' =>
      if nonempty (times case) then
        stats <- calculate_statistics (times case) ;;
        summary_loop cases'
          (out ++ String LF (label_of (name case) (deep_copy case))
                  :: stats_lines stats)%list
      else summary_loop cases' out
  end.

(** [print_summary(test_cases)]: the strings printed, one per [print]. *)
Definition print_summary (test_cases : list Case) : result (list string) :=
  summary_loop (sort_cases test_cases) banner.

(** [main()], up to the calls that save the figure: what is printed and
    what is drawn.  [print_summary] leaves the list sorted. *)
Definition main (content : string) : result (list string * list Bar) :=
  test_cases <- parse_performance_data content ;;
  out <- print_summary test_cases ;;
  bars <- create_plot (sort_cases test_cases) ;;
  Return (out, bars).

End Correct.

(** ** [analyze_performance_fixed.py]: a scan of the lines with a current
    case *)

Module Fixed.

(** [deep_copy] is [None] until a marker is seen. *)
Definition Case : Type := TestCase (option string).

Definition header_no_swizzling : string :=
  "Copy with TMA load and store -- no swizzling".
Definition header_multicast : string :=
  "Copy with TMA Multicast load and store".
Definition header_no_multicast : string :=
  "Copy with TMA load and store, NO multicast".

(** [current_case['times'].append(time_ms)] *)
Definition with_times (c : Case) (ts : list float) : Case :=
  mkCase (name c) (multicast c) (deep_copy c) ts.

(** [current_case['deep_copy'] = d] *)
Definition with_deep_copy (c : Case) (d : option string) : Case :=
  mkCase (name c) (multicast c) d (times c).

(** The look-ahead [for j in range(i+1, min(i+5, len(lines)))] over the
    lines it visits: the first marker found, if any. *)
Fixpoint look_ahead (window : list string) : option string :=
  match window with
  | [] => None
  | next :: window' =>
      let next_line := strip next in
      if str_in "Deep copy 2X" next_line then Some "2X"
      else if str_in "Deep copy 4X" next_line then Some "4X"
      else look_ahead window'
  end.

(** The [if]/[elif] chain on the stripped line. *)
Definition dispatch (line : string) (current_case : option Case)
  (test_cases : list Case) : result (option Case * list Case) :=
  if str_in header_no_swizzling line then
    Return (Some (mkCase "TMA No Swizzling" false (Some "1X") []), test_cases)
  else if str_in header_multicast line then
    Return (Some (mkCase "TMA Multicast" true None []), test_cases)
  else if str_in header_no_multicast line then
    Return (Some (mkCase "TMA No Multicast" false None []), test_cases)
  else
    match current_case with
    | Some c =>
        if startswith line "Trial" && str_in "Completed in" line then
          ts <- append_time line (times c) ;;
          Return (Some (with_times c ts), test_cases)
        else if startswith line "Success" && nonempty (times c) then
          Return (None, (test_cases ++ [c])%list)
        else Return (current_case, test_cases)
    | None => Return (current_case, test_cases)
    end.

(** The second [if] of the loop body: a case still without depth takes
    the marker found in the next four lines. *)
Definition set_depth (current_case : option Case) (following : list string)
  : option Case :=
  match current_case with
  | Some c =>
      match deep_copy c with
      | None =>
          match look_ahead (firstn 4 following) with
          | Some d => Some (with_deep_copy c (Some d))
          | None => current_case
          end
      | Some _ => current_case
      end
  | None => None
  end.

(** [while i < len(lines)]: [lines] are the lines from index [i] on. *)
Fixpoint scan (lines : list string) (current_case : option Case)
  (test_cases : list Case) : result (list Case) :=
  match lines with
  | [] => Return test_cases
  | raw :: following =>
      st <- dispatch (strip raw) current_case test_cases ;;
      scan following (set_depth (fst st) following) (snd st)
  end.

Definition parse_lines (lines : list string) : result (list Case) :=
  scan lines None [].

Definition parse_performance_data (content : string) : result (list Case) :=
  parse_lines (readlines content).

(** [f"{case['name']} ({case['deep_copy']})"] *)
Definition key_of (c : Case) : string :=
  label_of (name c) (str_of_depth (deep_copy c)).

(** [grouped_cases[key].append(case)] on a [defaultdict(list)], which
    keeps its keys in the order of their first use. *)
Fixpoint group_append (key : string) (c : Case)
  (grouped : list (string * list Case)) : list (string * list Case) :=
  match grouped with
  | [] => [(key, [c])]
  | (k, cases) :: grouped' =>
      if String.eqb k key then (k, (cases ++ [c])%list) :: grouped'
      else (k, cases) :: group_append key c grouped'
  end.

Definition grouped_cases (test_cases : list Case)
  : list (string * list Case) :=
  fold_left (fun grouped c => group_append (key_of c) c grouped)
            test_cases [].

(** [all_times], as extended with the times of each case of a group. *)
Definition all_times (cases : list Case) : list float :=
  fold_left (fun acc c => (acc ++ times c)%list) cases [].

(** The colour chosen from the key. *)
Definition color_of_key (key : string) : string :=
  if str_in "No Swizzling" key then "blue"
  else if str_in "Multicast" key && negb (str_in "NO multicast" key)
       then "red"
       else "green".

Fixpoint plot_loop (groups : list (string * list Case)) (bars : list Bar)
  : result (list Bar) :=
  match groups with
  | [] => Return bars
  | (key, cases) :: groups' =>
      let ts := all_times cases in
      if nonempty ts then
        stats <- calculate_statistics ts ;;
        plot_loop groups'
          (bars ++ [mkBar key (mean stats) (std stats) (color_of_key key)])%list
      else plot_loop groups' bars
  end.

Definition create_plot (test_cases : list Case) : result (list Bar) :=
  plot_loop (grouped_cases test_cases) [].

Fixpoint summary_loop (cases : list Case) (out : list string)
  : result (list string) :=
  match cases with
  | [] => Return out
  | case :: cases' =>
      if nonempty (times case) then
        stats <- calculate_statistics (times case) ;;
        summary_loop cases'
          (out ++ String LF (key_of case) :: stats_lines stats)%list
      else summary_loop cases' out
  end.

Definition print_summary (test_cases : list Case) : result (list string) :=
  summary_loop test_cases banner.

Definition main (content : string) : result (list string * list Bar) :=
  test_cases <- parse_performance_data content ;;
  out <- print_summary test_cases ;;
  bars <- create_plot test_cases ;;
  Return (out, bars).

End Fixed.

(** ** [analyze_performance_manual.py]: five fixed ranges of line
    indices *)

Module Manual.

Definition Case : Type := TestCase string.

(** [for i in range(first, first + 10)] over [lines], with the guard
    [i < len(lines)]. *)
Fixpoint range_loop (lines : list string) (indices : list nat)
  (times : list float) : result (list float) :=
  match indices with
  | [] => Return times
  | i :: indices' =>
      match nth_error lines i with
      | Some line =>
          if str_in "Trial" line && str_in "Completed in" line
          then times' <- append_time line times ;;
               range_loop lines indices' times'
          else range_loop lines indices' times
      | None => range_loop lines indices' times
      end
  end.

Definition range_times (lines : list string) (first : nat)
  : result (list float) :=
  range_loop lines (seq first 10) [].

Definition parse_lines (lines : list string) : result (list Case) :=
  times_1 <- range_times lines 4 ;;
  times_2 <- range_times lines 18 ;;
  times_3 <- range_times lines 32 ;;
  times_4 <- range_times lines 46 ;;
  times_5 <- range_times lines 60 ;;
  Return [ mkCase "TMA No Swizzling" false "1X" times_1;
           mkCase "TMA Multicast" true "2X" times_2;
           mkCase "TMA Multicast" true "4X" times_3;
           mkCase "TMA No Multicast" false "2X" times_4;
           mkCase "TMA No Multicast" false "4X" times_5 ].

Definition parse_performance_data (content : string) : result (list Case) :=
  parse_lines (readlines content).

(** The bars: the cases with times whose name is not
    [TMA No Multicast]. *)
Fixpoint plot_loop (cases : list Case) (bars : list Bar) : result (list Bar) :=
  match cases with
  | [] => Return bars
  | case :: cases' =>
      if nonempty (times case)
         && negb (String.eqb (name case) "TMA No Multicast") then
        stats <- calculate_statistics (times case) ;;
        color <- color_map (name case) ;;
        plot_loop cases'
          (bars ++ [mkBar (label_of (name case) (deep_copy case))
                          (mean stats) (std stats) color])%list
      else plot_loop cases' bars
  end.

Definition create_plot (test_cases : list Case) : result (list Bar) :=
  plot_loop test_cases [].

Fixpoint summary_loop (cases : list Case) (out : list string)
  : result (list string) :=
  match cases with
  | [] => Return out
  | case :: cases' =>
      if nonempty (times case) then
        stats <- calculate_statistics (times case) ;;
        summary_loop cases'
          (out ++ String LF (label_of (name case) (deep_copy case))
                  :: stats_lines stats)%list
      else summary_loop cases' out
  end.

Definition print_summary (test_cases : list Case) : result (list string) :=
  summary_loop test_cases banner.

Definition main (content : string) : result (list string * list Bar) :=
  test_cases <- parse_performance_data content ;;
  out <- print_summary test_cases ;;
  bars <- create_plot test_cases ;;
  Return (out, bars).

End Manual.

(** * Vocabulary of the properties *)

(** ** Reading a binary64 number as a rational *)

(** The exact value of a finite number. *)
Definition Q_of_b64 (x : float) : option Q :=
  match x with
  | S754_zero _ => Some 0%Q
  | S754_finite s m e =>
      let v := (inject_Z (Zpos m) * Qpower 2 e)%Q in
      Some (if s then Qopp v else v)
  | _ => None
  end.

(** [|x - center| <= tol], exactly. *)
Definition within (x : float) (center tol : Q) : bool :=
  match Q_of_b64 x with
  | Some q => Qle_bool (Qabs.Qabs (q - center)) tol
  | None => false
  end.

(** ** Classes of numbers *)

(** Not NaN and not below zero: a zero, a positive number or [+inf]. *)
Definition nonneg (x : float) : bool :=
  match x with
  | S754_nan => false
  | S754_zero _ => true
  | S754_infinity s | S754_finite s _ _ => negb s
  end.

(** A zero or a positive finite number: what [float] gives for a token
    of digits and dots that does not overflow. *)
Definition finite_nonneg (x : float) : bool :=
  match x with
  | S754_zero _ => true
  | S754_finite s _ _ => negb s
  | _ => false
  end.

Definition all_nonneg (a : list float) : Prop :=
  Forall (fun x => nonneg x = true) a.

(** A length that binary64 represents exactly. *)
Definition countable (n : nat) : Prop :=
  1 <= n /\ (Z.of_nat n < 2 ^ 53)%Z.

(** All the elements are the same number. *)
Definition constant (ts : list float) : Prop :=
  forall x y, In x ts -> In y ts -> x = y.

(** ** Statistics *)

(** The record [calculate_statistics] returns on a non-empty list. *)
Definition statistics (ts : list float) : Statistics :=
  mkStats (np_mean ts) (np_std 0 ts)
          (fold_left np_minimum (tl ts) (hd S754_nan ts))
          (fold_left np_maximum (tl ts) (hd S754_nan ts))
          (List.length ts).

(** From the words of the specification: the sum of the squared
    deviations from the mean, divided by a divisor, then the square
    root.  The sum and the mean are numpy's. *)
Definition sum_squared_deviations (ts : list float) : float :=
  np_sum (map (fun t => b64_mul (b64_sub t (np_mean ts))
                                (b64_sub t (np_mean ts))) ts).

(** Divisor [N]. *)
Definition population_std (ts : list float) : float :=
  b64_sqrt (b64_div (sum_squared_deviations ts)
                    (b64_of_nat (List.length ts))).

(** Divisor [N - 1]. *)
Definition sample_std (ts : list float) : float :=
  b64_sqrt (b64_div (sum_squared_deviations ts)
                    (b64_of_nat (List.length ts - 1))).

(** The statement about the statistics of one list: the mean between
    the extremes, a standard deviation that is not negative, and zero
    on a constant list. *)
Definition ordered_statistics (ts : list float) : Prop :=
  forall stats,
    calculate_statistics ts = Return stats ->
    b64_leb (min stats) (mean stats) = true
    /\ b64_leb (mean stats) (max stats) = true
    /\ b64_leb pos_zero (std stats) = true
    /\ (constant ts -> b64_eqb (std stats) pos_zero = true).

(** ** Reports and charts *)

(** [if case['times']:] *)
Definition has_trials {D : Type} (c : TestCase D) : bool :=
  nonempty (times c).

(** The six strings printed for one case. *)
Definition case_block (label : string) (ts : list float) : list string :=
  String LF label :: stats_lines (statistics ts).

Definition correct_block (c : Correct.Case) : list string :=
  case_block (label_of (name c) (deep_copy c)) (times c).

Definition fixed_block (c : Fixed.Case) : list string :=
  case_block (Fixed.key_of c) (times c).

Definition manual_block (c : Manual.Case) : list string :=
  case_block (label_of (name c) (deep_copy c)) (times c).

(** The bar of one group of the line-scanning script. *)
Definition bar_of_group (g : string * list Fixed.Case) : Bar :=
  let stats := statistics (Fixed.all_times (snd g)) in
  mkBar (fst g) (mean stats) (std stats) (Fixed.color_of_key (fst g)).

Definition group_has_trials (g : string * list Fixed.Case) : bool :=
  nonempty (Fixed.all_times (snd g)).

(** The cases the line-range script draws. *)
Definition manual_plotted (c : Manual.Case) : bool :=
  has_trials c && negb (String.eqb (name c) "TMA No Multicast").

(** ** Lines of a log *)

(** A line that looks like a trial but on which the regular expression
    finds nothing. *)
Definition unmatched_trial_line (line : string) : Prop :=
  str_in "Trial" line = true
  /\ str_in "Completed in" line = true
  /\ search_completed line = None.

(** A line that holds no header, no depth marker and does not start
    with [Success]. *)
Definition quiet_line (line : string) : Prop :=
  str_in Fixed.header_no_swizzling line = false
  /\ str_in Fixed.header_multicast line = false
  /\ str_in Fixed.header_no_multicast line = false
  /\ str_in "Deep copy 2X" line = false
  /\ str_in "Deep copy 4X" line = false
  /\ startswith line "Success" = false.

(** What a recorded error would amount to: the outcome of the run tells
    the log from the same log with the line left blank. *)
Definition leaves_a_trace {A : Type} (run : string -> result A)
  (log blanked : string) : Prop :=
  run log <> run blanked.

(** ** Example logs *)

Definition example_log : string :=
  text_of_lines
    [ "Copy with TMA load and store -- no swizzling";
      "Trial 1: Completed in 0.512ms";
      "Trial 2: Completed in 0.498ms";
      "Success" ].

(** The floats Python writes [0.512] and [0.498]. *)
Definition example_times : list float :=
  [Prim2SF 0.512%float; Prim2SF 0.498%float].

(** The float Python writes [0.1]. *)
Definition tenth : float := Prim2SF 0.1%float.

(** A multicast section with its depth marker after the header. *)
Definition marked_section_log : string :=
  text_of_lines
    [ "Copy with TMA Multicast load and store";
      "Deep copy 2X";
      "Trial 1: Completed in 1.0ms";
      "Success" ].

(** A multicast section with no depth marker anywhere. *)
Definition unmarked_section_log : string :=
  text_of_lines
    [ "Copy with TMA Multicast load and store";
      "Trial 1: Completed in 1.0ms";
      "Success" ].

(** Two sections of the same identity. *)
Definition repeated_section_log : string :=
  text_of_lines
    [ "Copy with TMA load and store -- no swizzling";
      "Trial 1: Completed in 1.0ms";
      "Success";
      "Copy with TMA load and store -- no swizzling";
      "Trial 1: Completed in 2.0ms";
      "Trial 2: Completed in 3.0ms";
      "Success" ].

(** A section with a trial line whose number is not one the regular
    expression matches, and the same with that line blank. *)
Definition unmatched_line_log : string :=
  text_of_lines
    [ "Copy with TMA load and store -- no swizzling";
      "Trial 1: Completed in 1.0ms";
      "Trial 2: Completed in fast";
      "Trial 3: Completed in 2.0ms";
      "Success" ].

Definition blanked_line_log : string :=
  text_of_lines
    [ "Copy with TMA load and store -- no swizzling";
      "Trial 1: Completed in 1.0ms";
      "";
      "Trial 3: Completed in 2.0ms";
      "Success" ].

(** A section with a token of digits and dots that is not a number. *)
Definition malformed_token_log : string :=
  text_of_lines
    [ "Copy with TMA load and store -- no swizzling";
      "Trial 1: Completed in 1.0ms";
      "Trial 2: Completed in 1.2.3ms";
      "Success" ].

(** A file whose fifth line (index 4) holds such a token. *)
Definition malformed_range_log : string :=
  text_of_lines
    [ "header"; "header"; "header"; "header";
      "Trial 1: Completed in 1.2.3ms" ].

(** One case of each multicast kind, both with times. *)
Definition example_no_multicast_case : Manual.Case :=
  mkCase "TMA No Multicast" false "2X" [tenth].

Definition example_multicast_case : Manual.Case :=
  mkCase "TMA Multicast" true "2X" example_times.

(** ** Groups of the line-scanning script *)

(** [grouped_cases[key]], when the key is there. *)
Fixpoint group_of (key : string) (groups : list (string * list Fixed.Case))
  : option (list Fixed.Case) :=
  match groups with
  | [] => None
  | (k, cases) :: groups' =>
      if String.eqb k key then Some cases else group_of key groups'
  end.

(** The cases of a list that have the key. *)
Definition with_key (key : string) (cases : list Fixed.Case)
  : list Fixed.Case :=
  filter (fun c => String.eqb (Fixed.key_of c) key) cases.

(** Whether a parser returns, for a name, a single case of that name
    with [total] times. *)
Definition merged_by {D : Type}
  (parse : string -> result (list (TestCase D)))
  (log : string) (case_name : string) (total : nat) : Prop :=
  exists cases c,
    parse log = Return cases
    /\ filter (fun c => String.eqb (name c) case_name) cases = [c]
    /\ List.length (times c) = total.

(** The two test cases the line-scanning parser returns on
    [repeated_section_log]. *)
Definition example_first_section : Fixed.Case :=
  mkCase "TMA No Swizzling" false (Some "1X") [Prim2SF 1%float].

Definition example_second_section : Fixed.Case :=
  mkCase "TMA No Swizzling" false (Some "1X")
         [Prim2SF 2%float; Prim2SF 3%float].

(** ** Inputs on which [float] succeeds *)

(** A line whose token, if the regular expression finds one, is a
    number for [float]. *)
Definition convertible (line : string) : Prop :=
  forall tok, search_completed line = Some tok ->
              exists t, python_float tok = Return t.

(** The indices the line-range script reads. *)
Definition in_ranges (i : nat) : Prop :=
  (4 <= i < 14) \/ (18 <= i < 28) \/ (32 <= i < 42)
  \/ (46 <= i < 56) \/ (60 <= i < 70).

(** The five cases of the line-range script, with given times. *)
Definition five_cases (t1 t2 t3 t4 t5 : list float) : list Manual.Case :=
  [ mkCase "TMA No Swizzling" false "1X" t1;
    mkCase "TMA Multicast" true "2X" t2;
    mkCase "TMA Multicast" true "4X" t3;
    mkCase "TMA No Multicast" false "2X" t4;
    mkCase "TMA No Multicast" false "4X" t5 ].

(** ** Shapes of parser results *)

(** The pieces [re.split] returns: a text, then headers each followed by
    a text. *)
Inductive alternating : list string -> Prop :=
| alternating_last : forall text, alternating [text]
| alternating_more : forall text header rest,
    startswith header "Copy with" = true ->
    alternating rest ->
    alternating (text :: header :: rest).

(** The depths of the regex script. *)
Definition correct_depth (d : string) : Prop :=
  d = "1X" \/ d = "Unknown".

(** The depths of the line-scanning script. *)
Definition fixed_depth (d : option string) : Prop :=
  d = Some "1X" \/ d = Some "2X" \/ d = Some "4X" \/ d = None.

(** No line feed in a string. *)
Definition no_lf (s : string) : bool :=
  all_chars (fun c => negb (Ascii.eqb c LF)) s.

(** The invariants of the two parsing loops: the depths of the current
    case and of the cases collected so far. *)
Definition fixed_case_ok (c : Fixed.Case) : Prop := fixed_depth (deep_copy c).

Definition fixed_current_ok (cur : option Fixed.Case) : Prop :=
  match cur with
  | Some c => fixed_case_ok c
  | None => True
  end.

Definition correct_cases_ok (st : Correct.state) : Prop :=
  Forall (fun c : Correct.Case => correct_depth (deep_copy c))
         (Correct.test_cases st).

(** ** Well-formed sections, as the line-scanning script reads them *)

(** A stripped line that holds none of the three headers. *)
Definition no_header (line : string) : Prop :=
  str_in Fixed.header_no_swizzling line = false
  /\ str_in Fixed.header_multicast line = false
  /\ str_in Fixed.header_no_multicast line = false.

(** A header line, with the name, flag and first depth of its case. *)
Definition header_line (raw : string) (case_name : string)
  (flag : bool) (depth : option string) : Prop :=
  let line := strip raw in
  (str_in Fixed.header_no_swizzling line = true
   /\ case_name = "TMA No Swizzling" /\ flag = false /\ depth = Some "1X")
  \/ (str_in Fixed.header_no_swizzling line = false
      /\ str_in Fixed.header_multicast line = true
      /\ case_name = "TMA Multicast" /\ flag = true /\ depth = None)
  \/ (str_in Fixed.header_no_swizzling line = false
      /\ str_in Fixed.header_multicast line = false
      /\ str_in Fixed.header_no_multicast line = true
      /\ case_name = "TMA No Multicast" /\ flag = false /\ depth = None).

(** A line between the header and the trials, such as a depth marker:
    no header, not a trial, not [Success]. *)
Definition marker_line (raw : string) : Prop :=
  let line := strip raw in
  no_header line
  /\ startswith line "Trial" && str_in "Completed in" line = false
  /\ startswith line "Success" = false.

(** A trial line with a valid number, and the time it gives. *)
Definition trial_line (raw : string) (t : float) : Prop :=
  let line := strip raw in
  no_header line
  /\ startswith line "Trial" = true
  /\ str_in "Completed in" line = true
  /\ exists tok, search_completed line = Some tok
                 /\ python_float tok = Return t.

(** The line that ends a section. *)
Definition success_line (raw : string) : Prop :=
  let line := strip raw in
  no_header line
  /\ startswith line "Trial" && str_in "Completed in" line = false
  /\ startswith line "Success" = true.

(** A line outside the section that cannot stop the run. *)
Definition harmless (raw : string) : Prop := convertible (strip raw).

(** The current case has the given name, flag and times. *)
Definition current_is (case_name : string) (flag : bool) (ts : list float)
  (cur : option Fixed.Case) : Prop :=
  exists depth, cur = Some (mkCase case_name flag depth ts).

(** A line of text inside a section of the regex script: one line, with
    no header and no depth marker in it. *)
Definition plain_section_line (line : string) : Prop :=
  no_lf line = true
  /\ str_in "Copy with" line = false
  /\ str_in "Deep copy 2X" line = false
  /\ str_in "Deep copy 4X" line = false.

(** The file that holds the lines [before], each ended by a line feed,
    then the rest. *)
Definition file_of (before : list string) (rest : string) : string :=
  String.append (text_of_lines before) rest.

(** A line and its line feed, followed by the rest. *)
Definition line_then (line rest : string) : string :=
  String.append line (String LF rest).

(** ** Exact values and exact statistics *)

From Stdlib Require Import Lqa Qpower.

Section Exact.

Local Open Scope Q_scope.

(** [2 ^ e] for any integer [e]. *)
Definition pow2 (e : Z) : Q := Qpower 2 e.

(** The spacing of binary64 numbers just above [1], and the smallest
    positive binary64 number. *)
Definition ulp64 : Q := pow2 (-52)%Z.
Definition eta64 : Q := pow2 (-1074)%Z.

(** The exact value of a number; zero for infinities and NaN. *)
Definition Qval (x : float) : Q :=
  match Q_of_b64 x with
  | Some q => q
  | None => 0
  end.

(** A finite number whose exponent is one of binary64, of any sign. *)
Definition grounded (x : float) : bool :=
  match x with
  | S754_zero _ => true
  | S754_finite _ _ e => (-1074 <=? e)%Z
  | _ => false
  end.

(** A time as binary64 holds it: finite, not below zero, with an
    exponent of binary64. *)
Definition timing (x : float) : bool := finite_nonneg x && grounded x.

Fixpoint Qsum (qs : list Q) : Q :=
  match qs with
  | [] => 0
  | q :: qs' => q + Qsum qs'
  end.

(** From the words of the specification, in exact arithmetic: the mean,
    the sum of the squared deviations from the mean, and that sum
    divided by [N] or by [N - 1]. *)
Definition exact_mean (ts : list float) : Q :=
  Qsum (map Qval ts) / inject_Z (Z.of_nat (List.length ts)).

Definition exact_squared_deviations (ts : list float) : Q :=
  Qsum (map (fun t => (Qval t - exact_mean ts) * (Qval t - exact_mean ts))
            ts).

Definition exact_population_variance (ts : list float) : Q :=
  exact_squared_deviations ts / inject_Z (Z.of_nat (List.length ts)).

Definition exact_sample_variance (ts : list float) : Q :=
  exact_squared_deviations ts / inject_Z (Z.of_nat (List.length ts) - 1)%Z.

(** The square of the [std] of a record, exactly. *)
Definition std_squared (stats : Statistics) : Q :=
  Qval (std stats) * Qval (std stats).

(** The rounding error allowed on the square of [std] for [n] times
    that are at most [M]. *)
Definition tolerance (n : nat) (M : Q) : Q :=
  (inject_Z (Z.of_nat n) + 4) * pow2 (-47)%Z * (M * M).

(** The statement that [std] is the population standard deviation,
    read in exact arithmetic. *)
Definition std_equals_population (ts : list float) : Prop :=
  forall stats,
    calculate_statistics ts = Return stats ->
    std_squared stats == exact_population_variance ts.

(** *** Vocabulary of the rounding proofs *)

Fixpoint qpow (q : Q) (k : nat) : Q :=
  match k with
  | O => 1
  | S k' => q * qpow q k'
  end.

(** A result of sign [s] and magnitude [R]: a zero, or a finite number
    with an exponent of binary64. *)
Definition magnitude (s : bool) (R : Q) (r : float) : Prop :=
  (r = S754_zero s /\ R == 0)
  \/ exists m e, r = S754_finite s m e /\ (-1074 <= e)%Z
                 /\ R == inject_Z (Zpos m) * pow2 e.

(** What rounding does to an exact magnitude between [lo] and [hi]:
    the result is [lo] itself, when the magnitude was known to be
    [lo]; or it is one end of an interval of width [w] that holds [lo]
    and [hi], where [w] is at most one unit in the last place, or the
    spacing of the smallest numbers in the cases [small]. *)
Definition rounds (lo hi R : Q) (small exact : Prop) : Prop :=
  (exact /\ R == lo)
  \/ exists A w,
       0 <= A /\ A <= lo /\ hi <= A + w /\ (R == A \/ R == A + w)
       /\ 0 < w /\ (w <= ulp64 * lo \/ (w <= eta64 /\ small)).

(** A number obtained from numbers between zero and [B], whose exact
    sum is [S], by at most [k] additions and roundings. *)
Definition sums (B : Q) (r : float) (S : Q) (k : nat) : Prop :=
  timing r = true
  /\ 0 <= S /\ S <= inject_Z (Z.of_nat k) * B
  /\ qpow (1 - ulp64) k * S <= Qval r
  /\ Qval r <= qpow (1 + ulp64) k * S.

(** The relative error of numpy's sum of [n] times: at most
    [2 n + 1] roundings, each worth two units in the last place. *)
Definition sum_error (n : nat) : Q :=
  2 * (inject_Z (Z.of_nat (2 * n + 1)) * ulp64).

(** A time that is at most [B]. *)
Definition below (B : Q) (x : float) : Prop :=
  timing x = true /\ Qval x <= B.

(** Accumulators that are each a sum of their own: [S] and [k] are the
    totals over the list. *)
Inductive sums_all (B : Q) : list float -> Q -> nat -> Prop :=
| sums_all_nil : forall S k, S == 0 -> k = O -> sums_all B [] S k
| sums_all_cons : forall x l S1 k1 S2 k2 S k,
    sums B x S1 k1 -> sums_all B l S2 k2 ->
    S == S1 + S2 -> k = (k1 + k2)%nat ->
    sums_all B (x :: l) S k.

End Exact.

(** ** Vocabulary of the further properties *)

From Stdlib Require Import Permutation Sorted.
From Stdlib Require OrderedTypeEx.

(** A list of lines none of which holds a line feed. *)
Definition plain_lines (ls : list string) : Prop :=
  Forall (fun l => no_lf l = true) ls.

(** The name, flag and depth of a case of the regex script. *)
Definition correct_identity (c : Correct.Case) : Prop :=
  (name c = "TMA No Swizzling" /\ multicast c = false /\ deep_copy c = "1X")
  \/ (name c = "TMA Multicast" /\ multicast c = true
      /\ deep_copy c = "Unknown")
  \/ (name c = "TMA No Multicast" /\ multicast c = false
      /\ deep_copy c = "Unknown").

(** The name, flag and depth of a case of the line-scanning script. *)
Definition fixed_identity (c : Fixed.Case) : Prop :=
  (name c = "TMA No Swizzling" /\ multicast c = false
   /\ deep_copy c = Some "1X")
  \/ ((name c = "TMA Multicast" /\ multicast c = true
       \/ name c = "TMA No Multicast" /\ multicast c = false)
      /\ (deep_copy c = None \/ deep_copy c = Some "2X"
          \/ deep_copy c = Some "4X")).

(** Times as [float] gives them: not NaN and not below zero. *)
Definition parsed_times (ts : list float) : Prop := all_nonneg ts.

(** The key order of the regex script on neighbours of a sorted list:
    the second is not before the first. *)
Definition in_key_order (a b : Correct.Case) : Prop :=
  Correct.key_ltb b a = false.

(** A trial line whose token [float] refuses. *)
Definition malformed_trial_line (line : string) : Prop :=
  str_in "Trial" line = true
  /\ str_in "Completed in" line = true
  /\ exists tok, search_completed line = Some tok
                 /\ python_float tok = Raise ValueError.

(** The invariant of the line-scanning loop on its current case. *)
Definition fixed_current_shape (cur : option Fixed.Case) : Prop :=
  match cur with
  | Some c => fixed_identity c /\ parsed_times (times c)
  | None => True
  end.

(** What holds of every case a parser has collected. *)
Definition fixed_shape (c : Fixed.Case) : Prop :=
  fixed_identity c /\ times c <> [] /\ parsed_times (times c).

Definition correct_shape (c : Correct.Case) : Prop :=
  correct_identity c /\ times c <> [] /\ parsed_times (times c).

(** Two cases of the regex script with the same sort key. *)
Definition same_key (a b : Correct.Case) : bool :=
  String.eqb (name a) (name b) && String.eqb (deep_copy a) (deep_copy b).

(** A log with one section of the third kind. *)
Definition no_multicast_log : string :=
  text_of_lines [ "Copy with TMA load and store, NO multicast";
                  "Deep copy 2X";
                  "Trial 1: Completed in 1.0ms";
                  "Success" ].

Definition no_multicast_case : Fixed.Case :=
  mkCase "TMA No Multicast" false (Some "2X") [Prim2SF 1%float].

(** The lines that start with [Success] once stripped. *)
Definition success_lines (lines : list string) : list string :=
  filter (fun raw => startswith (strip raw) "Success") lines.

(** A log cut off before the [Success] line of its section. *)
Definition truncated_log : string :=
  text_of_lines [ "Copy with TMA load and store -- no swizzling";
                  "Trial 1: Completed in 1.0ms";
                  "Trial 2: Completed in 2.0ms" ].

(** * Properties *)

(** ** The end-to-end example *)

Lemma python_float_example :
  python_float "0.512" = Return (Prim2SF 0.512%float)
  /\ python_float "0.498" = Return (Prim2SF 0.498%float)
  /\ python_float "0.1" = Return tenth.
Proof. repeat split; vm_compute; reflexivity. Qed.

(** C4.  On the log made of the no-swizzling header, the two trial lines
    [0.512ms] and [0.498ms] and a [Success] line, the regex parser and
    the line-scanning parser each return exactly one test case, named
    [TMA No Swizzling], depth [1X], not multicast, with times
    [[0.512, 0.498]]; [calculate_statistics] on these times gives a
    mean within 0.001 of 0.505 and a standard deviation within 0.001 of
    0.007. *)
Theorem end_to_end_example :
  Correct.parse_performance_data example_log
  = Return [mkCase "TMA No Swizzling" false "1X" example_times]
  /\ Fixed.parse_performance_data example_log
     = Return [mkCase "TMA No Swizzling" false (Some "1X") example_times]
  /\ exists stats,
       calculate_statistics example_times = Return stats
       /\ count stats = 2
       /\ within (mean stats) (505 # 1000) (1 # 1000) = true
       /\ within (std stats) (7 # 1000) (1 # 1000) = true.
Proof.
  split; [vm_compute; reflexivity|].
  split; [vm_compute; reflexivity|].
  eexists. split; [vm_compute; reflexivity|].
  repeat split; vm_compute; reflexivity.
Qed.

(** What the two scripts print for the example. *)
Lemma end_to_end_summary :
  forall out,
    out = (banner ++ [ String LF "TMA No Swizzling (1X)";
                       "  Mean: 0.505 ms"; "  Std:  0.007 ms";
                       "  Min:  0.498 ms"; "  Max:  0.512 ms";
                       "  Trials: 2" ])%list ->
    (exists bars, Correct.main example_log = Return (out, bars))
    /\ (exists bars, Fixed.main example_log = Return (out, bars)).
Proof.
  intros out ->. split; eexists; vm_compute; reflexivity.
Qed.

(** ** Signs through rounding *)

Section Rounding.

Local Open Scope Z_scope.

Lemma shr_1_nonneg mrs : 0 <= shr_m mrs -> 0 <= shr_m (shr_1 mrs).
Proof.
  destruct mrs as [m r s]; simpl. destruct m as [|[p|p|]|p]; simpl; lia.
Qed.

Lemma iter_pos_shr_1_nonneg p : forall mrs,
  0 <= shr_m mrs -> 0 <= shr_m (SpecFloat.iter_pos shr_1 p mrs).
Proof.
  induction p as [p IH|p IH|]; intros mrs H; simpl.
  - apply IH, IH, shr_1_nonneg, H.
  - apply IH, IH, H.
  - apply shr_1_nonneg, H.
Qed.

Lemma shr_nonneg mrs e n : 0 <= shr_m mrs -> 0 <= shr_m (fst (shr mrs e n)).
Proof.
  intros H. destruct n; simpl; auto. apply iter_pos_shr_1_nonneg, H.
Qed.

Lemma shr_record_of_loc_m m l : shr_m (shr_record_of_loc m l) = m.
Proof. destruct l as [|[]]; reflexivity. Qed.

Lemma shr_fexp_nonneg m e l :
  0 <= m -> 0 <= shr_m (fst (shr_fexp prec emax m e l)).
Proof.
  intros H. unfold shr_fexp. apply shr_nonneg. rewrite shr_record_of_loc_m. exact H.
Qed.

Lemma round_nearest_even_nonneg m l : 0 <= m -> 0 <= round_nearest_even m l.
Proof.
  intros H. destruct l as [|[]]; simpl; try lia. destruct (Z.even m); lia.
Qed.

Lemma binary_round_aux_nonneg m e l :
  0 <= m -> nonneg (binary_round_aux prec emax false m e l) = true.
Proof.
  intros H. unfold binary_round_aux.
  pose proof (shr_fexp_nonneg m e l H) as H1.
  destruct (shr_fexp prec emax m e l) as [mrs' e'] eqn:E1. simpl in H1.
  pose proof (shr_fexp_nonneg _ e' loc_Exact
                (round_nearest_even_nonneg _ (loc_of_shr_record mrs') H1)) as H2.
  destruct (shr_fexp prec emax (round_nearest_even (shr_m mrs') (loc_of_shr_record mrs')) e' loc_Exact)
    as [mrs'' e''] eqn:E2. simpl in H2.
  destruct (shr_m mrs'') as [|p|p]; try reflexivity.
  - destruct (e'' <=? emax - prec); reflexivity.
  - lia.
Qed.

Lemma binary_round_aux_notnan s m e l :
  0 <= m -> b64_isnan (binary_round_aux prec emax s m e l) = false.
Proof.
  intros H. unfold binary_round_aux.
  pose proof (shr_fexp_nonneg m e l H) as H1.
  destruct (shr_fexp prec emax m e l) as [mrs' e'] eqn:E1. simpl in H1.
  pose proof (shr_fexp_nonneg _ e' loc_Exact
                (round_nearest_even_nonneg _ (loc_of_shr_record mrs') H1)) as H2.
  destruct (shr_fexp prec emax (round_nearest_even (shr_m mrs') (loc_of_shr_record mrs')) e' loc_Exact)
    as [mrs'' e''] eqn:E2. simpl in H2.
  destruct (shr_m mrs'') as [|p|p]; try reflexivity.
  - destruct (e'' <=? emax - prec); reflexivity.
  - lia.
Qed.

Lemma binary_round_nonneg m e : nonneg (binary_round prec emax false m e) = true.
Proof.
  unfold binary_round. destruct (shl_align _ _ _) as [mz ez].
  apply binary_round_aux_nonneg. lia.
Qed.

Lemma binary_round_notnan s m e : b64_isnan (binary_round prec emax s m e) = false.
Proof.
  unfold binary_round. destruct (shl_align _ _ _) as [mz ez].
  apply binary_round_aux_notnan. lia.
Qed.

Lemma binary_normalize_nonneg m e :
  0 <= m -> nonneg (binary_normalize prec emax m e false) = true.
Proof.
  intros H. destruct m; simpl; try lia; try reflexivity.
  apply binary_round_nonneg.
Qed.

Lemma binary_normalize_notnan m e :
  b64_isnan (binary_normalize prec emax m e false) = false.
Proof.
  destruct m; simpl; try reflexivity; apply binary_round_notnan.
Qed.

Lemma b64_add_nonneg x y :
  nonneg x = true -> nonneg y = true -> nonneg (b64_add x y) = true.
Proof.
  unfold b64_add.
  destruct x as [sx|sx| |sx mx ex], y as [sy|sy| |sy my ey];
    intros Hx Hy; try discriminate; try reflexivity; try assumption.
  - destruct sx, sy; reflexivity.
  - destruct sx, sy; simpl in *; try discriminate; reflexivity.
  - destruct sx, sy; try discriminate.
    cbv [SFadd cond_Zopp]. apply binary_normalize_nonneg. lia.
Qed.

Lemma Z_div_eucl_fst_nonneg a b :
  0 <= a -> 0 < b -> 0 <= fst (Z.div_eucl a b).
Proof.
  intros Ha Hb. change (fst (Z.div_eucl a b)) with (a / b).
  apply Z.div_pos; assumption.
Qed.

Lemma SFdiv_core_nonneg m1 e1 m2 e2 :
  0 <= fst (fst (SFdiv_core_binary prec emax (Zpos m1) e1 (Zpos m2) e2)).
Proof.
  unfold SFdiv_core_binary.
  set (s := _ - _ - _).
  set (m' := match s with Z0 => _ | Zpos _ => _ | Zneg _ => _ end).
  assert (Hm : 0 <= m').
  { subst m'. destruct s; try lia. apply Z.shiftl_nonneg. lia. }
  pose proof (Z_div_eucl_fst_nonneg m' (Zpos m2) Hm ltac:(lia)) as H.
  destruct (Z.div_eucl m' (Zpos m2)) as [q r]. exact H.
Qed.

(** Division by a positive finite number keeps a number non-negative. *)
Lemma b64_div_nonneg x m e :
  nonneg x = true -> nonneg (b64_div x (S754_finite false m e)) = true.
Proof.
  unfold b64_div.
  destruct x as [sx|sx| |sx mx ex]; intros Hx; try discriminate.
  - reflexivity.
  - destruct sx; [discriminate|reflexivity].
  - destruct sx; [discriminate|].
    cbv [SFdiv xorb].
    pose proof (SFdiv_core_nonneg mx ex m e) as H.
    destruct (SFdiv_core_binary prec emax (Z.pos mx) ex (Z.pos m) e) as [[mz ez] lz].
    apply binary_round_aux_nonneg. exact H.
Qed.

Lemma b64_sub_notnan x y :
  finite_nonneg x = true -> nonneg y = true -> b64_isnan (b64_sub x y) = false.
Proof.
  unfold b64_sub.
  destruct x as [sx|sx| |sx mx ex], y as [sy|sy| |sy my ey];
    intros Hx Hy; try discriminate; try reflexivity.
  - destruct sx, sy; reflexivity.
  - cbv [SFsub]. apply binary_normalize_notnan.
Qed.

Lemma b64_mul_self_nonneg d :
  b64_isnan d = false -> nonneg (b64_mul d d) = true.
Proof.
  unfold b64_mul.
  destruct d as [s|s| |s m e]; intros H; try discriminate.
  - reflexivity.
  - simpl. destruct s; reflexivity.
  - cbv [SFmul]. replace (xorb s s) with false by (destruct s; reflexivity).
    apply binary_round_aux_nonneg. lia.
Qed.

Lemma SFsqrt_core_nonneg m e :
  0 <= fst (fst (SFsqrt_core_binary prec emax (Zpos m) e)).
Proof.
  unfold SFsqrt_core_binary.
  set (s := e - _).
  set (m' := match s with Z0 => _ | Zpos _ => _ | Zneg _ => _ end).
  pose proof (Z.sqrtrem_spec m') as H.
  assert (Hm : 0 <= m').
  { subst m'. destruct s; try lia. apply Z.shiftl_nonneg. lia. }
  specialize (H Hm).
  destruct (Z.sqrtrem m') as [q r]. simpl. lia.
Qed.

Lemma b64_sqrt_nonneg x : nonneg x = true -> nonneg (b64_sqrt x) = true.
Proof.
  unfold b64_sqrt.
  destruct x as [sx|sx| |sx mx ex]; intros Hx; try discriminate.
  - reflexivity.
  - destruct sx; [discriminate|reflexivity].
  - destruct sx; [discriminate|].
    cbv [SFsqrt].
    pose proof (SFsqrt_core_nonneg mx ex) as H.
    destruct (SFsqrt_core_binary prec emax (Z.pos mx) ex) as [[mz ez] lz].
    apply binary_round_aux_nonneg. exact H.
Qed.

Lemma nonneg_leb_zero x : nonneg x = true -> b64_leb pos_zero x = true.
Proof.
  destruct x as [s|s| |s m e]; simpl; intros H; try discriminate; try reflexivity;
    destruct s; try discriminate; reflexivity.
Qed.

Lemma digits2_pos_iter_xO k : forall p,
  Zpos (digits2_pos (Pos.iter xO p k)) = Zpos (digits2_pos p) + Zpos k.
Proof.
  induction k using Pos.peano_ind; intros p.
  - simpl. lia.
  - rewrite Pos.iter_succ. simpl digits2_pos. rewrite Pos2Z.inj_succ, IHk. lia.
Qed.

Lemma digits2_pos_bound p : 2 ^ (Zpos (digits2_pos p) - 1) <= Zpos p.
Proof.
  induction p as [p IH|p IH|]; simpl digits2_pos.
  - rewrite Pos2Z.inj_succ.
    replace (Z.succ (Zpos (digits2_pos p)) - 1) with (Z.succ (Zpos (digits2_pos p) - 1)) by lia.
    rewrite Z.pow_succ_r by lia. lia.
  - rewrite Pos2Z.inj_succ.
    replace (Z.succ (Zpos (digits2_pos p)) - 1) with (Z.succ (Zpos (digits2_pos p) - 1)) by lia.
    rewrite Z.pow_succ_r by lia. lia.
  - simpl. lia.
Qed.

Lemma digits2_pos_le_53 p : Zpos p < 2 ^ 53 -> Zpos (digits2_pos p) <= 53.
Proof.
  intros H. pose proof (digits2_pos_bound p) as B.
  destruct (Z_le_gt_dec (Zpos (digits2_pos p)) 53) as [L|G]; [exact L|exfalso].
  assert (2 ^ 53 <= 2 ^ (Zpos (digits2_pos p) - 1)).
  { apply Z.pow_le_mono_r; lia. }
  lia.
Qed.

Lemma shr_fexp_canonical m e l :
  Zpos (digits2_pos m) = 53 -> -1074 <= e ->
  shr_fexp prec emax (Zpos m) e l = (shr_record_of_loc (Zpos m) l, e).
Proof.
  intros Hd He. unfold shr_fexp, fexp, emin, prec, emax. simpl Zdigits2. rewrite Hd.
  replace (Z.max (53 + e - 53) (3 - 1024 - 53) - e) with 0 by lia.
  reflexivity.
Qed.

Lemma binary_round_small p :
  Zpos p < 2 ^ 53 ->
  exists m e, binary_round prec emax false p 0 = S754_finite false m e.
Proof.
  intros H. pose proof (digits2_pos_le_53 p H) as Hd.
  assert (Hd1 : 1 <= Zpos (digits2_pos p)) by lia.
  unfold binary_round.
  assert (Hs : exists mz ez, shl_align p 0 (fexp prec emax (Zpos (digits2_pos p) + 0)) = (mz, ez)
                /\ Zpos (digits2_pos mz) = 53 /\ -52 <= ez <= 0).
  { unfold shl_align, fexp, emin, prec, emax.
    replace (Z.max (Zpos (digits2_pos p) + 0 - 53) (3 - 1024 - 53) - 0)
      with (Zpos (digits2_pos p) - 53) by lia.
    destruct (Zpos (digits2_pos p) - 53) as [|d|d] eqn:E; try lia.
    - exists p, 0. split; [reflexivity|]. lia.
    - eexists _, _. split; [reflexivity|]. rewrite digits2_pos_iter_xO. lia. }
  destruct Hs as (mz & ez & -> & Hmz & Hez).
  unfold binary_round_aux.
  rewrite shr_fexp_canonical by lia. simpl shr_m. simpl loc_of_shr_record.
  simpl round_nearest_even. rewrite shr_fexp_canonical by lia. simpl shr_m.
  replace (ez <=? emax - prec) with true.
  - eauto.
  - symmetry. apply Z.leb_le. unfold emax, prec. lia.
Qed.

Lemma b64_of_nat_finite n :
  (1 <= n)%nat -> Z.of_nat n < 2 ^ 53 ->
  exists m e, b64_of_nat n = S754_finite false m e.
Proof.
  intros H1 H2. unfold b64_of_nat, b64_of_Z, binary_normalize.
  destruct (Z.of_nat n) as [|p|p] eqn:E; try lia.
  apply binary_round_small. lia.
Qed.

End Rounding.

(** ** Sums, means and deviations of non-negative numbers *)

Lemma fold_add_nonneg a : forall init,
  nonneg init = true -> all_nonneg a -> nonneg (fold_left b64_add a init) = true.
Proof.
  induction a as [|x a IH]; intros init Hi Ha; simpl; [exact Hi|].
  inversion Ha; subst. apply IH; [apply b64_add_nonneg|]; assumption.
Qed.

Lemma all_nonneg_firstn n : forall a, all_nonneg a -> all_nonneg (firstn n a).
Proof.
  induction n as [|n IH]; intros [|x a] H; simpl; try constructor.
  - inversion H; assumption.
  - inversion H; subst. apply IH. assumption.
Qed.

Lemma all_nonneg_skipn n : forall a, all_nonneg a -> all_nonneg (skipn n a).
Proof.
  induction n as [|n IH]; intros [|x a] H; simpl; try assumption.
  inversion H; subst. apply IH. assumption.
Qed.

Lemma add8_nonneg r : forall a,
  all_nonneg r -> all_nonneg a -> all_nonneg (add8 r a).
Proof.
  induction r as [|x r IH]; intros [|y a] Hr Ha; simpl; try constructor.
  - inversion Hr; inversion Ha; subst. apply b64_add_nonneg; assumption.
  - inversion Hr; inversion Ha; subst. apply IH; assumption.
Qed.

Lemma add_blocks_nonneg blocks : forall r a,
  all_nonneg r -> all_nonneg a ->
  all_nonneg (fst (add_blocks blocks r a)) /\ all_nonneg (snd (add_blocks blocks r a)).
Proof.
  induction blocks as [|b IH]; intros r a Hr Ha; cbn [add_blocks fst snd]; [split; assumption|].
  apply IH.
  - apply add8_nonneg; [assumption|apply all_nonneg_firstn, Ha].
  - apply all_nonneg_skipn, Ha.
Qed.

Lemma block_sum_nonneg a : all_nonneg a -> nonneg (block_sum a) = true.
Proof.
  intros Ha. unfold block_sum.
  destruct (add_blocks_nonneg (List.length a / 8 - 1) (firstn 8 a) (skipn 8 a)
              (all_nonneg_firstn 8 a Ha) (all_nonneg_skipn 8 a Ha)) as [Hr Hrest].
  destruct (add_blocks _ _ _) as [r rest]. simpl in Hr, Hrest.
  destruct r as [|r0 [|r1 [|r2 [|r3 [|r4 [|r5 [|r6 [|r7 [|r8 r]]]]]]]]];
    try (apply fold_add_nonneg; [reflexivity|exact Ha]).
  unfold all_nonneg in Hr.
  repeat match goal with H : Forall _ (_ :: _) |- _ => inversion H; clear H; subst end.
  apply fold_add_nonneg; [|exact Hrest].
  repeat apply b64_add_nonneg; assumption.
Qed.

Lemma pairwise_sum_nonneg fuel : forall a,
  all_nonneg a -> nonneg (pairwise_sum fuel a) = true.
Proof.
  induction fuel as [|f IH]; intros a Ha; cbn [pairwise_sum].
  - destruct (List.length a <? 8); [apply fold_add_nonneg; [reflexivity|exact Ha]|].
    destruct (List.length a <=? 128); apply block_sum_nonneg, Ha.
  - destruct (List.length a <? 8); [apply fold_add_nonneg; [reflexivity|exact Ha]|].
    destruct (List.length a <=? 128); [apply block_sum_nonneg, Ha|].
    apply b64_add_nonneg; apply IH; [apply all_nonneg_firstn|apply all_nonneg_skipn]; exact Ha.
Qed.

Lemma np_sum_nonneg a : all_nonneg a -> nonneg (np_sum a) = true.
Proof.
  intros Ha. unfold np_sum. apply b64_add_nonneg; [reflexivity|].
  apply pairwise_sum_nonneg, Ha.
Qed.

Lemma finite_nonneg_nonneg x : finite_nonneg x = true -> nonneg x = true.
Proof. destruct x; simpl; auto; discriminate. Qed.

Lemma np_mean_nonneg a :
  countable (List.length a) -> Forall (fun x => finite_nonneg x = true) a ->
  nonneg (np_mean a) = true.
Proof.
  intros [H1 H2] Ha. unfold np_mean.
  destruct (b64_of_nat_finite _ H1 H2) as (m & e & ->).
  apply b64_div_nonneg, np_sum_nonneg.
  eapply Forall_impl; [|exact Ha]. apply finite_nonneg_nonneg.
Qed.

Lemma np_std_nonneg a :
  countable (List.length a) -> Forall (fun x => finite_nonneg x = true) a ->
  nonneg (np_std 0 a) = true.
Proof.
  intros Hn Ha. pose proof (np_mean_nonneg a Hn Ha) as Hm.
  unfold np_std, np_var. apply b64_sqrt_nonneg.
  rewrite Nat.sub_0_r. destruct Hn as [H1 H2].
  destruct (b64_of_nat_finite _ H1 H2) as (m & e & ->).
  apply b64_div_nonneg, np_sum_nonneg.
  rewrite map_map. apply Forall_map.
  eapply Forall_impl; [|exact Ha]. intros x Hx. cbv beta.
  apply b64_mul_self_nonneg, b64_sub_notnan; assumption.
Qed.

Lemma b64_leb_refl x : b64_isnan x = false -> b64_leb x x = true.
Proof.
  destruct x as [s|s| |s m e]; intros H; try discriminate; try reflexivity.
  - destruct s; reflexivity.
  - unfold b64_leb, SFleb; simpl. rewrite Z.compare_refl.
    change (Pos.compare_cont Eq m m) with (Pos.compare m m).
    rewrite Pos.compare_refl. destruct s; reflexivity.
Qed.

Lemma b64_ltb_leb x y : b64_ltb x y = true -> b64_leb x y = true.
Proof.
  unfold b64_ltb, b64_leb, SFltb, SFleb.
  destruct (SFcompare x y) as [[]|]; try discriminate; reflexivity.
Qed.

Lemma finite_nonneg_notnan x : finite_nonneg x = true -> b64_isnan x = false.
Proof. destruct x; simpl; auto; discriminate. Qed.

Lemma np_minimum_cases x y : np_minimum x y = x \/ np_minimum x y = y.
Proof. unfold np_minimum. destruct (_ || _); auto. Qed.

Lemma np_maximum_cases x y : np_maximum x y = x \/ np_maximum x y = y.
Proof. unfold np_maximum. destruct (_ || _); auto. Qed.

Lemma fold_minimum_in a : forall x, In (fold_left np_minimum a x) (x :: a).
Proof.
  induction a as [|y a IH]; intros x; cbn [fold_left]; [left; reflexivity|].
  destruct (IH (np_minimum x y)) as [H|H]; [|right; right; exact H].
  destruct (np_minimum_cases x y) as [E|E]; rewrite E in *;
    [left|right; left]; exact H.
Qed.

Lemma fold_maximum_in a : forall x, In (fold_left np_maximum a x) (x :: a).
Proof.
  induction a as [|y a IH]; intros x; cbn [fold_left]; [left; reflexivity|].
  destruct (IH (np_maximum x y)) as [H|H]; [|right; right; exact H].
  destruct (np_maximum_cases x y) as [E|E]; rewrite E in *;
    [left|right; left]; exact H.
Qed.

Lemma minimum_le_maximum lo hi x :
  b64_isnan lo = false -> b64_isnan hi = false -> b64_isnan x = false ->
  b64_leb lo hi = true ->
  b64_leb (np_minimum lo x) (np_maximum hi x) = true.
Proof.
  intros Hlo Hhi Hx H. unfold np_minimum, np_maximum. rewrite Hlo, Hhi, !orb_false_r.
  destruct (b64_ltb lo x) eqn:E1, (b64_ltb x hi) eqn:E2; auto using b64_ltb_leb, b64_leb_refl.
Qed.

Lemma fold_min_le_max a : forall lo hi,
  Forall (fun x => b64_isnan x = false) a ->
  b64_isnan lo = false -> b64_isnan hi = false ->
  b64_leb lo hi = true ->
  b64_leb (fold_left np_minimum a lo) (fold_left np_maximum a hi) = true.
Proof.
  induction a as [|x a IH]; intros lo hi Ha Hlo Hhi H; simpl; [exact H|].
  inversion Ha; subst. apply IH; auto using minimum_le_maximum.
  - destruct (np_minimum_cases lo x) as [E|E]; rewrite E; assumption.
  - destruct (np_maximum_cases hi x) as [E|E]; rewrite E; assumption.
Qed.


(** ** Powers of two and numbers of digits *)

Lemma pow2_pos e : (0 < pow2 e)%Q.
Proof. apply Qpower_0_lt. reflexivity. Qed.

Lemma pow2_add a b : (pow2 (a + b) == pow2 a * pow2 b)%Q.
Proof. apply Qpower_plus. discriminate. Qed.

Lemma pos_pow_1_l p : (1 ^ p = 1)%positive.
Proof.
  induction p using Pos.peano_ind; [reflexivity|].
  rewrite Pos.pow_succ_r, IHp. reflexivity.
Qed.

Lemma pow2_Z k : (0 <= k)%Z -> (pow2 k == inject_Z (2 ^ k))%Q.
Proof.
  intros H. unfold pow2. destruct k as [|p|p]; [reflexivity| |lia].
  cbn [Qpower]. change 2%Q with (2 # 1)%Q.
  rewrite Qpower_decomp_positive, pos_pow_1_l. reflexivity.
Qed.

Lemma pow2_ge_1 k : (0 <= k)%Z -> (1 <= pow2 k)%Q.
Proof.
  intros H. rewrite (pow2_Z k H). change 1%Q with (inject_Z 1).
  rewrite <- Zle_Qle. pose proof (Z.pow_pos_nonneg 2 k). lia.
Qed.

Lemma pow2_le a b : (a <= b)%Z -> (pow2 a <= pow2 b)%Q.
Proof.
  intros H. replace b with (a + (b - a))%Z by lia. rewrite pow2_add.
  pose proof (pow2_pos a). pose proof (pow2_ge_1 (b - a)).
  assert (1 <= pow2 (b - a))%Q by (apply H1; lia). nra.
Qed.

Lemma pow2_succ e : (pow2 (e + 1) == 2 * pow2 e)%Q.
Proof. rewrite pow2_add. change (pow2 1) with 2%Q. ring. Qed.

Lemma pow2_lt a b : (a < b)%Z -> (2 * pow2 a <= pow2 b)%Q.
Proof.
  intros H. rewrite <- pow2_succ. apply pow2_le. lia.
Qed.

Lemma pow2_le_inv a b : (pow2 a <= pow2 b)%Q -> (a <= b)%Z.
Proof.
  intros H. destruct (Z_le_gt_dec a b) as [L|G]; [exact L|exfalso].
  assert (K : (2 * pow2 b <= pow2 a)%Q) by (apply pow2_lt; lia).
  pose proof (pow2_pos b). lra.
Qed.

Lemma qpow_pos q k : (0 < q)%Q -> (0 < qpow q k)%Q.
Proof.
  intros H. induction k as [|k IH]; cbn [qpow]; [reflexivity|].
  nra.
Qed.

Lemma ulp64_pos : (0 < ulp64)%Q.
Proof. apply pow2_pos. Qed.

Lemma ulp64_small : (ulp64 <= 1 # 1000000)%Q.
Proof. vm_compute. discriminate. Qed.

Section Digits.

Local Open Scope Z_scope.

Lemma digits2_pos_upper p : Zpos p < 2 ^ Zpos (digits2_pos p).
Proof.
  induction p as [p IH|p IH|]; simpl digits2_pos.
  - rewrite Pos2Z.inj_succ, Z.pow_succ_r by lia. lia.
  - rewrite Pos2Z.inj_succ, Z.pow_succ_r by lia. lia.
  - simpl. lia.
Qed.

Lemma Zdigits2_nonneg m : 0 <= Zdigits2 m.
Proof. destruct m; simpl; lia. Qed.

Lemma Zdigits2_bounds m :
  0 < m -> 2 ^ (Zdigits2 m - 1) <= m < 2 ^ Zdigits2 m.
Proof.
  destruct m as [|p|p]; try lia. intros _. simpl Zdigits2.
  split; [apply digits2_pos_bound|apply digits2_pos_upper].
Qed.

Lemma Zdigits2_unique m a :
  0 < m -> 2 ^ (a - 1) <= m < 2 ^ a -> Zdigits2 m = a.
Proof.
  intros Hm [H1 H2]. pose proof (Zdigits2_bounds m Hm) as [B1 B2].
  pose proof (Zdigits2_nonneg m) as N.
  assert (A : 0 <= a).
  { destruct (Z_lt_le_dec a 0) as [L|G]; [|exact G].
    rewrite (Z.pow_neg_r 2 a L) in H2. lia. }
  destruct (Z.lt_trichotomy (Zdigits2 m) a) as [L|[E|G]]; [|exact E|].
  - assert (2 ^ Zdigits2 m <= 2 ^ (a - 1)) by (apply Z.pow_le_mono_r; lia).
    lia.
  - assert (2 ^ a <= 2 ^ (Zdigits2 m - 1)) by (apply Z.pow_le_mono_r; lia).
    lia.
Qed.

Lemma Zdigits2_ge m a : 0 <= a -> 2 ^ a <= m -> a + 1 <= Zdigits2 m.
Proof.
  intros Ha H. assert (Hm : 0 < m) by (pose proof (Z.pow_pos_nonneg 2 a); lia).
  pose proof (Zdigits2_bounds m Hm) as [_ B2].
  destruct (Z_lt_le_dec (Zdigits2 m) (a + 1)) as [L|G]; [|exact G].
  assert (2 ^ Zdigits2 m <= 2 ^ a)
    by (apply Z.pow_le_mono_r; pose proof (Zdigits2_nonneg m); lia).
  lia.
Qed.

Lemma Zdigits2_mono m n : 0 <= m <= n -> Zdigits2 m <= Zdigits2 n.
Proof.
  intros [H0 H]. destruct (Z.eq_dec m 0) as [->|N];
    [apply Zdigits2_nonneg|].
  pose proof (Zdigits2_bounds m ltac:(lia)) as [B1 _].
  pose proof (Zdigits2_ge n (Zdigits2 m - 1)).
  assert (1 <= Zdigits2 m) by (destruct m; simpl; lia).
  lia.
Qed.

Lemma Zdigits2_succ m : 0 <= m -> Zdigits2 (m + 1) <= Zdigits2 m + 1.
Proof.
  intros H. destruct (Z.eq_dec m 0) as [->|N]; [simpl; lia|].
  pose proof (Zdigits2_bounds m ltac:(lia)) as [_ B2].
  pose proof (Zdigits2_nonneg m).
  destruct (Z.eq_dec (m + 1) (2 ^ Zdigits2 m)) as [E|NE].
  - rewrite (Zdigits2_unique (m + 1) (Zdigits2 m + 1)); [lia|lia|].
    replace (Zdigits2 m + 1 - 1) with (Zdigits2 m) by lia.
    rewrite Z.pow_add_r by lia. lia.
  - pose proof (Zdigits2_bounds m ltac:(lia)) as [B1 _].
    rewrite (Zdigits2_unique (m + 1) (Zdigits2 m)); lia.
Qed.

(** The mantissa after a shift to the right. *)
Lemma shr_1_div2 mrs : 0 <= shr_m mrs -> shr_m (shr_1 mrs) = shr_m mrs / 2.
Proof.
  destruct mrs as [m r s]. cbn [shr_m]. intros H.
  destruct m as [|[p|p|]|p]; cbn [shr_1 shr_m]; try lia.
  - reflexivity.
  - rewrite Pos2Z.inj_xI. apply Z.div_unique with 1; lia.
  - rewrite Pos2Z.inj_xO. apply Z.div_unique with 0; lia.
  - reflexivity.
Qed.

Lemma pow_xI p : 2 ^ Zpos p~1 = 2 * 2 ^ Zpos p * 2 ^ Zpos p.
Proof.
  replace (Zpos p~1) with (1 + Zpos p + Zpos p) by lia.
  rewrite Z.pow_add_r, Z.pow_add_r by lia. reflexivity.
Qed.

Lemma pow_xO p : 2 ^ Zpos p~0 = 2 ^ Zpos p * 2 ^ Zpos p.
Proof.
  replace (Zpos p~0) with (Zpos p + Zpos p) by lia.
  rewrite Z.pow_add_r by lia. reflexivity.
Qed.

Lemma iter_pos_shr_1_div p : forall mrs,
  0 <= shr_m mrs ->
  shr_m (SpecFloat.iter_pos shr_1 p mrs) = shr_m mrs / 2 ^ Zpos p.
Proof.
  induction p as [p IH|p IH|]; intros mrs H; cbn [SpecFloat.iter_pos].
  - rewrite IH, IH, shr_1_div2 by
      auto using iter_pos_shr_1_nonneg, shr_1_nonneg.
    pose proof (Z.pow_pos_nonneg 2 (Zpos p)) as P.
    rewrite (Z.div_div (shr_m mrs) 2 (2 ^ Zpos p)) by lia.
    rewrite (Z.div_div (shr_m mrs) (2 * 2 ^ Zpos p) (2 ^ Zpos p)) by nia.
    rewrite pow_xI. reflexivity.
  - rewrite IH, IH by auto using iter_pos_shr_1_nonneg.
    pose proof (Z.pow_pos_nonneg 2 (Zpos p)) as P.
    rewrite (Z.div_div (shr_m mrs) (2 ^ Zpos p) (2 ^ Zpos p)) by lia.
    rewrite pow_xO. reflexivity.
  - rewrite shr_1_div2 by exact H. reflexivity.
Qed.

Lemma shr_m_shr mrs e k :
  0 <= shr_m mrs -> 0 < k ->
  shr_m (fst (shr mrs e k)) = shr_m mrs / 2 ^ k
  /\ snd (shr mrs e k) = e + k.
Proof.
  intros H Hk. destruct k as [|p|p]; try lia. cbn [shr fst snd].
  split; [apply iter_pos_shr_1_div, H|reflexivity].
Qed.

Lemma loc_of_shr_record_of_loc m l :
  loc_of_shr_record (shr_record_of_loc m l) = l.
Proof. destruct l as [|[]]; reflexivity. Qed.

Lemma round_nearest_even_cases m l :
  round_nearest_even m l = m \/ round_nearest_even m l = m + 1.
Proof.
  destruct l as [|[]]; cbn [round_nearest_even]; auto.
  destruct (Z.even m); auto.
Qed.

End Digits.

(** ** Rounding to binary64 *)

Ltac fexp_lia := unfold fexp, emin, prec, emax in *; lia.

Section RoundingSteps.

Local Open Scope Z_scope.

Lemma fexp64 x : fexp prec emax x = Z.max (x - 53) (-1074).
Proof. reflexivity. Qed.

Lemma shr_fexp_noshift m e l :
  fexp prec emax (Zdigits2 m + e) <= e ->
  shr_fexp prec emax m e l = (shr_record_of_loc m l, e).
Proof.
  intros H. unfold shr_fexp.
  destruct (fexp prec emax (Zdigits2 m + e) - e) as [|p|p] eqn:E;
    try reflexivity.
  lia.
Qed.

Lemma shr_fexp_shift m e l :
  0 <= m -> e < fexp prec emax (Zdigits2 m + e) ->
  exists mrs,
    shr_fexp prec emax m e l = (mrs, fexp prec emax (Zdigits2 m + e))
    /\ shr_m mrs = m / 2 ^ (fexp prec emax (Zdigits2 m + e) - e).
Proof.
  intros Hm H. unfold shr_fexp.
  set (k := fexp prec emax (Zdigits2 m + e) - e).
  assert (Hk : 0 < k) by (unfold k; lia).
  destruct (shr_m_shr (shr_record_of_loc m l) e k) as [H1 H2];
    [rewrite shr_record_of_loc_m; exact Hm|exact Hk|].
  destruct (shr (shr_record_of_loc m l) e k) as [mrs e'].
  cbn [fst snd] in H1, H2. exists mrs.
  rewrite shr_record_of_loc_m in H1. subst e'. split; [|exact H1].
  f_equal. unfold k. lia.
Qed.

(** The mantissa cut down to the exponent of binary64 has that
    exponent. *)
Lemma canonical_after_shift m e :
  0 <= m -> e <= fexp prec emax (Zdigits2 m + e) ->
  fexp prec emax
    (Zdigits2 (m / 2 ^ (fexp prec emax (Zdigits2 m + e) - e))
     + fexp prec emax (Zdigits2 m + e))
  = fexp prec emax (Zdigits2 m + e).
Proof.
  intros Hm H. set (e' := fexp prec emax (Zdigits2 m + e)) in *.
  set (k := e' - e). assert (Hk : 0 <= k) by (unfold k; lia).
  pose proof (Z.pow_pos_nonneg 2 k ltac:(lia) Hk) as P.
  destruct (Z.eq_dec (m / 2 ^ k) 0) as [Z|NZ].
  - rewrite Z. cbn [Zdigits2 Z.add].
    assert (D : Zdigits2 m <= k).
    { destruct (Z.eq_dec m 0) as [->|N]; [simpl; lia|].
      pose proof (Zdigits2_bounds m ltac:(lia)) as [B1 _].
      apply Z.div_small_iff in Z; [|lia].
      destruct Z as [Z|Z]; [|lia].
      destruct (Z_le_gt_dec (Zdigits2 m) k) as [L|G]; [exact L|].
      assert (2 ^ k <= 2 ^ (Zdigits2 m - 1))
        by (apply Z.pow_le_mono_r; lia).
      lia. }
    unfold k, e' in *. fexp_lia.
  - assert (Hq : 0 < m / 2 ^ k).
    { pose proof (Z.div_pos m (2 ^ k) Hm P). lia. }
    assert (Hm' : 0 < m).
    { destruct (Z.eq_dec m 0) as [->|N]; [rewrite Z.div_0_l in Hq; lia|lia]. }
    pose proof (Zdigits2_bounds m Hm') as [B1 B2].
    assert (Dk : k < Zdigits2 m).
    { destruct (Z_lt_le_dec k (Zdigits2 m)) as [L|G]; [exact L|].
      assert (2 ^ Zdigits2 m <= 2 ^ k)
        by (apply Z.pow_le_mono_r; pose proof (Zdigits2_nonneg m); lia).
      rewrite Z.div_small in Hq by lia. lia. }
    rewrite (Zdigits2_unique (m / 2 ^ k) (Zdigits2 m - k) Hq).
    + unfold k, e'. f_equal. lia.
    + split.
      * apply Z.div_le_lower_bound; [exact P|].
        rewrite <- Z.pow_add_r by lia.
        replace (k + (Zdigits2 m - k - 1)) with (Zdigits2 m - 1) by lia.
        exact B1.
      * apply Z.div_lt_upper_bound; [exact P|].
        rewrite <- Z.pow_add_r by lia.
        replace (k + (Zdigits2 m - k)) with (Zdigits2 m) by lia.
        exact B2.
Qed.

(** The second cut, after the mantissa may have gone up by one. *)
Lemma second_shift m' e' m1 :
  0 <= m' -> fexp prec emax (Zdigits2 m' + e') = e' ->
  m1 = m' \/ m1 = m' + 1 ->
  exists mrs ef,
    shr_fexp prec emax m1 e' loc_Exact = (mrs, ef)
    /\ 0 <= shr_m mrs /\ e' <= ef
    /\ m1 = shr_m mrs * 2 ^ (ef - e')
    /\ fexp prec emax (Zdigits2 (shr_m mrs) + ef) = ef.
Proof.
  intros Hm C H1.
  assert (Hm1 : 0 <= m1) by lia.
  assert (D : Zdigits2 m' <= Zdigits2 m1 <= Zdigits2 m' + 1).
  { destruct H1 as [->| ->]; [lia|].
    split; [apply Zdigits2_mono; lia|apply Zdigits2_succ, Hm]. }
  destruct (Z_le_gt_dec (fexp prec emax (Zdigits2 m1 + e')) e') as [L|G].
  - exists (shr_record_of_loc m1 loc_Exact), e'.
    split; [apply shr_fexp_noshift, L|]. cbn [shr_record_of_loc shr_m].
    split; [exact Hm1|]. split; [lia|].
    rewrite Z.sub_diag. split; [simpl; lia|].
    cbn [shr_record_of_loc shr_m]. fexp_lia.
  - destruct (shr_fexp_shift m1 e' loc_Exact Hm1 ltac:(lia)) as (mrs & E & V).
    assert (K : fexp prec emax (Zdigits2 m1 + e') = e' + 1
                /\ Zdigits2 m' = 53 /\ Zdigits2 m1 = 54).
    { fexp_lia. }
    destruct K as (K & D53 & D54). rewrite K in *.
    replace (e' + 1 - e') with 1 in * by lia.
    assert (M1 : m1 = 2 ^ 53).
    { assert (Hp : 0 < m') by (destruct m'; simpl in D53; lia).
      pose proof (Zdigits2_bounds m' Hp) as [_ B2].
      pose proof (Zdigits2_bounds m1 ltac:(lia)) as [B1 _].
      rewrite D53 in B2. rewrite D54 in B1.
      replace (54 - 1) with 53 in B1 by lia. lia. }
    exists mrs, (e' + 1). split; [exact E|].
    rewrite V, M1. change (2 ^ 53 / 2 ^ 1) with (2 ^ 52).
    split; [lia|]. split; [lia|].
    split; [replace (e' + 1 - e') with 1 by lia; reflexivity|].
    change (Zdigits2 (2 ^ 52)) with 53. fexp_lia.
Qed.

(** [binary_round_aux] on a mantissa that is not negative. *)
Lemma binary_round_aux_steps s m e l :
  0 <= m ->
  l = loc_Exact \/ e <= fexp prec emax (Zdigits2 m + e) ->
  exists mf ef,
    binary_round_aux prec emax s m e l
    = match mf with
      | Z0 => S754_zero s
      | Zpos p => if ef <=? 971 then S754_finite s p ef else S754_infinity s
      | Zneg _ => S754_nan
      end
    /\ 0 <= mf /\ -1074 <= ef
    /\ fexp prec emax (Zdigits2 mf + ef) <= ef
    /\ ((mf = m /\ ef = e /\ l = loc_Exact)
        \/ exists m1,
             e <= fexp prec emax (Zdigits2 m + e)
             /\ (m1 = m / 2 ^ (fexp prec emax (Zdigits2 m + e) - e)
                 \/ m1 = m / 2 ^ (fexp prec emax (Zdigits2 m + e) - e) + 1)
             /\ fexp prec emax (Zdigits2 m + e) <= ef
             /\ m1 = mf * 2 ^ (ef - fexp prec emax (Zdigits2 m + e))
             /\ (e < -1074 \/ l <> loc_Exact
                 \/ fexp prec emax (Zdigits2 m + e) = Zdigits2 m + e - 53)
             /\ (l = loc_Exact -> e < fexp prec emax (Zdigits2 m + e))).
Proof.
  intros Hm H. unfold binary_round_aux.
  destruct (Z_le_gt_dec (fexp prec emax (Zdigits2 m + e)) e) as [L|G].
  - (* no first shift *)
    rewrite (shr_fexp_noshift m e l L).
    rewrite shr_record_of_loc_m, loc_of_shr_record_of_loc.
    destruct l as [|c].
    + cbn [round_nearest_even]. rewrite (shr_fexp_noshift m e loc_Exact L).
      cbn [shr_record_of_loc shr_m].
      exists m, e. split; [reflexivity|]. split; [exact Hm|].
      split; [fexp_lia|]. split; [exact L|].
      left. repeat split; reflexivity.
    + destruct H as [H|H]; [discriminate H|].
      assert (E : fexp prec emax (Zdigits2 m + e) = e) by lia.
      destruct (second_shift m e (round_nearest_even m (loc_Inexact c)) Hm E
                  (round_nearest_even_cases m _))
        as (mrs & ef & -> & P & Le & V & C).
      exists (shr_m mrs), ef. split; [reflexivity|]. split; [exact P|].
      split; [fexp_lia|]. split; [lia|].
      right. exists (round_nearest_even m (loc_Inexact c)).
      rewrite E, Z.sub_diag.
      change (2 ^ 0) with 1. rewrite Z.div_1_r.
      split; [lia|]. split; [apply round_nearest_even_cases|].
      split; [exact Le|]. split; [exact V|].
      split; [right; left; discriminate|discriminate].
  - (* first shift *)
    destruct (shr_fexp_shift m e l Hm ltac:(lia)) as (mrs' & -> & V').
    set (e' := fexp prec emax (Zdigits2 m + e)) in *.
    assert (Hm' : 0 <= shr_m mrs').
    { rewrite V'. apply Z.div_pos; [exact Hm|].
      apply Z.pow_pos_nonneg; lia. }
    assert (C' : fexp prec emax (Zdigits2 (shr_m mrs') + e') = e').
    { rewrite V'. apply canonical_after_shift; [exact Hm|lia]. }
    destruct (second_shift (shr_m mrs') e'
                (round_nearest_even (shr_m mrs') (loc_of_shr_record mrs'))
                Hm' C' (round_nearest_even_cases _ _))
      as (mrs & ef & -> & P & Le & V & C).
    exists (shr_m mrs), ef. split; [reflexivity|]. split; [exact P|].
    split; [unfold e' in *; fexp_lia|]. split; [lia|].
    right. exists (round_nearest_even (shr_m mrs') (loc_of_shr_record mrs')).
    split; [lia|]. rewrite <- V'.
    split; [apply round_nearest_even_cases|].
    split; [exact Le|]. split; [exact V|].
    split; [unfold e' in *; fexp_lia|intros _; lia].
Qed.

End RoundingSteps.

Section RoundingValues.

Local Open Scope Q_scope.

Lemma shift_bounds m k e :
  (0 <= m)%Z -> (0 <= k)%Z ->
  inject_Z (m / 2 ^ k) * pow2 (e + k) <= inject_Z m * pow2 e
  /\ inject_Z (m + 1) * pow2 e
     <= inject_Z (m / 2 ^ k) * pow2 (e + k) + pow2 (e + k).
Proof.
  intros Hm Hk. pose proof (Z.pow_pos_nonneg 2 k ltac:(lia) Hk) as P.
  pose proof (Z.mul_div_le m (2 ^ k) P) as L.
  pose proof (Z.mul_succ_div_gt m (2 ^ k) P) as U.
  rewrite pow2_add, (pow2_Z k Hk). pose proof (pow2_pos e) as Pe.
  assert (L' : inject_Z (m / 2 ^ k) * inject_Z (2 ^ k) <= inject_Z m).
  { rewrite <- inject_Z_mult, <- Zle_Qle. lia. }
  assert (U' : inject_Z (m + 1)
               <= inject_Z (m / 2 ^ k) * inject_Z (2 ^ k) + inject_Z (2 ^ k)).
  { rewrite <- inject_Z_mult, <- inject_Z_plus, <- Zle_Qle. lia. }
  split; nra.
Qed.

Lemma pow2_digits m :
  (0 < m)%Z -> pow2 (Zdigits2 m - 1) <= inject_Z m.
Proof.
  intros H. pose proof (Zdigits2_bounds m H) as [B _].
  assert (1 <= Zdigits2 m)%Z by (destruct m; simpl; lia).
  rewrite pow2_Z by lia. rewrite <- Zle_Qle. exact B.
Qed.

(** [binary_round_aux] on a magnitude between [m * 2^e] and
    [(m + 1) * 2^e] that is not too large. *)
Lemma binary_round_aux_rounds s m e l :
  (0 <= m)%Z ->
  l = loc_Exact \/ (e <= fexp prec emax (Zdigits2 m + e))%Z ->
  inject_Z m * pow2 e <= pow2 970 ->
  exists R,
    magnitude s R (binary_round_aux prec emax s m e l)
    /\ rounds (inject_Z m * pow2 e) (inject_Z (m + 1) * pow2 e) R
              ((e < -1074)%Z \/ l <> loc_Exact) (l = loc_Exact).
Proof.
  intros Hm H Hlo.
  destruct (binary_round_aux_steps s m e l Hm H)
    as (mf & ef & -> & Pf & G & _ & [(-> & -> & HE)|S]).
  - exists (inject_Z m * pow2 e).
    split; [|left; split; [exact HE|reflexivity]].
    destruct m as [|p|p]; [left; split; [reflexivity|ring]| |lia].
    right. assert (E : (e <= 971)%Z).
    { assert (pow2 e <= pow2 970); [|apply pow2_le_inv in H0; lia].
      pose proof (pow2_pos e).
      assert (1 <= inject_Z (Zpos p)) by (rewrite <- (Zle_Qle 1); lia).
      nra. }
    apply Z.leb_le in E. rewrite E. exists p, e.
    split; [reflexivity|]. split; [exact G|reflexivity].
  - destruct S as (m1 & Hk & Hm1 & Le & V & Sm & _).
    set (e' := fexp prec emax (Zdigits2 m + e)) in *.
    set (m' := (m / 2 ^ (e' - e))%Z) in *.
    destruct (shift_bounds m (e' - e) e Hm ltac:(lia)) as [LB UB].
    replace (e + (e' - e))%Z with e' in * by lia. fold m' in LB, UB.
    pose proof (pow2_pos e') as Pe'. pose proof (pow2_pos e) as Pe.
    assert (Hm' : (0 <= m')%Z).
    { apply Z.div_pos; [exact Hm|apply Z.pow_pos_nonneg; lia]. }
    assert (Hm'Q : 0 <= inject_Z m') by (rewrite <- (Zle_Qle 0); exact Hm').
    assert (HmQ : 0 <= inject_Z m) by (rewrite <- (Zle_Qle 0); exact Hm).
    (* the width of the interval *)
    assert (W : pow2 e' <= ulp64 * (inject_Z m * pow2 e)
                \/ (pow2 e' <= eta64 /\ ((e < -1074)%Z \/ l <> loc_Exact))).
    { destruct (Z.eq_dec e' (Zdigits2 m + e - 53)) as [E|N].
      - left. destruct (Z.eq_dec m 0) as [Z|NZ].
        + exfalso. subst m. cbn [Zdigits2] in E. lia.
        + pose proof (pow2_digits m ltac:(lia)) as D.
          rewrite E. replace (Zdigits2 m + e - 53)%Z
            with (-52 + ((Zdigits2 m - 1) + e))%Z by lia.
          rewrite !pow2_add. unfold ulp64.
          apply Qmult_le_l; [apply pow2_pos|].
          apply Qmult_le_r; [exact Pe|exact D].
      - right. assert (E : e' = (-1074)%Z) by (unfold e' in *; fexp_lia).
        split; [rewrite E; apply Qle_refl|].
        destruct Sm as [Sm|[Sm|Sm]]; [left; exact Sm|right; exact Sm|].
        contradiction. }
    assert (Wb : pow2 e' <= pow2 970).
    { destruct W as [W|[W _]].
      - pose proof ulp64_small. pose proof ulp64_pos.
        assert (0 <= inject_Z m * pow2 e) by nra.
        revert W Hlo H2. generalize (inject_Z m * pow2 e).
        intros lo W Hlo H2. nra.
      - unfold eta64 in W. eapply Qle_trans; [exact W|].
        apply pow2_le. lia. }
    exists (inject_Z m1 * pow2 e'). split.
    + (* the result *)
      assert (VQ : inject_Z m1 * pow2 e' == inject_Z mf * pow2 ef).
      { rewrite V, inject_Z_mult, <- (pow2_Z (ef - e')) by lia.
        replace ef with ((ef - e') + e')%Z at 2 by lia.
        rewrite pow2_add. ring. }
      destruct mf as [|p|p]; [left; split; [reflexivity|]| |lia].
      * rewrite VQ. ring.
      * right. assert (E : (ef <= 971)%Z).
        { assert (pow2 ef <= pow2 971); [|apply pow2_le_inv in H0; lia].
          pose proof (pow2_pos ef).
          assert (1 <= inject_Z (Zpos p)) by (rewrite <- (Zle_Qle 1); lia).
          assert (inject_Z m1 <= inject_Z m' + 1).
          { change 1 with (inject_Z 1).
            rewrite <- inject_Z_plus, <- Zle_Qle. lia. }
          change 971%Z with (970 + 1)%Z. rewrite pow2_succ.
          nra. }
        apply Z.leb_le in E. rewrite E. exists p, ef.
        split; [reflexivity|]. split; [exact G|exact VQ].
    + right. exists (inject_Z m' * pow2 e'), (pow2 e').
      split; [nra|]. split; [exact LB|]. split; [exact UB|].
      split; [|split; [exact Pe'|exact W]].
      destruct Hm1 as [->| ->]; [left; reflexivity|right].
      rewrite inject_Z_plus. ring.
Qed.

End RoundingValues.

(** ** The operations of binary64, against exact arithmetic *)

Section Operations.

Local Open Scope Q_scope.

Lemma Qval_finite s m e :
  Qval (S754_finite s m e)
  = if s then - (inject_Z (Zpos m) * pow2 e) else inject_Z (Zpos m) * pow2 e.
Proof. destruct s; reflexivity. Qed.

Lemma Qval_zero s : Qval (S754_zero s) = 0.
Proof. reflexivity. Qed.

Lemma magnitude_value s R r :
  magnitude s R r ->
  Qval r == (if s then - R else R) /\ grounded r = true
  /\ (s = false -> timing r = true).
Proof.
  intros [[-> E]|(m & e & -> & G & E)].
  - split; [rewrite Qval_zero; destruct s; rewrite E; reflexivity|].
    split; [reflexivity|]. intros _. reflexivity.
  - apply Z.leb_le in G. split; [|split; [exact G|]].
    + rewrite Qval_finite. destruct s; rewrite E; reflexivity.
    + intros ->. unfold timing. cbn [finite_nonneg grounded negb andb].
      exact G.
Qed.

Lemma magnitude_nonneg s R r : magnitude s R r -> 0 <= R.
Proof.
  intros [[_ E]|(m & e & _ & _ & E)]; rewrite E; [apply Qle_refl|].
  pose proof (pow2_pos e).
  assert (0 < inject_Z (Zpos m)) by (rewrite <- (Zlt_Qlt 0); lia).
  nra.
Qed.

(** The result of a rounding is within one unit in the last place of
    the exact magnitude, or within the spacing of the smallest
    numbers. *)
Lemma rounds_near lo hi R small exact v :
  rounds lo hi R small exact ->
  0 <= lo -> lo <= v -> v <= hi -> (exact -> v == lo) ->
  (v - (ulp64 * lo + eta64) <= R /\ R <= v + (ulp64 * lo + eta64))
  /\ (~ small -> v - ulp64 * lo <= R /\ R <= v + ulp64 * lo).
Proof.
  intros [[E ER]|(A & w & HA & HAl & Hh & HR & Hw & W)] H0 Hl Hh' Hex.
  - specialize (Hex E). pose proof ulp64_pos. pose proof (pow2_pos (-1074)).
    unfold eta64. split; [|intros _]; nra.
  - pose proof ulp64_pos. pose proof (pow2_pos (-1074)). unfold eta64 in *.
    assert (B : v - w <= R /\ R <= v + w) by (destruct HR; lra).
    split.
    + destruct W as [W|[W _]]; nra.
    + intros NS. destruct W as [W|[_ S]]; [lra|contradiction].
Qed.

Lemma pos_iter_xO_value d : forall m,
  (Zpos (Pos.iter xO m d) = Zpos m * 2 ^ Zpos d)%Z.
Proof.
  induction d using Pos.peano_ind; intros m.
  - simpl Pos.iter. lia.
  - rewrite Pos.iter_succ, Pos2Z.inj_xO, IHd, Pos2Z.inj_succ,
      Z.pow_succ_r by lia.
    lia.
Qed.

Lemma shl_align_value mx ex e' :
  inject_Z (Zpos (fst (shl_align mx ex e'))) * pow2 (snd (shl_align mx ex e'))
  == inject_Z (Zpos mx) * pow2 ex
  /\ snd (shl_align mx ex e') = Z.min ex e'.
Proof.
  unfold shl_align. destruct (e' - ex)%Z as [|d|d] eqn:E; cbn [fst snd].
  - split; [reflexivity|lia].
  - split; [reflexivity|lia].
  - split; [|lia]. rewrite pos_iter_xO_value, inject_Z_mult.
    rewrite <- (pow2_Z (Zpos d)) by lia.
    assert (X : ex = (Zpos d + e')%Z) by lia.
    rewrite X, pow2_add. ring.
Qed.

Lemma shl_align_min mx ex ez :
  (ez <= ex)%Z ->
  inject_Z (Zpos (fst (shl_align mx ex ez))) * pow2 ez
  == inject_Z (Zpos mx) * pow2 ex.
Proof.
  intros H. destruct (shl_align_value mx ex ez) as [V S].
  rewrite <- V, S. replace (Z.min ex ez) with ez by lia. reflexivity.
Qed.

(** [binary_round] on an exact magnitude with an exponent of
    binary64. *)
Lemma binary_round_near s p e :
  (-1074 <= e)%Z ->
  inject_Z (Zpos p) * pow2 e <= pow2 970 ->
  exists R,
    magnitude s R (binary_round prec emax s p e)
    /\ inject_Z (Zpos p) * pow2 e - ulp64 * (inject_Z (Zpos p) * pow2 e) <= R
    /\ R <= inject_Z (Zpos p) * pow2 e + ulp64 * (inject_Z (Zpos p) * pow2 e).
Proof.
  intros G Hlo. unfold binary_round.
  destruct (shl_align_value p e (fexp prec emax (Zpos (digits2_pos p) + e)))
    as [V S].
  destruct (shl_align p e (fexp prec emax (Zpos (digits2_pos p) + e)))
    as [mz ez]. cbn [fst snd] in V, S.
  destruct (binary_round_aux_rounds s (Zpos mz) ez loc_Exact)
    as (R & M & Rd); [lia|left; reflexivity|rewrite V; exact Hlo|].
  exists R. split; [exact M|].
  pose proof (pow2_pos ez) as Pz.
  assert (P0 : 0 < inject_Z (Zpos mz)) by (rewrite <- (Zlt_Qlt 0); lia).
  assert (P1 : inject_Z (Zpos mz) <= inject_Z (Zpos mz + 1))
    by (rewrite <- Zle_Qle; lia).
  destruct (rounds_near _ _ _ _ _ (inject_Z (Zpos mz) * pow2 ez) Rd)
    as [_ N]; [nra|apply Qle_refl|nra|reflexivity|].
  rewrite <- V. apply N. intros [L|L]; [fexp_lia|contradiction].
Qed.

(** [binary_normalize] on an exact integer multiple of a power of
    two. *)
Lemma binary_normalize_near m e :
  (-1074 <= e)%Z ->
  Qabs (inject_Z m * pow2 e) <= pow2 970 ->
  grounded (binary_normalize prec emax m e false) = true
  /\ ((0 <= m)%Z -> timing (binary_normalize prec emax m e false) = true)
  /\ inject_Z m * pow2 e - ulp64 * Qabs (inject_Z m * pow2 e)
     <= Qval (binary_normalize prec emax m e false)
  /\ Qval (binary_normalize prec emax m e false)
     <= inject_Z m * pow2 e + ulp64 * Qabs (inject_Z m * pow2 e).
Proof.
  intros G H. pose proof (pow2_pos e) as Pe. pose proof ulp64_pos as Pu.
  destruct m as [|p|p]; cbn [binary_normalize].
  - split; [reflexivity|]. split; [reflexivity|].
    rewrite Qval_zero. setoid_replace (inject_Z 0 * pow2 e) with 0 by ring.
    cbn. split; lra.
  - assert (P0 : 0 < inject_Z (Zpos p)) by (rewrite <- (Zlt_Qlt 0); lia).
    rewrite Qabs_pos in * by nra.
    destruct (binary_round_near false p e G H) as (R & M & L & U).
    destruct (magnitude_value _ _ _ M) as (V & Gr & T).
    split; [exact Gr|]. split; [intros _; apply T; reflexivity|].
    cbn beta iota in V. rewrite V. split; assumption.
  - assert (P0 : 0 < inject_Z (Zpos p)) by (rewrite <- (Zlt_Qlt 0); lia).
    assert (N : inject_Z (Zneg p) == - inject_Z (Zpos p)).
    { reflexivity. }
    rewrite N in *.
    assert (A : Qabs (- inject_Z (Zpos p) * pow2 e)
                == inject_Z (Zpos p) * pow2 e).
    { rewrite Qabs_neg by nra. ring. }
    rewrite A in *.
    destruct (binary_round_near true p e G H) as (R & M & L & U).
    destruct (magnitude_value _ _ _ M) as (V & Gr & T).
    split; [exact Gr|]. split; [intros; lia|].
    cbn beta iota in V. rewrite V. split; lra.
Qed.

Lemma timing_cases x :
  timing x = true ->
  (exists s, x = S754_zero s)
  \/ exists m e, x = S754_finite false m e /\ (-1074 <= e)%Z.
Proof.
  destruct x as [s|s| |s m e]; unfold timing;
    cbn [finite_nonneg grounded andb]; try discriminate.
  - intros _. left. exists s. reflexivity.
  - destruct s; cbn [negb andb]; [discriminate|]. intros H.
    apply Z.leb_le in H. right. exists m, e. split; [reflexivity|exact H].
Qed.

Lemma timing_nonneg x : timing x = true -> 0 <= Qval x.
Proof.
  intros H. destruct (timing_cases x H) as [[s ->]|(m & e & -> & _)].
  - apply Qle_refl.
  - rewrite Qval_finite. pose proof (pow2_pos e).
    assert (0 < inject_Z (Zpos m)) by (rewrite <- (Zlt_Qlt 0); lia). nra.
Qed.

Lemma timing_grounded x : timing x = true -> grounded x = true.
Proof. unfold timing. intros H. apply andb_prop in H. apply H. Qed.

Lemma grounded_cases x :
  grounded x = true ->
  (exists s, x = S754_zero s)
  \/ exists s m e, x = S754_finite s m e /\ (-1074 <= e)%Z.
Proof.
  destruct x as [s|s| |s m e]; cbn [grounded]; try discriminate.
  - intros _. left. exists s. reflexivity.
  - intros H. apply Z.leb_le in H. right. exists s, m, e.
    split; [reflexivity|exact H].
Qed.

(** Addition of two times. *)
Lemma b64_add_spec x y :
  timing x = true -> timing y = true ->
  Qval x + Qval y <= pow2 970 ->
  timing (b64_add x y) = true
  /\ (Qval x + Qval y) - ulp64 * (Qval x + Qval y) <= Qval (b64_add x y)
  /\ Qval (b64_add x y) <= (Qval x + Qval y) + ulp64 * (Qval x + Qval y).
Proof.
  intros Hx Hy H. pose proof ulp64_pos as Pu.
  pose proof (timing_nonneg x Hx) as Nx. pose proof (timing_nonneg y Hy) as Ny.
  destruct (timing_cases x Hx) as [[sx ->]|(mx & ex & -> & Gx)];
    destruct (timing_cases y Hy) as [[sy ->]|(my & ey & -> & Gy)].
  - assert (E : exists s, b64_add (S754_zero sx) (S754_zero sy) = S754_zero s)
      by (destruct sx, sy; eexists; reflexivity).
    destruct E as [s ->]. rewrite !Qval_zero. split; [reflexivity|]. nra.
  - change (b64_add (S754_zero sx) (S754_finite false my ey))
      with (S754_finite false my ey).
    rewrite Qval_zero in *. split; [exact Hy|]. nra.
  - change (b64_add (S754_finite false mx ex) (S754_zero sy))
      with (S754_finite false mx ex).
    rewrite Qval_zero in *. split; [exact Hx|]. nra.
  - unfold b64_add. cbn [SFadd cond_Zopp].
    set (ez := Z.min ex ey).
    set (a := fst (shl_align mx ex ez)). set (b := fst (shl_align my ey ez)).
    assert (V : inject_Z (Zpos a + Zpos b) * pow2 ez
                == Qval (S754_finite false mx ex)
                   + Qval (S754_finite false my ey)).
    { rewrite inject_Z_plus, !Qval_finite. unfold a, b.
      rewrite <- (shl_align_min mx ex ez) by (unfold ez; lia).
      rewrite <- (shl_align_min my ey ez) by (unfold ez; lia). ring. }
    destruct (binary_normalize_near (Zpos a + Zpos b) ez)
      as (_ & T & L & U); [unfold ez; lia| |].
    + rewrite V, Qabs_pos by nra. exact H.
    + rewrite V in L, U. rewrite Qabs_pos in L, U by nra.
      split; [apply T; lia|]. split; assumption.
Qed.

(** Subtraction of two times. *)
Lemma b64_sub_spec x y :
  timing x = true -> timing y = true ->
  Qval x <= pow2 970 -> Qval y <= pow2 970 ->
  grounded (b64_sub x y) = true
  /\ (Qval x - Qval y) - ulp64 * Qabs (Qval x - Qval y) <= Qval (b64_sub x y)
  /\ Qval (b64_sub x y) <= (Qval x - Qval y) + ulp64 * Qabs (Qval x - Qval y).
Proof.
  intros Hx Hy Bx By. pose proof ulp64_pos as Pu.
  pose proof (timing_nonneg x Hx) as Nx. pose proof (timing_nonneg y Hy) as Ny.
  pose proof (Qabs_nonneg (Qval x - Qval y)) as Na.
  destruct (timing_cases x Hx) as [[sx ->]|(mx & ex & -> & Gx)];
    destruct (timing_cases y Hy) as [[sy ->]|(my & ey & -> & Gy)].
  - assert (E : exists s, b64_sub (S754_zero sx) (S754_zero sy) = S754_zero s)
      by (destruct sx, sy; eexists; reflexivity).
    destruct E as [s ->]. rewrite !Qval_zero in *. split; [reflexivity|]. nra.
  - change (b64_sub (S754_zero sx) (S754_finite false my ey))
      with (S754_finite true my ey).
    split; [cbn [grounded]; apply Z.leb_le, Gy|].
    rewrite Qval_zero in *. rewrite !Qval_finite in *. nra.
  - change (b64_sub (S754_finite false mx ex) (S754_zero sy))
      with (S754_finite false mx ex).
    split; [cbn [grounded]; apply Z.leb_le, Gx|].
    rewrite Qval_zero in *. nra.
  - unfold b64_sub. cbn [SFsub cond_Zopp].
    set (ez := Z.min ex ey).
    set (a := fst (shl_align mx ex ez)). set (b := fst (shl_align my ey ez)).
    assert (V : inject_Z (Zpos a - Zpos b) * pow2 ez
                == Qval (S754_finite false mx ex)
                   - Qval (S754_finite false my ey)).
    { unfold Z.sub. rewrite inject_Z_plus, inject_Z_opp, !Qval_finite.
      unfold a, b.
      rewrite <- (shl_align_min mx ex ez) by (unfold ez; lia).
      rewrite <- (shl_align_min my ey ez) by (unfold ez; lia). ring. }
    destruct (binary_normalize_near (Zpos a - Zpos b) ez)
      as (G & _ & L & U); [unfold ez; lia| |].
    + rewrite V. apply Qabs_Qle_condition. split; lra.
    + rewrite V in L, U. split; [exact G|]. split; assumption.
Qed.

(** The square of a number. *)
Lemma b64_square_spec d :
  grounded d = true ->
  Qval d * Qval d <= pow2 970 ->
  timing (b64_mul d d) = true
  /\ Qval d * Qval d - (ulp64 * (Qval d * Qval d) + eta64)
     <= Qval (b64_mul d d)
  /\ Qval (b64_mul d d)
     <= Qval d * Qval d + (ulp64 * (Qval d * Qval d) + eta64).
Proof.
  intros G H. pose proof ulp64_pos as Pu.
  assert (Pe : 0 < eta64) by apply pow2_pos.
  destruct (grounded_cases d G) as [[s ->]|(s & m & e & -> & Ge)].
  - change (b64_mul (S754_zero s) (S754_zero s)) with (S754_zero (xorb s s)).
    rewrite !Qval_zero. split; [reflexivity|]. nra.
  - unfold b64_mul. cbn [SFmul]. rewrite xorb_nilpotent.
    assert (V : inject_Z (Zpos (m * m)) * pow2 (e + e)
                == Qval (S754_finite s m e) * Qval (S754_finite s m e)).
    { rewrite Pos2Z.inj_mul, inject_Z_mult, pow2_add, Qval_finite.
      destruct s; ring. }
    assert (P0 : 0 < inject_Z (Zpos (m * m)))
      by (rewrite <- (Zlt_Qlt 0); lia).
    pose proof (pow2_pos (e + e)) as Pee.
    destruct (binary_round_aux_rounds false (Zpos (m * m)) (e + e) loc_Exact)
      as (R & M & Rd); [lia|left; reflexivity|rewrite V; exact H|].
    destruct (magnitude_value _ _ _ M) as (VR & _ & T).
    assert (P1 : inject_Z (Zpos (m * m)) <= inject_Z (Zpos (m * m) + 1))
      by (rewrite <- Zle_Qle; lia).
    destruct (rounds_near _ _ _ _ _ (inject_Z (Zpos (m * m)) * pow2 (e + e)) Rd)
      as [[L U] _]; [nra|apply Qle_refl|nra|reflexivity|].
    cbn beta iota in VR. rewrite VR, <- V.
    split; [apply T; reflexivity|]. split; assumption.
Qed.

Lemma new_location_exact nb k : new_location nb k = loc_Exact -> k = 0%Z.
Proof.
  unfold new_location.
  destruct (Z.even nb); unfold new_location_even, new_location_odd;
    (destruct (Z.eqb k 0) eqn:E;
     [intros _; apply Z.eqb_eq, E|intros H; discriminate H]).
Qed.

Lemma pow2_sub a b : pow2 (a - b) * pow2 b == pow2 a.
Proof. rewrite <- pow2_add. replace (a - b + b)%Z with a by lia. reflexivity. Qed.

(** The quotient of two mantissas before it is rounded. *)
Lemma div_core_spec mx ex my ey :
  forall q e' l,
    SFdiv_core_binary prec emax (Zpos mx) ex (Zpos my) ey = (q, e', l) ->
    (0 <= q)%Z
    /\ (e' <= fexp prec emax (Zdigits2 q + e'))%Z
    /\ inject_Z q * pow2 e' * (inject_Z (Zpos my) * pow2 ey)
       <= inject_Z (Zpos mx) * pow2 ex
    /\ inject_Z (Zpos mx) * pow2 ex
       <= inject_Z (q + 1) * pow2 e' * (inject_Z (Zpos my) * pow2 ey)
    /\ (l = loc_Exact ->
        inject_Z (Zpos mx) * pow2 ex
        == inject_Z q * pow2 e' * (inject_Z (Zpos my) * pow2 ey)).
Proof.
  intros q e' l. unfold SFdiv_core_binary. cbv zeta.
  set (d1 := Zdigits2 (Zpos mx)). set (d2 := Zdigits2 (Zpos my)).
  set (e0 := Z.min (fexp prec emax (d1 + ex - (d2 + ey))) (ex - ey)).
  set (s := (ex - ey - e0)%Z).
  assert (Hs : (0 <= s)%Z) by (unfold s, e0; lia).
  set (m' := match s with
             | Zpos _ => Z.shiftl (Zpos mx) s
             | Z0 => Zpos mx
             | Zneg _ => 0%Z
             end).
  assert (Hm' : m' = (Zpos mx * 2 ^ s)%Z).
  { unfold m'. destruct s as [|p|p]; [simpl; lia| |lia].
    apply Z.shiftl_mul_pow2. lia. }
  pose proof (Z_div_mod m' (Zpos my) ltac:(lia)) as DM.
  destruct (Z.div_eucl m' (Zpos my)) as [q0 r0].
  destruct DM as [DM Hr]. intros E. injection E as Eq Ee El.
  subst q e' l. rename q0 into q.
  pose proof (Z.pow_pos_nonneg 2 s ltac:(lia) Hs) as Ps.
  assert (Hq : (0 <= q)%Z) by nia.
  (* the value *)
  assert (V : inject_Z (Zpos mx) * pow2 ex
              == (inject_Z (Zpos my) * inject_Z q + inject_Z r0)
                 * pow2 e0 * pow2 ey).
  { rewrite <- inject_Z_mult, <- inject_Z_plus, <- DM, Hm', inject_Z_mult.
    rewrite <- (pow2_Z s Hs). unfold s.
    rewrite <- (pow2_sub ex ey), <- (pow2_sub (ex - ey) e0). ring. }
  pose proof (pow2_pos e0) as P0. pose proof (pow2_pos ey) as Py.
  assert (Pp : 0 < pow2 e0 * pow2 ey) by nra.
  assert (R0 : 0 <= inject_Z r0) by (rewrite <- (Zle_Qle 0); lia).
  assert (R1 : inject_Z r0 <= inject_Z (Zpos my)) by (rewrite <- Zle_Qle; lia).
  split; [exact Hq|]. split; [|split; [|split]].
  - (* the exponent *)
    assert (D : (d1 + s - d2 <= Zdigits2 q)%Z).
    { destruct (Z_le_gt_dec (d1 + s - d2) 0) as [L|G];
        [pose proof (Zdigits2_nonneg q); lia|].
      pose proof (Zdigits2_bounds (Zpos mx) ltac:(lia)) as [B1 _].
      pose proof (Zdigits2_bounds (Zpos my) ltac:(lia)) as [_ B2].
      fold d1 in B1. fold d2 in B2.
      assert (1 <= d2)%Z by (unfold d2; simpl; lia).
      assert (1 <= d1)%Z by (unfold d1; simpl; lia).
      pose proof (Zdigits2_ge q (d1 + s - d2 - 1) ltac:(lia)) as K.
      assert (2 ^ (d1 + s - d2 - 1) <= q)%Z; [|lia].
      destruct (Z_le_gt_dec (2 ^ (d1 + s - d2 - 1)) q) as [L|G'];
        [exact L|exfalso].
      assert (X : (2 ^ (d1 - 1) * 2 ^ s
                   = 2 ^ (d1 + s - d2 - 1) * 2 ^ d2)%Z).
      { rewrite <- !Z.pow_add_r by lia. f_equal. lia. }
      assert (Y : (Zpos my * (q + 1) <= Zpos my * 2 ^ (d1 + s - d2 - 1))%Z)
        by (apply Z.mul_le_mono_nonneg_l; lia).
      assert (Z' : (Zpos my * 2 ^ (d1 + s - d2 - 1)
                    < 2 ^ d2 * 2 ^ (d1 + s - d2 - 1))%Z).
      { apply Z.mul_lt_mono_pos_r; [apply Z.pow_pos_nonneg; lia|exact B2]. }
      assert (W : (2 ^ (d1 - 1) * 2 ^ s <= Zpos mx * 2 ^ s)%Z)
        by (apply Z.mul_le_mono_nonneg_r; lia).
      lia. }
    assert (M : (fexp prec emax (d1 + ex - (d2 + ey))
                 <= fexp prec emax (Zdigits2 q + e0))%Z).
    { unfold s in D. fexp_lia. }
    unfold e0 at 1. lia.
  - rewrite V. rewrite <- !Qmult_assoc.
    setoid_replace (inject_Z q * (pow2 e0 * (inject_Z (Zpos my) * pow2 ey)))
      with (inject_Z (Zpos my) * inject_Z q * (pow2 e0 * pow2 ey)) by ring.
    nra.
  - rewrite V, inject_Z_plus. rewrite <- !Qmult_assoc.
    setoid_replace ((inject_Z q + inject_Z 1)
                    * (pow2 e0 * (inject_Z (Zpos my) * pow2 ey)))
      with ((inject_Z (Zpos my) * inject_Z q + inject_Z (Zpos my))
            * (pow2 e0 * pow2 ey)) by ring.
    nra.
  - intros El. apply new_location_exact in El. subst r0. rewrite V. ring.
Qed.

(** Division of a time by a positive number. *)
Lemma b64_div_spec x y :
  timing x = true -> timing y = true -> 0 < Qval y ->
  Qval x / Qval y <= pow2 970 ->
  timing (b64_div x y) = true
  /\ Qval x / Qval y - (ulp64 * (Qval x / Qval y) + eta64)
     <= Qval (b64_div x y)
  /\ Qval (b64_div x y)
     <= Qval x / Qval y + (ulp64 * (Qval x / Qval y) + eta64).
Proof.
  intros Hx Hy Py H. pose proof ulp64_pos as Pu.
  assert (Pe : 0 < eta64) by apply pow2_pos.
  destruct (timing_cases y Hy) as [[sy ->]|(my & ey & -> & Gy)];
    [rewrite Qval_zero in Py; lra|].
  destruct (timing_cases x Hx) as [[sx ->]|(mx & ex & -> & Gx)].
  - change (b64_div (S754_zero sx) (S754_finite false my ey))
      with (S754_zero (xorb sx false)).
    rewrite !Qval_zero. split; [reflexivity|].
    setoid_replace (0 / Qval (S754_finite false my ey)) with 0
      by (unfold Qdiv; ring).
    nra.
  - unfold b64_div. cbn [SFdiv xorb].
    pose proof (div_core_spec mx ex my ey) as C.
    destruct (SFdiv_core_binary prec emax (Zpos mx) ex (Zpos my) ey)
      as [[q e'] l].
    destruct (C q e' l eq_refl) as (Hq & He & L & U & Ex).
    rewrite !Qval_finite in *.
    set (X := inject_Z (Zpos mx) * pow2 ex) in *.
    set (Y := inject_Z (Zpos my) * pow2 ey) in *.
    assert (NY : ~ Y == 0) by lra.
    assert (Lv : inject_Z q * pow2 e' <= X / Y).
    { apply Qle_shift_div_l; [exact Py|exact L]. }
    assert (Uv : X / Y <= inject_Z (q + 1) * pow2 e').
    { apply Qle_shift_div_r; [exact Py|exact U]. }
    assert (Q0 : 0 <= inject_Z q * pow2 e').
    { pose proof (pow2_pos e').
      assert (0 <= inject_Z q) by (rewrite <- (Zle_Qle 0); lia). nra. }
    destruct (binary_round_aux_rounds false q e' l Hq)
      as (R & M & Rd); [right; exact He|lra|].
    destruct (magnitude_value _ _ _ M) as (VR & _ & T).
    destruct (rounds_near _ _ _ _ _ (X / Y) Rd) as [[L' U'] _];
      [exact Q0|exact Lv|exact Uv| |].
    + intros El. rewrite (Ex El). field. exact NY.
    + cbn beta iota in VR. rewrite VR.
      split; [apply T; reflexivity|]. split; nra.
Qed.

Lemma half_bounds x : (2 * (x / 2) <= x < 2 * (x / 2) + 2)%Z.
Proof.
  pose proof (Z.div_mod x 2 ltac:(lia)).
  pose proof (Z.mod_pos_bound x 2 ltac:(lia)). lia.
Qed.

(** The square root of a mantissa before it is rounded. *)
Lemma sqrt_core_spec m e :
  forall q e' l,
    SFsqrt_core_binary prec emax (Zpos m) e = (q, e', l) ->
    (0 <= q)%Z
    /\ (e' <= fexp prec emax (Zdigits2 q + e'))%Z
    /\ (inject_Z q * pow2 e') * (inject_Z q * pow2 e')
       <= inject_Z (Zpos m) * pow2 e
    /\ inject_Z (Zpos m) * pow2 e
       <= (inject_Z (q + 1) * pow2 e') * (inject_Z (q + 1) * pow2 e')
    /\ (l = loc_Exact ->
        inject_Z (Zpos m) * pow2 e
        == (inject_Z q * pow2 e') * (inject_Z q * pow2 e')).
Proof.
  intros q e' l. unfold SFsqrt_core_binary. cbv zeta.
  set (d := Zdigits2 (Zpos m)).
  set (e0 := Z.min (fexp prec emax (Z.div2 (d + e + 1))) (Z.div2 e)).
  set (s := (e - 2 * e0)%Z).
  assert (Hs : (0 <= s)%Z).
  { unfold s, e0. rewrite (Z.div2_div e).
    generalize (fexp prec emax (Z.div2 (d + e + 1))). intros f.
    pose proof (half_bounds e). lia. }
  set (m' := match s with
             | Zpos _ => Z.shiftl (Zpos m) s
             | Z0 => Zpos m
             | Zneg _ => 0%Z
             end).
  assert (Hm' : m' = (Zpos m * 2 ^ s)%Z).
  { unfold m'. destruct s as [|p|p]; [simpl; lia| |lia].
    apply Z.shiftl_mul_pow2. lia. }
  pose proof (Z.pow_pos_nonneg 2 s ltac:(lia) Hs) as Ps.
  pose proof (Z.sqrtrem_spec m' ltac:(nia)) as SR.
  destruct (Z.sqrtrem m') as [q0 r0]. destruct SR as [SR Hr].
  intros E. injection E as Eq Ee El. subst q e' l. rename q0 into q.
  assert (Hq : (0 <= q)%Z) by lia.
  assert (V : inject_Z (Zpos m) * pow2 e
              == inject_Z m' * (pow2 e0 * pow2 e0)).
  { rewrite Hm', inject_Z_mult, <- (pow2_Z s Hs), <- !pow2_add.
    rewrite <- Qmult_assoc, <- pow2_add. unfold s.
    replace (e - 2 * e0 + (e0 + e0))%Z with e by lia. reflexivity. }
  pose proof (pow2_pos e0) as P0.
  assert (Pp : 0 < pow2 e0 * pow2 e0) by nra.
  split; [exact Hq|]. split; [|split; [|split]].
  - assert (D : ((d + s + 1) / 2 <= Zdigits2 q)%Z).
    { pose proof (Zdigits2_bounds (Zpos m) ltac:(lia)) as [B1 _].
      fold d in B1. assert (1 <= d)%Z by (unfold d; simpl; lia).
      pose proof (half_bounds (d + s + 1)) as HB.
      set (g := ((d + s + 1) / 2)%Z) in *.
      assert (Hg : (1 <= g /\ 2 * g - 2 <= d + s - 1)%Z) by lia.
      pose proof (Zdigits2_ge q (g - 1) ltac:(lia)) as K.
      assert (2 ^ (g - 1) <= q)%Z; [|lia].
      destruct (Z_le_gt_dec (2 ^ (g - 1)) q) as [L|G']; [exact L|exfalso].
      assert (X : (m' < 2 ^ (g - 1) * 2 ^ (g - 1))%Z) by nia.
      rewrite <- Z.pow_add_r in X by lia.
      assert (Y : (2 ^ (g - 1 + (g - 1)) <= 2 ^ (d + s - 1))%Z)
        by (apply Z.pow_le_mono_r; lia).
      assert (W : (2 ^ (d - 1) * 2 ^ s <= Zpos m * 2 ^ s)%Z)
        by (apply Z.mul_le_mono_nonneg_r; lia).
      rewrite <- Z.pow_add_r in W by lia.
      replace (d - 1 + s)%Z with (d + s - 1)%Z in W by lia. lia. }
    assert (M : (fexp prec emax (Z.div2 (d + e + 1))
                 <= fexp prec emax (Zdigits2 q + e0))%Z).
    { rewrite Z.div2_div. unfold s in D.
      pose proof (half_bounds (d + (e - 2 * e0) + 1)).
      pose proof (half_bounds (d + e + 1)). fexp_lia. }
    unfold e0 at 1. lia.
  - rewrite V.
    setoid_replace (inject_Z q * pow2 e0 * (inject_Z q * pow2 e0))
      with (inject_Z (q * q) * (pow2 e0 * pow2 e0))
      by (rewrite inject_Z_mult; ring).
    apply Qmult_le_r; [exact Pp|]. rewrite <- Zle_Qle. lia.
  - rewrite V.
    setoid_replace (inject_Z (q + 1) * pow2 e0 * (inject_Z (q + 1) * pow2 e0))
      with (inject_Z ((q + 1) * (q + 1)) * (pow2 e0 * pow2 e0))
      by (rewrite inject_Z_mult; ring).
    apply Qmult_le_r; [exact Pp|]. rewrite <- Zle_Qle. lia.
  - intros El. destruct (Z.eqb_spec r0 0) as [Z0|N]; [|discriminate El].
    rewrite V, SR, Z0, Z.add_0_r, inject_Z_mult. ring.
Qed.

(** The square root of a time: its square is the time, up to the
    width [w] of the last rounding around [lo]. *)
Lemma b64_sqrt_spec x :
  timing x = true -> Qval x <= pow2 970 ->
  timing (b64_sqrt x) = true
  /\ exists lo w,
       0 <= lo /\ lo * lo <= Qval x /\ 0 <= w /\ w <= ulp64 * lo + eta64
       /\ Qval x - w * (2 * lo + w) <= Qval (b64_sqrt x) * Qval (b64_sqrt x)
       /\ Qval (b64_sqrt x) * Qval (b64_sqrt x) <= Qval x + w * (2 * lo + w).
Proof.
  intros Hx H. pose proof ulp64_pos as Pu.
  assert (Pe : 0 < eta64) by apply pow2_pos.
  destruct (timing_cases x Hx) as [[sx ->]|(m & e & -> & G)].
  - change (b64_sqrt (S754_zero sx)) with (S754_zero sx).
    split; [reflexivity|]. exists 0, 0. rewrite !Qval_zero. nra.
  - unfold b64_sqrt. cbn [SFsqrt].
    pose proof (sqrt_core_spec m e) as C.
    destruct (SFsqrt_core_binary prec emax (Zpos m) e) as [[q e'] l].
    destruct (C q e' l eq_refl) as (Hq & He & L & U & Ex).
    rewrite Qval_finite in *.
    set (X := inject_Z (Zpos m) * pow2 e) in *.
    set (lo := inject_Z q * pow2 e') in *.
    set (hi := inject_Z (q + 1) * pow2 e') in *.
    assert (Q0 : 0 <= lo).
    { unfold lo. pose proof (pow2_pos e').
      assert (0 <= inject_Z q) by (rewrite <- (Zle_Qle 0); lia). nra. }
    assert (Q1 : lo <= hi).
    { unfold lo, hi. pose proof (pow2_pos e').
      assert (inject_Z q <= inject_Z (q + 1)) by (rewrite <- Zle_Qle; lia).
      nra. }
    pose proof (pow2_ge_1 970 ltac:(lia)) as P970.
    destruct (binary_round_aux_rounds false q e' l Hq)
      as (R & M & Rd); [right; exact He|fold lo; nra|].
    destruct (magnitude_value _ _ _ M) as (VR & _ & T).
    cbn beta iota in VR. split; [apply T; reflexivity|].
    fold lo hi in Rd.
    destruct Rd as [[El ER]|(A & w & HA & HAl & Hh & HR & Hw & W)].
    + exists lo, 0. rewrite VR, ER. specialize (Ex El).
      split; [exact Q0|]. split; [exact L|]. split; [apply Qle_refl|].
      split; [nra|]. split; nra.
    + exists lo, w. rewrite VR.
      split; [exact Q0|]. split; [exact L|]. split; [lra|].
      split; [destruct W as [W|[W _]]; nra|].
      assert (A2 : A * A <= X) by nra.
      assert (B2 : X <= (A + w) * (A + w)) by nra.
      destruct HR as [HR|HR]; rewrite HR; split; nra.
Qed.

(** A count of times, as a number. *)
Lemma b64_of_nat_value n :
  (1 <= n)%nat -> (Z.of_nat n < 2 ^ 53)%Z ->
  timing (b64_of_nat n) = true
  /\ Qval (b64_of_nat n) == inject_Z (Z.of_nat n).
Proof.
  intros H1 H2. unfold b64_of_nat, b64_of_Z, binary_normalize.
  destruct (Z.of_nat n) as [|p|p] eqn:E; try lia.
  unfold binary_round.
  pose proof (digits2_pos_le_53 p H2) as D.
  destruct (shl_align_value p 0 (fexp prec emax (Zpos (digits2_pos p) + 0)))
    as [V S].
  assert (Dz : Zpos (digits2_pos
                       (fst (shl_align p 0
                               (fexp prec emax (Zpos (digits2_pos p) + 0)))))
               = 53%Z).
  { unfold shl_align.
    destruct (fexp prec emax (Zpos (digits2_pos p) + 0) - 0)%Z
      as [|k|k] eqn:K; cbn [fst]; try fexp_lia.
    rewrite digits2_pos_iter_xO. fexp_lia. }
  destruct (shl_align p 0 (fexp prec emax (Zpos (digits2_pos p) + 0)))
    as [mz ez]. cbn [fst snd] in V, S, Dz.
  assert (Ez : (-52 <= ez <= 0)%Z) by (subst ez; fexp_lia).
  destruct (binary_round_aux_steps false (Zpos mz) ez loc_Exact)
    as (mf & ef & -> & _ & _ & _ & [(-> & -> & _)|S']);
    [lia|left; reflexivity| |].
  - assert (L : (ez <=? 971)%Z = true) by (apply Z.leb_le; lia).
    rewrite L. split.
    + unfold timing. cbn [finite_nonneg grounded negb andb].
      apply Z.leb_le. lia.
    + rewrite Qval_finite, V.
      change (pow2 0) with 1. ring.
  - exfalso. destruct S' as (m1 & _ & _ & _ & _ & _ & X).
    specialize (X eq_refl). cbn [Zdigits2] in X. rewrite Dz in X. fexp_lia.
Qed.

End Operations.

(** ** Sums of times in binary64 *)

Section Powers.

Local Open Scope Q_scope.

Lemma inject_nat_succ k :
  inject_Z (Z.of_nat (S k)) == inject_Z (Z.of_nat k) + 1.
Proof.
  rewrite Nat2Z.inj_succ. unfold Z.succ. rewrite inject_Z_plus. reflexivity.
Qed.

Lemma inject_nat_nonneg k : 0 <= inject_Z (Z.of_nat k).
Proof. rewrite <- (Zle_Qle 0). lia. Qed.

Lemma inject_nat_le j k :
  (j <= k)%nat -> inject_Z (Z.of_nat j) <= inject_Z (Z.of_nat k).
Proof. intros H. rewrite <- Zle_Qle. lia. Qed.

Lemma inject_nat_add j k :
  inject_Z (Z.of_nat (j + k))
  == inject_Z (Z.of_nat j) + inject_Z (Z.of_nat k).
Proof. rewrite Nat2Z.inj_add, inject_Z_plus. reflexivity. Qed.

Lemma qpow_nonneg q k : 0 <= q -> 0 <= qpow q k.
Proof.
  intros H. induction k as [|k IH]; cbn [qpow]; [lra|nra].
Qed.

Lemma qpow_mono q j k : 1 <= q -> (j <= k)%nat -> qpow q j <= qpow q k.
Proof.
  intros H L. induction L as [|k L IH]; [apply Qle_refl|].
  cbn [qpow]. pose proof (qpow_nonneg q j ltac:(lra)). nra.
Qed.

Lemma qpow_anti q j k :
  0 <= q -> q <= 1 -> (j <= k)%nat -> qpow q k <= qpow q j.
Proof.
  intros H0 H1 L. induction L as [|k L IH]; [apply Qle_refl|].
  cbn [qpow]. pose proof (qpow_nonneg q k H0). nra.
Qed.

(** [k] roundings upwards cost at most [2 k u], and [k] roundings
    downwards at most [k u]. *)
Lemma qpow_up k :
  inject_Z (Z.of_nat k) * ulp64 <= 1 # 2 ->
  qpow (1 + ulp64) k <= 1 + 2 * (inject_Z (Z.of_nat k) * ulp64).
Proof.
  pose proof ulp64_pos as Pu.
  induction k as [|k IH]; intros H; cbn [qpow].
  - change (inject_Z (Z.of_nat 0)) with 0. lra.
  - rewrite inject_nat_succ in *.
    pose proof (inject_nat_nonneg k) as Pk.
    assert (X : inject_Z (Z.of_nat k) * ulp64 <= 1 # 2) by nra.
    specialize (IH X).
    set (c := inject_Z (Z.of_nat k) * ulp64) in *.
    assert (0 <= c) by (unfold c; nra).
    assert (Y : (1 + ulp64) * qpow (1 + ulp64) k
                <= (1 + ulp64) * (1 + 2 * c))
      by (apply Qmult_le_l; [lra|exact IH]).
    assert (Z : c * ulp64 <= (1 # 2) * ulp64)
      by (apply Qmult_le_r; [exact Pu|exact X]).
    setoid_replace ((inject_Z (Z.of_nat k) + 1) * ulp64)
      with (c + ulp64) by (unfold c; ring).
    nra.
Qed.

Lemma qpow_down k :
  1 - inject_Z (Z.of_nat k) * ulp64 <= qpow (1 - ulp64) k.
Proof.
  pose proof ulp64_pos as Pu. pose proof ulp64_small as Su.
  induction k as [|k IH]; cbn [qpow].
  - change (inject_Z (Z.of_nat 0)) with 0. lra.
  - rewrite inject_nat_succ.
    pose proof (inject_nat_nonneg k) as Pk.
    set (c := inject_Z (Z.of_nat k) * ulp64) in *.
    assert (0 <= c) by (unfold c; nra).
    assert (Y : (1 - ulp64) * (1 - c) <= (1 - ulp64) * qpow (1 - ulp64) k)
      by (apply Qmult_le_l; [lra|exact IH]).
    assert (Z : 0 <= c * ulp64) by nra.
    setoid_replace ((inject_Z (Z.of_nat k) + 1) * ulp64)
      with (c + ulp64) by (unfold c; ring).
    nra.
Qed.

Lemma Qsum_app l1 l2 : Qsum (l1 ++ l2) == Qsum l1 + Qsum l2.
Proof.
  induction l1 as [|q l1 IH]; cbn [Qsum app]; [ring|rewrite IH; ring].
Qed.

Lemma Qsum_split (f : float -> Q) n a :
  Qsum (map f (firstn n a)) + Qsum (map f (skipn n a)) == Qsum (map f a).
Proof.
  rewrite <- Qsum_app, <- map_app, firstn_skipn. reflexivity.
Qed.

Lemma Forall_split (P : float -> Prop) n a :
  Forall P a -> Forall P (firstn n a) /\ Forall P (skipn n a).
Proof.
  intros H. rewrite <- (firstn_skipn n a) in H.
  apply Forall_app in H. exact H.
Qed.

End Powers.

Section Sums.

Local Open Scope Q_scope.

Variable B : Q.
Variable K : nat.
Hypothesis bound_nonneg : 0 <= B.
Hypothesis few_roundings : inject_Z (Z.of_nat K) * ulp64 <= 1 # 2.
Hypothesis no_overflow : 2 * (inject_Z (Z.of_nat K) * B) <= pow2 970.

Lemma qpow_two k : (k <= K)%nat -> qpow (1 + ulp64) k <= 2.
Proof.
  intros H. pose proof ulp64_pos as Pu.
  pose proof (inject_nat_le k K H) as L.
  assert (X : inject_Z (Z.of_nat k) * ulp64 <= 1 # 2) by nra.
  pose proof (qpow_up k X). lra.
Qed.

Lemma sums_eq r S k S' k' :
  sums B r S k -> S == S' -> k = k' -> sums B r S' k'.
Proof.
  intros (T & P & U & L & H) E <-. unfold sums. rewrite <- E. tauto.
Qed.

Lemma sums_weaken r S k k' :
  sums B r S k -> (k <= k')%nat -> sums B r S k'.
Proof.
  intros (T & P & U & L & H) Le. pose proof ulp64_pos as Pu.
  pose proof ulp64_small as Su.
  pose proof (inject_nat_le k k' Le) as I.
  pose proof (qpow_mono (1 + ulp64) k k' ltac:(lra) Le) as M1.
  pose proof (qpow_anti (1 - ulp64) k k' ltac:(lra) ltac:(lra) Le) as M2.
  split; [exact T|]. split; [exact P|]. split; [nra|]. split.
  - apply Qle_trans with (qpow (1 - ulp64) k * S); [|exact L].
    apply Qmult_le_compat_r; assumption.
  - apply Qle_trans with (qpow (1 + ulp64) k * S); [exact H|].
    apply Qmult_le_compat_r; assumption.
Qed.

Lemma sums_leaf x : below B x -> sums B x (Qval x) 1.
Proof.
  intros [T L]. pose proof (timing_nonneg x T) as P.
  pose proof ulp64_pos as Pu.
  split; [exact T|]. split; [exact P|]. cbn [qpow].
  change (inject_Z (Z.of_nat 1)) with 1. repeat split; nra.
Qed.

Lemma sums_zero s : sums B (S754_zero s) 0 0.
Proof.
  split; [destruct s; reflexivity|]. rewrite Qval_zero. cbn [qpow].
  change (inject_Z (Z.of_nat 0)) with 0. repeat split; lra.
Qed.

(** One more addition: the exact sums add, and one rounding more. *)
Lemma sums_add r1 S1 k1 r2 S2 k2 :
  sums B r1 S1 k1 -> sums B r2 S2 k2 -> (k1 + k2 + 1 <= K)%nat ->
  sums B (b64_add r1 r2) (S1 + S2) (k1 + k2 + 1).
Proof.
  intros (T1 & P1 & U1 & L1 & H1) (T2 & P2 & U2 & L2 & H2) Le.
  pose proof ulp64_pos as Pu. pose proof ulp64_small as Su.
  pose proof (qpow_two k1 ltac:(lia)) as Q1.
  pose proof (qpow_two k2 ltac:(lia)) as Q2.
  pose proof (inject_nat_le (k1 + k2) K ltac:(lia)) as I.
  rewrite inject_nat_add in I.
  pose proof (inject_nat_nonneg k1) as N1.
  pose proof (inject_nat_nonneg k2) as N2.
  pose proof (inject_nat_nonneg K) as NK.
  assert (V1 : Qval r1 <= 2 * S1).
  { apply Qle_trans with (qpow (1 + ulp64) k1 * S1); [exact H1|].
    apply Qmult_le_compat_r; assumption. }
  assert (V2 : Qval r2 <= 2 * S2).
  { apply Qle_trans with (qpow (1 + ulp64) k2 * S2); [exact H2|].
    apply Qmult_le_compat_r; assumption. }
  assert (O : Qval r1 + Qval r2 <= pow2 970).
  { apply Qle_trans with (2 * (inject_Z (Z.of_nat K) * B));
      [|exact no_overflow].
    assert ((inject_Z (Z.of_nat k1) + inject_Z (Z.of_nat k2)) * B
            <= inject_Z (Z.of_nat K) * B)
      by (apply Qmult_le_compat_r; assumption).
    lra. }
  destruct (b64_add_spec r1 r2 T1 T2 O) as (T & Lo & Hi).
  replace (k1 + k2 + 1)%nat with (Datatypes.S (k1 + k2)) by lia.
  split; [exact T|]. split; [lra|]. split.
  { rewrite inject_nat_succ, inject_nat_add. nra. }
  cbn [qpow].
  pose proof (qpow_nonneg (1 - ulp64) (k1 + k2) ltac:(lra)) as A0.
  pose proof (qpow_anti (1 - ulp64) k1 (k1 + k2)
                ltac:(lra) ltac:(lra) ltac:(lia)) as A1.
  pose proof (qpow_anti (1 - ulp64) k2 (k1 + k2)
                ltac:(lra) ltac:(lra) ltac:(lia)) as A2.
  pose proof (qpow_mono (1 + ulp64) k1 (k1 + k2)
                ltac:(lra) ltac:(lia)) as B1.
  pose proof (qpow_mono (1 + ulp64) k2 (k1 + k2)
                ltac:(lra) ltac:(lia)) as B2.
  set (a := qpow (1 - ulp64) (k1 + k2)) in *.
  set (b := qpow (1 + ulp64) (k1 + k2)) in *.
  assert (X1 : a * S1 <= Qval r1).
  { apply Qle_trans with (qpow (1 - ulp64) k1 * S1); [|exact L1].
    apply Qmult_le_compat_r; assumption. }
  assert (X2 : a * S2 <= Qval r2).
  { apply Qle_trans with (qpow (1 - ulp64) k2 * S2); [|exact L2].
    apply Qmult_le_compat_r; assumption. }
  assert (Y1 : Qval r1 <= b * S1).
  { apply Qle_trans with (qpow (1 + ulp64) k1 * S1); [exact H1|].
    apply Qmult_le_compat_r; assumption. }
  assert (Y2 : Qval r2 <= b * S2).
  { apply Qle_trans with (qpow (1 + ulp64) k2 * S2); [exact H2|].
    apply Qmult_le_compat_r; assumption. }
  split.
  - apply Qle_trans with ((1 - ulp64) * (Qval r1 + Qval r2)); [|lra].
    setoid_replace ((1 - ulp64) * a * (S1 + S2))
      with ((1 - ulp64) * (a * S1 + a * S2)) by ring.
    apply Qmult_le_l; lra.
  - apply Qle_trans with ((1 + ulp64) * (Qval r1 + Qval r2)); [lra|].
    setoid_replace ((1 + ulp64) * b * (S1 + S2))
      with ((1 + ulp64) * (b * S1 + b * S2)) by ring.
    apply Qmult_le_l; lra.
Qed.

(** The plain loop: one addition and one time more at each step. *)
Lemma sums_fold l : forall acc S k,
  sums B acc S k -> Forall (below B) l ->
  (k + 2 * List.length l <= K)%nat ->
  sums B (fold_left b64_add l acc) (S + Qsum (map Qval l))
       (k + 2 * List.length l).
Proof.
  induction l as [|x l IH]; intros acc S k H F Le; cbn [fold_left].
  - apply (sums_eq _ _ _ _ _ H); cbn [map Qsum List.length]; [ring|lia].
  - cbn [List.length] in Le. inversion F as [|? ? Fx Fl]; subst.
    pose proof (sums_add _ _ _ _ _ _ H (sums_leaf x Fx) ltac:(lia)) as A.
    specialize (IH _ _ _ A Fl ltac:(lia)).
    apply (sums_eq _ _ _ _ _ IH); cbn [map Qsum List.length]; [ring|lia].
Qed.

Lemma sums_all_leaves l :
  Forall (below B) l ->
  sums_all B l (Qsum (map Qval l)) (List.length l).
Proof.
  induction 1 as [|x l Fx Fl IH]; cbn [map Qsum List.length].
  - apply sums_all_nil; reflexivity.
  - eapply sums_all_cons;
      [apply sums_leaf, Fx|exact IH|reflexivity|reflexivity].
Qed.

Lemma sums_all_nil_inv S k : sums_all B [] S k -> S == 0 /\ k = O.
Proof. intros H. inversion H; subst. split; [assumption|reflexivity]. Qed.

Lemma sums_all_cons_inv x l S k :
  sums_all B (x :: l) S k ->
  exists S1 k1 S2 k2,
    sums B x S1 k1 /\ sums_all B l S2 k2
    /\ S == S1 + S2 /\ k = (k1 + k2)%nat.
Proof.
  intros H. inversion H as [|? ? S1 k1 S2 k2 ? ? Hx Hl ES Ek]; subst.
  exists S1, k1, S2, k2. split; [exact Hx|]. split; [exact Hl|].
  split; [exact ES|reflexivity].
Qed.

(** The eight accumulators take eight more times. *)
Lemma sums_add8 r : forall a S k,
  sums_all B r S k -> Forall (below B) a ->
  List.length a = List.length r ->
  (k + 2 * List.length r <= K)%nat ->
  sums_all B (add8 r a) (S + Qsum (map Qval a)) (k + 2 * List.length r)
  /\ List.length (add8 r a) = List.length r.
Proof.
  induction r as [|x r IH]; intros a S k H F L Le.
  - destruct a; [|discriminate L]. cbn [add8 map Qsum List.length].
    apply sums_all_nil_inv in H. destruct H as [E ->].
    split; [|reflexivity]. apply sums_all_nil; [rewrite E; ring|reflexivity].
  - destruct a as [|y a]; [discriminate L|].
    cbn [List.length] in *. injection L as L.
    apply sums_all_cons_inv in H.
    destruct H as (S1 & k1 & S2 & k2 & Hx & Hr & ES & ->).
    inversion F as [|? ? Fy Fa]; subst.
    destruct (IH a S2 k2 Hr Fa L ltac:(lia)) as [IH1 IH2].
    cbn [add8 map Qsum List.length]. split; [|rewrite IH2; reflexivity].
    eapply sums_all_cons;
      [apply (sums_add _ _ _ _ _ _ Hx (sums_leaf y Fy)); lia
      |exact IH1|rewrite ES; ring|lia].
Qed.

Lemma sums_add_blocks b : forall r a S k,
  sums_all B r S k -> List.length r = 8%nat ->
  (8 * b <= List.length a)%nat -> Forall (below B) a ->
  (k + 16 * b <= K)%nat ->
  exists S',
    sums_all B (fst (add_blocks b r a)) S' (k + 16 * b)
    /\ List.length (fst (add_blocks b r a)) = 8%nat
    /\ Forall (below B) (snd (add_blocks b r a))
    /\ List.length (snd (add_blocks b r a)) = (List.length a - 8 * b)%nat
    /\ S' + Qsum (map Qval (snd (add_blocks b r a)))
       == S + Qsum (map Qval a).
Proof.
  induction b as [|b IH]; intros r a S k H Lr La F Le; cbn [add_blocks].
  - exists S. cbn [fst snd].
    split; [replace (k + 16 * 0)%nat with k by lia; exact H|].
    split; [exact Lr|]. split; [exact F|]. split; [lia|reflexivity].
  - destruct (Forall_split (below B) 8 a F) as [F1 F2].
    assert (L1 : List.length (firstn 8 a) = List.length r)
      by (rewrite length_firstn; lia).
    destruct (sums_add8 r (firstn 8 a) S k H F1 L1 ltac:(lia)) as [A1 A2].
    rewrite Lr in A1, A2.
    assert (L2 : (8 * b <= List.length (skipn 8 a))%nat)
      by (rewrite length_skipn; lia).
    destruct (IH _ _ _ _ A1 A2 L2 F2 ltac:(lia))
      as (S' & I1 & I2 & I3 & I4 & I5).
    exists S'. split.
    { replace (k + 16 * Datatypes.S b)%nat with (k + 2 * 8 + 16 * b)%nat
        by lia. exact I1. }
    split; [exact I2|]. split; [exact I3|].
    split; [rewrite I4, length_skipn; lia|].
    rewrite I5, <- (Qsum_split Qval 8 a). ring.
Qed.

Lemma eighths n : (8 <= n)%nat -> (8 * (n / 8 - 1) + 8 <= n)%nat.
Proof.
  intros H. pose proof (Nat.div_mod_eq n 8).
  pose proof (Nat.mod_upper_bound n 8 ltac:(lia)).
  assert (1 <= n / 8)%nat by (apply Nat.div_le_lower_bound; lia). lia.
Qed.

(** The unrolled loop on eight times or more. *)
Lemma sums_block a :
  Forall (below B) a -> (8 <= List.length a)%nat ->
  (2 * List.length a - 1 <= K)%nat ->
  sums B (block_sum a) (Qsum (map Qval a)) (2 * List.length a - 1).
Proof.
  intros F L Le. unfold block_sum.
  pose proof (eighths _ L) as E8.
  set (b := (List.length a / 8 - 1)%nat) in *.
  destruct (Forall_split (below B) 8 a F) as [F1 F2].
  pose proof (sums_all_leaves _ F1) as A.
  assert (L1 : List.length (firstn 8 a) = 8%nat)
    by (rewrite length_firstn; lia).
  rewrite L1 in A.
  assert (L2 : (8 * b <= List.length (skipn 8 a))%nat)
    by (rewrite length_skipn; lia).
  destruct (sums_add_blocks b _ _ _ _ A L1 L2 F2 ltac:(lia))
    as (S' & I1 & I2 & I3 & I4 & I5).
  rewrite length_skipn in I4.
  rewrite (Qsum_split Qval 8 a) in I5.
  destruct (add_blocks b (firstn 8 a) (skipn 8 a)) as [r rest].
  cbn [fst snd] in *.
  destruct r as [|r0 [|r1 [|r2 [|r3 [|r4 [|r5 [|r6 [|r7 [|r8 r]]]]]]]]];
    try discriminate I2.
  apply sums_all_cons_inv in I1.
  destruct I1 as (S0 & k0 & T0 & j0 & H0 & I1 & E0 & N0).
  apply sums_all_cons_inv in I1.
  destruct I1 as (S1 & k1 & T1 & j1 & H1 & I1 & E1 & N1).
  apply sums_all_cons_inv in I1.
  destruct I1 as (S2 & k2 & T2 & j2 & H2 & I1 & E2 & N2).
  apply sums_all_cons_inv in I1.
  destruct I1 as (S3 & k3 & T3 & j3 & H3 & I1 & E3 & N3).
  apply sums_all_cons_inv in I1.
  destruct I1 as (S4 & k4 & T4 & j4 & H4 & I1 & E4 & N4).
  apply sums_all_cons_inv in I1.
  destruct I1 as (S5 & k5 & T5 & j5 & H5 & I1 & E5 & N5).
  apply sums_all_cons_inv in I1.
  destruct I1 as (S6 & k6 & T6 & j6 & H6 & I1 & E6 & N6).
  apply sums_all_cons_inv in I1.
  destruct I1 as (S7 & k7 & T7 & j7 & H7 & I1 & E7 & N7).
  apply sums_all_nil_inv in I1. destruct I1 as [E8' N8].
  pose proof (sums_add _ _ _ _ _ _ H0 H1 ltac:(lia)) as A01.
  pose proof (sums_add _ _ _ _ _ _ H2 H3 ltac:(lia)) as A23.
  pose proof (sums_add _ _ _ _ _ _ H4 H5 ltac:(lia)) as A45.
  pose proof (sums_add _ _ _ _ _ _ H6 H7 ltac:(lia)) as A67.
  pose proof (sums_add _ _ _ _ _ _ A01 A23 ltac:(lia)) as A03.
  pose proof (sums_add _ _ _ _ _ _ A45 A67 ltac:(lia)) as A47.
  pose proof (sums_add _ _ _ _ _ _ A03 A47 ltac:(lia)) as A07.
  pose proof (sums_fold rest _ _ _ A07 I3 ltac:(lia)) as R.
  apply (sums_eq _ _ _ _ _ R); [lra|lia].
Qed.

Lemma halves n :
  (128 < n)%nat ->
  (8 <= n / 2 - (n / 2) mod 8 /\ n / 2 - (n / 2) mod 8 + 8 <= n)%nat.
Proof.
  intros H. pose proof (Nat.div_mod_eq n 2).
  pose proof (Nat.mod_upper_bound n 2 ltac:(lia)).
  pose proof (Nat.mod_upper_bound (n / 2) 8 ltac:(lia)). lia.
Qed.

(** numpy's pairwise sum: two roundings a time in the plain loop, one
    less from eight times on. *)
Lemma sums_pairwise fuel : forall a,
  Forall (below B) a -> (2 * List.length a <= K)%nat ->
  (List.length a < 8 ->
   sums B (pairwise_sum fuel a) (Qsum (map Qval a)) (2 * List.length a))%nat
  /\ (8 <= List.length a ->
      sums B (pairwise_sum fuel a) (Qsum (map Qval a))
           (2 * List.length a - 1))%nat.
Proof.
  induction fuel as [|fuel IH]; intros a F Le; cbn [pairwise_sum].
  - destruct (Nat.ltb_spec (List.length a) 8) as [L8|L8].
    + split; [intros _|lia].
      apply (sums_eq _ _ _ _ _
               (sums_fold a _ _ _ (sums_zero true) F ltac:(lia)));
        [ring|lia].
    + split; [lia|intros _].
      destruct (Nat.leb_spec (List.length a) 128);
        apply sums_block; assumption || lia.
  - destruct (Nat.ltb_spec (List.length a) 8) as [L8|L8].
    + split; [intros _|lia].
      apply (sums_eq _ _ _ _ _
               (sums_fold a _ _ _ (sums_zero true) F ltac:(lia)));
        [ring|lia].
    + split; [lia|intros _].
      destruct (Nat.leb_spec (List.length a) 128) as [L128|L128];
        [apply sums_block; assumption || lia|].
      destruct (halves _ L128) as [G1 G2].
      set (n2 := (List.length a / 2 - (List.length a / 2) mod 8)%nat) in *.
      destruct (Forall_split (below B) n2 a F) as [F1 F2].
      assert (L1 : List.length (firstn n2 a) = n2)
        by (rewrite length_firstn; lia).
      assert (L2 : List.length (skipn n2 a) = (List.length a - n2)%nat)
        by (rewrite length_skipn; lia).
      destruct (IH _ F1 ltac:(lia)) as [_ I1].
      destruct (IH _ F2 ltac:(lia)) as [_ I2].
      specialize (I1 ltac:(lia)). specialize (I2 ltac:(lia)).
      pose proof (sums_add _ _ _ _ _ _ I1 I2 ltac:(lia)) as A.
      apply (sums_eq _ _ _ _ _ A);
        [apply Qsum_split|lia].
Qed.

(** [np.add.reduce] of [n] times: at most [2 n + 1] roundings. *)
Lemma sums_np_sum a :
  Forall (below B) a -> (2 * List.length a + 1 <= K)%nat ->
  sums B (np_sum a) (Qsum (map Qval a)) (2 * List.length a + 1).
Proof.
  intros F Le. unfold np_sum.
  destruct (sums_pairwise (List.length a) a F ltac:(lia)) as [P1 P2].
  assert (P : sums B (pairwise_sum (List.length a) a) (Qsum (map Qval a))
                   (2 * List.length a)).
  { destruct (Nat.ltb_spec (List.length a) 8) as [L8|L8];
      [apply P1, L8|].
    apply sums_weaken with (k := (2 * List.length a - 1)%nat);
      [apply P2, L8|lia]. }
  pose proof (sums_add _ _ _ _ _ _ (sums_zero false) P ltac:(lia)) as A.
  apply (sums_eq _ _ _ _ _ A); [ring|lia].
Qed.

(** What a sum is worth: the exact sum, to [2 K u] of it. *)
Lemma sums_value r S k :
  sums B r S k -> (k <= K)%nat ->
  timing r = true
  /\ S - 2 * (inject_Z (Z.of_nat K) * ulp64) * S <= Qval r
  /\ Qval r <= S + 2 * (inject_Z (Z.of_nat K) * ulp64) * S.
Proof.
  intros (T & P & U & L & H) Le. pose proof ulp64_pos as Pu.
  pose proof (inject_nat_le k K Le) as I.
  pose proof (inject_nat_nonneg k) as Nk.
  assert (X : inject_Z (Z.of_nat k) * ulp64 <= 1 # 2) by nra.
  pose proof (qpow_up k X) as Up. pose proof (qpow_down k) as Dn.
  assert (C : inject_Z (Z.of_nat k) * ulp64
              <= inject_Z (Z.of_nat K) * ulp64)
    by (apply Qmult_le_compat_r; [exact I|lra]).
  split; [exact T|]. split.
  - apply Qle_trans with (qpow (1 - ulp64) k * S); [|exact L].
    apply Qle_trans with ((1 - inject_Z (Z.of_nat k) * ulp64) * S);
      [|apply Qmult_le_compat_r; assumption].
    assert (inject_Z (Z.of_nat k) * ulp64 * S
            <= inject_Z (Z.of_nat K) * ulp64 * S)
      by (apply Qmult_le_compat_r; assumption).
    assert (0 <= inject_Z (Z.of_nat k) * ulp64 * S)
      by (apply Qmult_le_0_compat; [nra|exact P]).
    set (a := inject_Z (Z.of_nat k) * ulp64 * S) in *.
    set (b := inject_Z (Z.of_nat K) * ulp64 * S) in *.
    setoid_replace (2 * (inject_Z (Z.of_nat K) * ulp64) * S)
      with (2 * b) by (unfold b; ring).
    setoid_replace ((1 - inject_Z (Z.of_nat k) * ulp64) * S)
      with (S - a) by (unfold a; ring).
    lra.
  - apply Qle_trans with (qpow (1 + ulp64) k * S); [exact H|].
    apply Qle_trans
      with ((1 + 2 * (inject_Z (Z.of_nat k) * ulp64)) * S);
      [apply Qmult_le_compat_r; assumption|].
    assert (inject_Z (Z.of_nat k) * ulp64 * S
            <= inject_Z (Z.of_nat K) * ulp64 * S)
      by (apply Qmult_le_compat_r; assumption).
    assert (0 <= inject_Z (Z.of_nat k) * ulp64 * S)
      by (apply Qmult_le_0_compat; [nra|exact P]).
    set (a := inject_Z (Z.of_nat k) * ulp64 * S) in *.
    set (b := inject_Z (Z.of_nat K) * ulp64 * S) in *.
    setoid_replace (2 * (inject_Z (Z.of_nat K) * ulp64) * S)
      with (2 * b) by (unfold b; ring).
    setoid_replace ((1 + 2 * (inject_Z (Z.of_nat k) * ulp64)) * S)
      with (S + 2 * a) by (unfold a; ring).
    lra.
Qed.

End Sums.

(** ** What [calculate_statistics] returns *)

Lemma calculate_statistics_returns :
  forall t ts,
    calculate_statistics (t :: ts) = Return (statistics (t :: ts)).
Proof. reflexivity. Qed.

Lemma calculate_statistics_nonempty :
  forall ts, nonempty ts = true ->
    calculate_statistics ts = Return (statistics ts).
Proof. intros [|t ts] H; [discriminate|reflexivity]. Qed.

Lemma calculate_statistics_empty :
  calculate_statistics [] = Raise ValueError.
Proof. reflexivity. Qed.

Lemma np_std_is_population :
  forall ts, np_std 0 ts = population_std ts.
Proof.
  intros ts. unfold np_std, np_var, population_std, sum_squared_deviations.
  rewrite map_map, Nat.sub_0_r. reflexivity.
Qed.

(** The two conventions differ on the example: about 0.0070 with
    divisor [N], about 0.0099 with [N - 1]; the code returns the
    first, and would return the second with [ddof=1]. *)
Lemma population_is_not_sample_on_example :
  within (population_std example_times) (7 # 1000) (1 # 10000) = true
  /\ within (sample_std example_times) (99 # 10000) (1 # 10000) = true
  /\ np_std 0 example_times <> sample_std example_times
  /\ np_std 1 example_times = sample_std example_times.
Proof.
  repeat split; try (vm_compute; reflexivity).
  vm_compute. discriminate.
Qed.

(** ** Order of the statistics *)

(** The statistics of three times [0.1]: rounding puts the mean one
    unit in the last place above the maximum, and leaves a standard
    deviation of about 1.4e-17. *)
Lemma statistics_of_three_tenths :
  calculate_statistics [tenth; tenth; tenth]
  = Return (mkStats (Prim2SF 0.10000000000000002%float)
                    (Prim2SF 1.3877787807814457e-17%float)
                    tenth tenth 3).
Proof. vm_compute. reflexivity. Qed.

(** Against C6 as stated: on the constant list of three times [0.1]
    the mean is above the maximum and the standard deviation is not
    zero. *)
Lemma constant_times_counterexample :
  ~ ordered_statistics [tenth; tenth; tenth].
Proof.
  intros H. destruct (H _ statistics_of_three_tenths) as (_ & Hmax & _ & _).
  vm_compute in Hmax. discriminate.
Qed.

Lemma constant_times_std_not_zero :
  exists stats,
    calculate_statistics [tenth; tenth; tenth] = Return stats
    /\ constant [tenth; tenth; tenth]
    /\ b64_eqb (std stats) pos_zero = false
    /\ b64_leb (mean stats) (max stats) = false.
Proof.
  eexists. split; [apply statistics_of_three_tenths|].
  split; [|split; vm_compute; reflexivity].
  intros x y Hx Hy. simpl in Hx, Hy.
  repeat match goal with H : _ \/ _ |- _ => destruct H end;
    try contradiction; congruence.
Qed.

(** C6, amended.  For every non-empty list of finite, non-negative
    times (fewer than 2^53 of them), [calculate_statistics] returns a
    record whose [min] and [max] are times of the list with
    [min <= max], whose [mean] and [std] are at least zero, and whose
    [count] is the length. *)
Theorem statistics_of_finite_times :
  forall ts : list float,
    ts <> [] ->
    (Z.of_nat (List.length ts) < 2 ^ 53)%Z ->
    Forall (fun t => finite_nonneg t = true) ts ->
    exists stats,
      calculate_statistics ts = Return stats
      /\ count stats = List.length ts
      /\ In (min stats) ts /\ In (max stats) ts
      /\ b64_leb (min stats) (max stats) = true
      /\ b64_leb pos_zero (mean stats) = true
      /\ b64_leb pos_zero (std stats) = true.
Proof.
  intros ts Hne Hlen Hts.
  assert (Hc : countable (List.length ts)).
  { split; [|exact Hlen]. destruct ts; [contradiction|simpl; lia]. }
  pose proof (np_mean_nonneg ts Hc Hts) as Hmean.
  pose proof (np_std_nonneg ts Hc Hts) as Hstd.
  destruct ts as [|t ts]; [contradiction|].
  eexists. split; [apply calculate_statistics_returns|]. cbn [count min max mean std].
  split; [reflexivity|].
  split; [apply fold_minimum_in|]. split; [apply fold_maximum_in|].
  inversion Hts; subst.
  split; [|split; apply nonneg_leb_zero; assumption].
  apply fold_min_le_max; auto using finite_nonneg_notnan, b64_leb_refl.
  eapply Forall_impl; [|eassumption]. apply finite_nonneg_notnan.
Qed.

Lemma statistics_of_finite_times_witness :
  exists stats,
    calculate_statistics [tenth; tenth; tenth] = Return stats
    /\ count stats = 3
    /\ In (min stats) [tenth; tenth; tenth]
    /\ In (max stats) [tenth; tenth; tenth]
    /\ b64_leb (min stats) (max stats) = true
    /\ b64_leb pos_zero (mean stats) = true
    /\ b64_leb pos_zero (std stats) = true.
Proof.
  apply (statistics_of_finite_times [tenth; tenth; tenth]).
  - discriminate.
  - vm_compute. reflexivity.
  - repeat constructor.
Defined.

(** ** The error of the variance *)

Section Budget.

Local Open Scope Q_scope.

Lemma ulp64_value : ulp64 == 1 # 4503599627370496.
Proof. reflexivity. Qed.

Lemma pow2_47 : pow2 (-47) == 32 * ulp64.
Proof. reflexivity. Qed.

Lemma eta64_le_ulp : eta64 <= ulp64 * pow2 (-500).
Proof. vm_compute. discriminate. Qed.

Lemma eta64_le_ulp_square : eta64 <= ulp64 * (pow2 (-500) * pow2 (-500)).
Proof. vm_compute. discriminate. Qed.

Lemma no_overflow_times : 33554432 * pow2 400 <= pow2 970.
Proof. vm_compute. discriminate. Qed.

Lemma no_overflow_squares : 33554432 * (pow2 400 * pow2 400) <= pow2 970.
Proof. vm_compute. discriminate. Qed.

Lemma square_le a b : 0 <= a -> a <= b -> a * a <= b * b.
Proof. intros. nra. Qed.

(** The mean: the sum is off by [e1] of itself, the division rounds
    once. *)
Lemma mean_budget S sum1 nq mean M e1 u eta :
  0 <= S -> S <= nq * M -> 1 <= nq -> 0 <= M ->
  0 <= e1 -> e1 <= 1 -> 0 <= u -> u <= 1 -> 0 <= eta -> eta <= u * M ->
  S - e1 * S <= sum1 -> sum1 <= S + e1 * S ->
  sum1 / nq - (u * (sum1 / nq) + eta) <= mean ->
  mean <= sum1 / nq + (u * (sum1 / nq) + eta) ->
  0 <= S / nq /\ S / nq <= M
  /\ S / nq - (e1 + 3 * u) * M <= mean
  /\ mean <= S / nq + (e1 + 3 * u) * M.
Proof.
  intros HS HSn Hn HM He0 He1 Hu0 Hu1 Hh0 Hh1 L1 U1 L2 U2.
  set (mu := S / nq) in *. set (sg := sum1 / nq) in *.
  assert (Emu : mu * nq == S) by (unfold mu; field; lra).
  assert (P0 : 0 <= mu) by (apply Qle_shift_div_l; lra).
  assert (P1 : mu <= M) by (apply Qle_shift_div_r; lra).
  assert (L3 : mu - e1 * mu <= sg).
  { apply Qle_shift_div_l; [lra|].
    setoid_replace ((mu - e1 * mu) * nq) with (mu * nq - e1 * (mu * nq))
      by ring.
    rewrite Emu. exact L1. }
  assert (U3 : sg <= mu + e1 * mu).
  { apply Qle_shift_div_r; [lra|].
    setoid_replace ((mu + e1 * mu) * nq) with (mu * nq + e1 * (mu * nq))
      by ring.
    rewrite Emu. exact U1. }
  assert (X1 : e1 * mu <= e1 * M) by nra.
  assert (X2 : 0 <= e1 * mu) by nra.
  assert (X3 : e1 * M <= M) by nra.
  assert (X9 : e1 * mu <= mu) by nra.
  assert (X4 : 0 <= sg) by lra.
  assert (X5 : sg <= 2 * M) by lra.
  assert (X6 : u * sg <= u * (2 * M)) by nra.
  assert (X7 : 0 <= u * sg) by nra.
  repeat split; lra.
Qed.

(** One deviation from the mean. *)
Lemma deviation_budget t mu m d M em u :
  0 <= t -> t <= M -> 0 <= mu -> mu <= M -> 0 <= m ->
  0 <= em -> em <= M -> 0 <= u ->
  mu - em <= m -> m <= mu + em ->
  (t - m) - u * Qabs (t - m) <= d -> d <= (t - m) + u * Qabs (t - m) ->
  (t - mu) - (em + 2 * u * M) <= d /\ d <= (t - mu) + (em + 2 * u * M).
Proof.
  intros Ht0 Ht1 Hm0 Hm1 Hm He0 He1 Hu L1 U1 L2 U2.
  assert (A : Qabs (t - m) <= 2 * M)
    by (apply Qabs_Qle_condition; split; lra).
  pose proof (Qabs_nonneg (t - m)) as A0.
  assert (X : u * Qabs (t - m) <= u * (2 * M)) by nra.
  split; lra.
Qed.

(** The square of a deviation. *)
Lemma square_budget dl d q M ed u eta :
  - M <= dl -> dl <= M -> 0 <= M -> 0 <= ed -> ed <= M ->
  0 <= u -> u <= 1 -> 0 <= eta -> eta <= u * (M * M) ->
  dl - ed <= d -> d <= dl + ed ->
  d * d - (u * (d * d) + eta) <= q -> q <= d * d + (u * (d * d) + eta) ->
  d * d <= 4 * (M * M)
  /\ dl * dl - (3 * M * ed + 5 * u * (M * M)) <= q
  /\ q <= dl * dl + (3 * M * ed + 5 * u * (M * M)).
Proof.
  intros Hd0 Hd1 HM He0 He1 Hu0 Hu1 Hh0 Hh1 L1 U1 L2 U2.
  assert (D4 : d * d <= 4 * (M * M)) by nra.
  assert (D0 : 0 <= d * d) by nra.
  assert (X : u * (d * d) <= u * (4 * (M * M))) by nra.
  assert (Y1 : d * d - dl * dl <= 3 * M * ed) by nra.
  assert (Y2 : dl * dl - d * d <= 3 * M * ed) by nra.
  split; [exact D4|]. split; lra.
Qed.

(** The variance: the second sum and the second division. *)
Lemma variance_budget D Sq sum2 nq var M e1 eq u eta :
  0 <= D -> D <= nq * (M * M) -> 1 <= nq -> 0 <= M ->
  0 <= e1 -> e1 <= 1 -> 0 <= u -> u <= 1 ->
  0 <= eta -> eta <= u * (M * M) ->
  0 <= eq -> eq <= M * M -> 0 <= Sq ->
  D - nq * eq <= Sq -> Sq <= D + nq * eq ->
  Sq - e1 * Sq <= sum2 -> sum2 <= Sq + e1 * Sq ->
  sum2 / nq - (u * (sum2 / nq) + eta) <= var ->
  var <= sum2 / nq + (u * (sum2 / nq) + eta) ->
  0 <= D / nq /\ D / nq <= M * M
  /\ sum2 / nq <= 4 * (M * M)
  /\ D / nq - (eq + 2 * e1 * (M * M) + 5 * u * (M * M)) <= var
  /\ var <= D / nq + (eq + 2 * e1 * (M * M) + 5 * u * (M * M)).
Proof.
  intros HD0 HD1 Hn HM He0 He1 Hu0 Hu1 Hh0 Hh1 Hq0 Hq1 HS L1 U1 L2 U2 L3 U3.
  set (V := D / nq) in *. set (sg := sum2 / nq) in *.
  set (M2 := M * M) in *.
  assert (PM : 0 <= M2) by (unfold M2; nra).
  assert (EV : V * nq == D) by (unfold V; field; lra).
  assert (Esg : sg * nq == sum2) by (unfold sg; field; lra).
  assert (V0 : 0 <= V) by (apply Qle_shift_div_l; lra).
  assert (V1 : V <= M2) by (apply Qle_shift_div_r; lra).
  set (w := Sq / nq).
  assert (Ew : w * nq == Sq) by (unfold w; field; lra).
  assert (W0 : 0 <= w) by (apply Qle_shift_div_l; lra).
  assert (W1 : V - eq <= w).
  { apply Qle_shift_div_l; [lra|].
    setoid_replace ((V - eq) * nq) with (V * nq - nq * eq) by ring.
    rewrite EV. exact L1. }
  assert (W2 : w <= V + eq).
  { apply Qle_shift_div_r; [lra|].
    setoid_replace ((V + eq) * nq) with (V * nq + nq * eq) by ring.
    rewrite EV. exact U1. }
  assert (G1 : w - e1 * w <= sg).
  { apply Qle_shift_div_l; [lra|].
    setoid_replace ((w - e1 * w) * nq) with (w * nq - e1 * (w * nq)) by ring.
    rewrite Ew. exact L2. }
  assert (G2 : sg <= w + e1 * w).
  { apply Qle_shift_div_r; [lra|].
    setoid_replace ((w + e1 * w) * nq) with (w * nq + e1 * (w * nq)) by ring.
    rewrite Ew. exact U2. }
  assert (X1 : w <= 2 * M2) by lra.
  assert (X2 : e1 * w <= e1 * (2 * M2)) by nra.
  assert (X3 : 0 <= e1 * w) by nra.
  assert (X4 : e1 * M2 <= M2) by nra.
  assert (X9 : e1 * w <= w) by nra.
  assert (X5 : sg <= 4 * M2) by lra.
  assert (X6 : 0 <= sg) by lra.
  assert (X7 : u * sg <= u * (4 * M2)) by nra.
  assert (X8 : 0 <= u * sg) by nra.
  repeat split; lra.
Qed.

(** The square root. *)
Lemma sqrt_budget var lo w R2 M u eta :
  0 <= M -> 0 <= var -> var <= 2 * (M * M) ->
  0 <= lo -> lo * lo <= var -> 0 <= w -> w <= u * lo + eta ->
  0 <= u -> u <= 1 # 1000 -> 0 <= eta -> eta <= u * M ->
  var - w * (2 * lo + w) <= R2 -> R2 <= var + w * (2 * lo + w) ->
  var - 15 * u * (M * M) <= R2 /\ R2 <= var + 15 * u * (M * M).
Proof.
  intros HM Hv0 Hv1 Hl0 Hl1 Hw0 Hw1 Hu0 Hu1 Hh0 Hh1 L U.
  assert (A : lo <= 2 * M).
  { destruct (Qlt_le_dec (2 * M) lo) as [G|G]; [exfalso|exact G]. nra. }
  assert (B : u * lo <= u * (2 * M)) by nra.
  assert (C : w <= 3 * (u * M)) by lra.
  assert (C0 : 0 <= u * M) by nra.
  assert (D : 2 * lo + w <= 5 * M) by nra.
  assert (E : w * (2 * lo + w) <= 3 * (u * M) * (5 * M)) by nra.
  setoid_replace (15 * u * (M * M)) with (3 * (u * M) * (5 * M)) by ring.
  split; lra.
Qed.

(** Nearer to the variance with divisor [N] than to the one with
    divisor [N - 1]. *)
Lemma nearer_budget D nq R2 tol :
  2 <= nq -> 0 <= tol ->
  D / nq - tol <= R2 -> R2 <= D / nq + tol ->
  2 * (nq - 1) * tol < D / nq ->
  Qabs (R2 - D / nq) < Qabs (R2 - D / (nq - 1)).
Proof.
  intros Hn Ht L U G.
  set (V := D / nq) in *. set (Vs := D / (nq - 1)).
  assert (EV : V * nq == D) by (unfold V; field; lra).
  assert (Es : Vs * (nq - 1) == D) by (unfold Vs; field; lra).
  assert (X : V + 2 * tol < Vs).
  { apply Qlt_shift_div_l; [lra|]. rewrite <- EV.
    setoid_replace ((V + 2 * tol) * (nq - 1))
      with (V * nq - V + 2 * (nq - 1) * tol) by ring.
    lra. }
  assert (A : Qabs (R2 - V) <= tol)
    by (apply Qabs_Qle_condition; split; lra).
  apply Qle_lt_trans with tol; [exact A|].
  rewrite (Qabs_neg (R2 - Vs)) by lra. lra.
Qed.

End Budget.

Section Variance.

Local Open Scope Q_scope.

Lemma count_bounds n :
  (1 <= n)%nat -> (Z.of_nat n <= 2 ^ 20)%Z ->
  1 <= inject_Z (Z.of_nat n) /\ inject_Z (Z.of_nat n) <= 1048576.
Proof.
  intros H1 H2. split.
  - change 1 with (inject_Z 1). rewrite <- Zle_Qle. lia.
  - change 1048576 with (inject_Z (2 ^ 20)). rewrite <- Zle_Qle. exact H2.
Qed.

Lemma roundings_value n :
  inject_Z (Z.of_nat (2 * n + 1)) == 2 * inject_Z (Z.of_nat n) + 1.
Proof.
  rewrite Nat2Z.inj_add, Nat2Z.inj_mul, inject_Z_plus, inject_Z_mult.
  reflexivity.
Qed.

Lemma sum_error_value n :
  sum_error n == (4 * inject_Z (Z.of_nat n) + 2) * ulp64.
Proof. unfold sum_error. rewrite roundings_value. ring. Qed.

Lemma sum_error_small n :
  (1 <= n)%nat -> (Z.of_nat n <= 2 ^ 20)%Z ->
  0 <= sum_error n /\ sum_error n <= 1 # 1000
  /\ inject_Z (Z.of_nat (2 * n + 1)) * ulp64 <= 1 # 2.
Proof.
  intros H1 H2. destruct (count_bounds n H1 H2) as [N1 N2].
  pose proof ulp64_pos as Pu. pose proof ulp64_value as Vu.
  unfold sum_error. rewrite roundings_value.
  set (nq := inject_Z (Z.of_nat n)) in *.
  assert (X : (2 * nq + 1) * ulp64 <= 2097153 * ulp64)
    by (apply Qmult_le_compat_r; lra).
  assert (Y : 0 <= (2 * nq + 1) * ulp64)
    by (apply Qmult_le_0_compat; lra).
  repeat split; lra.
Qed.

(** numpy's sum of at most [2 ^ 20] times that are at most [B]. *)
Lemma np_sum_value B a :
  0 <= B -> 16777216 * B <= pow2 970 ->
  (1 <= List.length a)%nat -> (Z.of_nat (List.length a) <= 2 ^ 20)%Z ->
  Forall (below B) a ->
  timing (np_sum a) = true
  /\ Qsum (map Qval a) - sum_error (List.length a) * Qsum (map Qval a)
     <= Qval (np_sum a)
  /\ Qval (np_sum a)
     <= Qsum (map Qval a) + sum_error (List.length a) * Qsum (map Qval a).
Proof.
  intros HB HO H1 H2 F.
  destruct (count_bounds _ H1 H2) as [N1 N2].
  destruct (sum_error_small _ H1 H2) as (_ & _ & Few).
  assert (O : 2 * (inject_Z (Z.of_nat (2 * List.length a + 1)) * B)
              <= pow2 970).
  { rewrite roundings_value.
    apply Qle_trans with (16777216 * B); [|exact HO].
    setoid_replace (2 * ((2 * inject_Z (Z.of_nat (List.length a)) + 1) * B))
      with ((4 * inject_Z (Z.of_nat (List.length a)) + 2) * B) by ring.
    apply Qmult_le_compat_r; lra. }
  pose proof (sums_np_sum B (2 * List.length a + 1) HB Few O a F
                (Nat.le_refl _)) as SS.
  exact (sums_value B _ Few _ _ _ SS (Nat.le_refl _)).
Qed.

Lemma below_sum M l :
  Forall (below M) l ->
  0 <= Qsum (map Qval l)
  /\ Qsum (map Qval l) <= inject_Z (Z.of_nat (List.length l)) * M.
Proof.
  induction 1 as [|x l [T L] F IH]; cbn [map Qsum List.length].
  - change (inject_Z (Z.of_nat 0)) with 0. lra.
  - rewrite inject_nat_succ. pose proof (timing_nonneg x T). lra.
Qed.

Lemma M_facts M :
  pow2 (-500) <= M -> M <= pow2 400 ->
  0 < M /\ M * M <= pow2 400 * pow2 400
  /\ eta64 <= ulp64 * M /\ eta64 <= ulp64 * (M * M).
Proof.
  intros M_lower M_upper.
  pose proof (pow2_pos (-500)) as P5. pose proof (pow2_pos 400) as P4.
  pose proof ulp64_pos as Pu.
  pose proof eta64_le_ulp as E1. pose proof eta64_le_ulp_square as E2.
  assert (S1 : pow2 (-500) * pow2 (-500) <= M * M)
    by (apply square_le; lra).
  assert (S2 : M * M <= pow2 400 * pow2 400) by (apply square_le; lra).
  split; [lra|]. split; [exact S2|]. split.
  - apply Qle_trans with (ulp64 * pow2 (-500)); [exact E1|].
    apply Qmult_le_l; lra.
  - apply Qle_trans with (ulp64 * (pow2 (-500) * pow2 (-500)));
      [exact E2|].
    apply Qmult_le_l; lra.
Qed.

Section Deviations.

Variables (M mu e1 : Q) (mean : float).
Hypothesis M_lower : pow2 (-500) <= M.
Hypothesis M_upper : M <= pow2 400.
Hypothesis mu_lower : 0 <= mu.
Hypothesis mu_upper : mu <= M.
Hypothesis e1_lower : 0 <= e1.
Hypothesis e1_upper : e1 <= 1 # 1000.
Hypothesis mean_timing : timing mean = true.
Hypothesis mean_lower : mu - (e1 + 3 * ulp64) * M <= Qval mean.
Hypothesis mean_upper : Qval mean <= mu + (e1 + 3 * ulp64) * M.

(** One squared deviation, as numpy computes it. *)
Lemma squared_deviation t :
  below M t ->
  below (2 * (M * M)) (b64_mul (b64_sub t mean) (b64_sub t mean))
  /\ (Qval t - mu) * (Qval t - mu) - (3 * e1 + 20 * ulp64) * (M * M)
     <= Qval (b64_mul (b64_sub t mean) (b64_sub t mean))
  /\ Qval (b64_mul (b64_sub t mean) (b64_sub t mean))
     <= (Qval t - mu) * (Qval t - mu) + (3 * e1 + 20 * ulp64) * (M * M)
  /\ 0 <= (Qval t - mu) * (Qval t - mu)
  /\ (Qval t - mu) * (Qval t - mu) <= M * M.
Proof.
  intros [T L].
  destruct (M_facts M M_lower M_upper) as (PM & SM & H1 & H2).
  pose proof ulp64_pos as Pu. pose proof ulp64_small as Su.
  pose proof (pow2_pos 400) as P4.
  pose proof no_overflow_times as O1. pose proof no_overflow_squares as O2.
  pose proof (timing_nonneg t T) as T0.
  pose proof (timing_nonneg mean mean_timing) as M0.
  set (em := (e1 + 3 * ulp64) * M) in *.
  assert (Em0 : 0 <= em) by (unfold em; apply Qmult_le_0_compat; lra).
  assert (Em1 : em <= (1 # 100) * M)
    by (unfold em; apply Qmult_le_compat_r; lra).
  destruct (b64_sub_spec t mean T mean_timing ltac:(lra) ltac:(lra))
    as (G & Ls & Us).
  set (d := Qval (b64_sub t mean)) in *.
  destruct (deviation_budget (Qval t) mu (Qval mean) d M em ulp64
              T0 L mu_lower mu_upper M0 Em0 ltac:(lra) ltac:(lra)
              mean_lower mean_upper Ls Us) as [Ld Ud].
  set (ed := em + 2 * ulp64 * M) in *.
  assert (Ed0 : 0 <= ed) by (unfold ed; nra).
  assert (Ed1 : ed <= M) by (unfold ed; nra).
  set (dl := Qval t - mu) in *.
  assert (Dl0 : - M <= dl) by (unfold dl; lra).
  assert (Dl1 : dl <= M) by (unfold dl; lra).
  assert (Da : - (2 * M) <= d) by lra.
  assert (Db : d <= 2 * M) by lra.
  assert (D4 : d * d <= 4 * (M * M)) by nra.
  destruct (b64_square_spec (b64_sub t mean) G) as (Tq & Lq & Uq);
    [fold d; lra|].
  fold d in Lq, Uq.
  destruct (square_budget dl d _ M ed ulp64 eta64
              Dl0 Dl1 ltac:(lra)
              Ed0 Ed1 ltac:(lra) ltac:(lra)
              ltac:(apply Qlt_le_weak, pow2_pos) H2 Ld Ud Lq Uq)
    as (_ & Lb & Ub).
  assert (EQ : 3 * M * ed + 5 * ulp64 * (M * M)
               == (3 * e1 + 20 * ulp64) * (M * M))
    by (unfold ed, em; ring).
  rewrite EQ in Lb, Ub.
  assert (S0 : 0 <= dl * dl) by nra.
  assert (S1 : dl * dl <= M * M) by nra.
  assert (Q1 : (3 * e1 + 20 * ulp64) * (M * M) <= M * M).
  { setoid_replace (M * M) with (1 * (M * M)) at 2 by ring.
    apply Qmult_le_compat_r; nra. }
  split; [split; [exact Tq|lra]|].
  split; [exact Lb|]. split; [exact Ub|]. split; assumption.
Qed.

(** All of them: the squares numpy sums, and the exact squares. *)
Lemma squared_deviations l :
  Forall (below M) l ->
  Forall (below (2 * (M * M)))
         (map (fun t => b64_mul (b64_sub t mean) (b64_sub t mean)) l)
  /\ Qsum (map (fun t => (Qval t - mu) * (Qval t - mu)) l)
     - inject_Z (Z.of_nat (List.length l))
       * ((3 * e1 + 20 * ulp64) * (M * M))
     <= Qsum (map Qval
                (map (fun t => b64_mul (b64_sub t mean) (b64_sub t mean))
                     l))
  /\ Qsum (map Qval
             (map (fun t => b64_mul (b64_sub t mean) (b64_sub t mean)) l))
     <= Qsum (map (fun t => (Qval t - mu) * (Qval t - mu)) l)
        + inject_Z (Z.of_nat (List.length l))
          * ((3 * e1 + 20 * ulp64) * (M * M))
  /\ 0 <= Qsum (map (fun t => (Qval t - mu) * (Qval t - mu)) l)
  /\ Qsum (map (fun t => (Qval t - mu) * (Qval t - mu)) l)
     <= inject_Z (Z.of_nat (List.length l)) * (M * M).
Proof.
  induction 1 as [|x l Fx F IH]; cbn [map Qsum List.length].
  - change (inject_Z (Z.of_nat 0)) with 0.
    split; [constructor|]. repeat split; lra.
  - destruct IH as (I1 & I2 & I3 & I4 & I5).
    destruct (squared_deviation x Fx) as (B1 & B2 & B3 & B4 & B5).
    rewrite inject_nat_succ.
    split; [constructor; assumption|]. repeat split; lra.
Qed.

End Deviations.

(** The variance and the standard deviation numpy returns for at most
    [2 ^ 20] times, none above [M]. *)
Lemma np_std_value ts M :
  (1 <= List.length ts)%nat -> (Z.of_nat (List.length ts) <= 2 ^ 20)%Z ->
  pow2 (-500) <= M -> M <= pow2 400 ->
  Forall (below M) ts ->
  timing (np_std 0 ts) = true
  /\ exact_population_variance ts - tolerance (List.length ts) M
     <= Qval (np_std 0 ts) * Qval (np_std 0 ts)
  /\ Qval (np_std 0 ts) * Qval (np_std 0 ts)
     <= exact_population_variance ts + tolerance (List.length ts) M.
Proof.
  intros H1 H2 ML MU F.
  destruct (count_bounds _ H1 H2) as [N1 N2].
  destruct (sum_error_small _ H1 H2) as (E0 & E1 & _).
  pose proof (sum_error_value (List.length ts)) as EV.
  destruct (M_facts M ML MU) as (PM & SM & Eta1 & Eta2).
  pose proof ulp64_pos as Pu. pose proof ulp64_small as Su.
  pose proof (pow2_pos 400) as P4.
  pose proof no_overflow_times as O1. pose proof no_overflow_squares as O2.
  assert (Pe : 0 <= eta64) by apply Qlt_le_weak, pow2_pos.
  assert (PM2 : 0 <= M * M) by nra.
  destruct (b64_of_nat_value _ H1 ltac:(lia)) as [TN VN].
  (* the mean *)
  destruct (np_sum_value M ts ltac:(lra) ltac:(lra) H1 H2 F)
    as (T1 & L1 & U1).
  destruct (below_sum M ts F) as [S0 S1].
  set (n := List.length ts) in *. set (nq := inject_Z (Z.of_nat n)) in *.
  set (e1 := sum_error n) in *. set (S := Qsum (map Qval ts)) in *.
  assert (X1 : e1 * S <= S) by nra.
  assert (X2 : S <= nq * M) by exact S1.
  assert (X3 : nq * M <= 1048576 * M) by (apply Qmult_le_compat_r; lra).
  assert (Dv1 : Qval (np_sum ts) / Qval (b64_of_nat n) <= pow2 970).
  { rewrite VN. apply Qle_shift_div_r; [lra|].
    apply Qle_trans with (2 * S); [lra|].
    apply Qle_trans with (2 * (nq * M)); [lra|].
    assert (nq * M <= nq * pow2 970) by (apply Qmult_le_l; lra).
    assert (0 <= nq * M) by nra.
    assert (2 * M <= pow2 970) by lra.
    setoid_replace (pow2 970 * nq) with (nq * pow2 970) by ring.
    setoid_replace (2 * (nq * M)) with (nq * (2 * M)) by ring.
    apply Qmult_le_l; lra. }
  destruct (b64_div_spec (np_sum ts) (b64_of_nat n) T1 TN
              ltac:(rewrite VN; lra) Dv1) as (Tm & Lm & Um).
  rewrite VN in Lm, Um.
  fold (np_mean ts) in Tm, Lm, Um.
  destruct (mean_budget S (Qval (np_sum ts)) nq (Qval (np_mean ts)) M e1
              ulp64 eta64 S0 X2 N1 ltac:(lra) E0 ltac:(lra)
              ltac:(lra) ltac:(lra) Pe Eta1 L1 U1 Lm Um)
    as (Mu0 & Mu1 & Lmu & Umu).
  fold (exact_mean ts) in Mu0, Mu1, Lmu, Umu.
  (* the squared deviations *)
  destruct (squared_deviations M (exact_mean ts) e1 (np_mean ts)
              ML MU Mu0 Mu1 E0 E1 Tm Lmu Umu ts F)
    as (Fq & Lq & Uq & D0 & D1).
  fold n nq in Lq, Uq, D1.
  fold (exact_squared_deviations ts) in Lq, Uq, D0, D1.
  set (qs := map (fun t => b64_mul (b64_sub t (np_mean ts))
                                   (b64_sub t (np_mean ts))) ts) in *.
  assert (Lqs : List.length qs = n) by (unfold qs; apply length_map).
  destruct (np_sum_value (2 * (M * M)) qs ltac:(lra) ltac:(lra)
              ltac:(rewrite Lqs; exact H1) ltac:(rewrite Lqs; exact H2) Fq)
    as (T2 & L2 & U2).
  rewrite Lqs in L2, U2. fold e1 in L2, U2.
  destruct (below_sum _ qs Fq) as [Q0 _].
  set (Sq := Qsum (map Qval qs)) in *.
  set (D := exact_squared_deviations ts) in *.
  set (eq := (3 * e1 + 20 * ulp64) * (M * M)) in *.
  assert (Eq0 : 0 <= eq) by (unfold eq; apply Qmult_le_0_compat; lra).
  assert (Eq1 : eq <= M * M).
  { unfold eq. setoid_replace (M * M) with (1 * (M * M)) at 2 by ring.
    apply Qmult_le_compat_r; lra. }
  (* the variance *)
  assert (Y1 : nq * eq <= nq * (M * M)) by (apply Qmult_le_l; lra).
  assert (Y2 : nq * (M * M) <= 1048576 * (M * M))
    by (apply Qmult_le_compat_r; lra).
  assert (Y3 : e1 * Sq <= Sq) by nra.
  assert (Dv2 : Qval (np_sum qs) / Qval (b64_of_nat n) <= pow2 970).
  { rewrite VN. apply Qle_shift_div_r; [lra|].
    apply Qle_trans with (nq * (4 * (M * M))).
    - setoid_replace (nq * (4 * (M * M))) with (4 * (nq * (M * M)))
        by ring. lra.
    - setoid_replace (pow2 970 * nq) with (nq * pow2 970) by ring.
      apply Qmult_le_l; lra. }
  destruct (b64_div_spec (np_sum qs) (b64_of_nat n) T2 TN
              ltac:(rewrite VN; lra) Dv2) as (Tv & Lv & Uv).
  rewrite VN in Lv, Uv.
  assert (EVar : np_var 0 ts = b64_div (np_sum qs) (b64_of_nat n)).
  { unfold np_var. rewrite map_map, Nat.sub_0_r. reflexivity. }
  rewrite <- EVar in Tv, Lv, Uv.
  destruct (variance_budget D Sq (Qval (np_sum qs)) nq (Qval (np_var 0 ts))
              M e1 eq ulp64 eta64 D0 D1 N1 ltac:(lra) E0 ltac:(lra)
              ltac:(lra) ltac:(lra) Pe Eta2 Eq0 Eq1 Q0 Lq Uq L2 U2 Lv Uv)
    as (V0 & V1 & _ & LV & UV).
  change (exact_population_variance ts) with (D / nq).
  set (ev := eq + 2 * e1 * (M * M) + 5 * ulp64 * (M * M)) in *.
  assert (Ev : ev == (5 * e1 + 25 * ulp64) * (M * M))
    by (unfold ev, eq; ring).
  assert (Ev1 : ev <= M * M).
  { rewrite Ev. setoid_replace (M * M) with (1 * (M * M)) at 2 by ring.
    apply Qmult_le_compat_r; lra. }
  assert (Ev0 : 0 <= ev).
  { rewrite Ev. apply Qmult_le_0_compat; lra. }
  (* the square root *)
  pose proof (timing_nonneg _ Tv) as Pv.
  destruct (b64_sqrt_spec (np_var 0 ts) Tv ltac:(lra))
    as (Ts & lo & w & Lo0 & Lo1 & W0 & W1 & Ls & Us).
  fold (np_std 0 ts) in Ts, Ls, Us.
  destruct (sqrt_budget (Qval (np_var 0 ts)) lo w
              (Qval (np_std 0 ts) * Qval (np_std 0 ts)) M ulp64 eta64
              ltac:(lra) Pv ltac:(lra) Lo0 Lo1 W0 W1 ltac:(lra)
              ltac:(lra) Pe Eta1 Ls Us) as [LR UR].
  assert (Tol : ev + 15 * ulp64 * (M * M) <= tolerance n M).
  { unfold tolerance. fold nq. rewrite Ev, pow2_47.
    setoid_replace ((5 * e1 + 25 * ulp64) * (M * M) + 15 * ulp64 * (M * M))
      with ((5 * e1 + 40 * ulp64) * (M * M)) by ring.
    apply Qmult_le_compat_r; [|exact PM2].
    rewrite EV.
    setoid_replace (5 * ((4 * nq + 2) * ulp64) + 40 * ulp64)
      with ((20 * nq + 50) * ulp64) by ring.
    setoid_replace ((nq + 4) * (32 * ulp64))
      with ((32 * nq + 128) * ulp64) by ring.
    apply Qmult_le_compat_r; lra. }
  split; [exact Ts|]. split; lra.
Qed.

End Variance.

Section PopulationStd.

Local Open Scope Q_scope.

(** C5, amended.  For every non-empty list of at most [2 ^ 20] times,
    finite and not below zero, none above [M] (with [M] between
    [2 ^ -500] and [2 ^ 400]), [calculate_statistics] returns; its
    [std] is finite and not below zero, and the square of [std] is the
    exact population variance (the sum of the squared deviations from
    the exact mean divided by [N]) up to the rounding of binary64, at
    most [(N + 4) * 2 ^ -47 * M * M].  From two times on, when the
    population variance is above [2 (N - 1)] times that tolerance, the
    square of [std] is nearer to it than to the sample variance, which
    divides by [N - 1]. *)
Theorem std_is_population_std_up_to_rounding :
  forall (ts : list float) (M : Q),
    ts <> [] ->
    (Z.of_nat (List.length ts) <= 2 ^ 20)%Z ->
    (pow2 (-500) <= M)%Q -> (M <= pow2 400)%Q ->
    Forall (below M) ts ->
    exists stats,
      calculate_statistics ts = Return stats
      /\ count stats = List.length ts
      /\ timing (std stats) = true
      /\ (Qabs (std_squared stats - exact_population_variance ts)
          <= tolerance (List.length ts) M)%Q
      /\ ((2 <= List.length ts)%nat ->
          (2 * (inject_Z (Z.of_nat (List.length ts)) - 1)
           * tolerance (List.length ts) M
           < exact_population_variance ts)%Q ->
          (Qabs (std_squared stats - exact_population_variance ts)
           < Qabs (std_squared stats - exact_sample_variance ts))%Q).
Proof.
  intros ts M Hne Hn ML MU F.
  assert (H1 : (1 <= List.length ts)%nat)
    by (destruct ts; [contradiction|cbn [List.length]; lia]).
  destruct (np_std_value ts M H1 Hn ML MU F) as (T & L & U).
  exists (statistics ts).
  split; [destruct ts; [contradiction|reflexivity]|].
  split; [reflexivity|]. split; [exact T|].
  unfold std_squared. cbn [std statistics].
  split; [apply Qabs_Qle_condition; split; lra|].
  intros H2 G. unfold exact_sample_variance.
  assert (E : inject_Z (Z.of_nat (List.length ts) - 1)
              == inject_Z (Z.of_nat (List.length ts)) - 1).
  { unfold Z.sub. rewrite inject_Z_plus. reflexivity. }
  rewrite E. unfold exact_population_variance in *.
  apply nearer_budget with (tol := tolerance (List.length ts) M).
  - change 2 with (inject_Z 2). rewrite <- Zle_Qle. lia.
  - unfold tolerance.
    pose proof (pow2_pos (-47)). pose proof (pow2_pos (-500)).
    assert (0 <= inject_Z (Z.of_nat (List.length ts)))
      by apply inject_nat_nonneg.
    assert (0 <= M * M) by nra.
    apply Qmult_le_0_compat; [apply Qmult_le_0_compat; lra|assumption].
  - lra.
  - lra.
  - exact G.
Qed.

Lemma std_is_population_std_up_to_rounding_witness :
  exists stats,
    calculate_statistics example_times = Return stats
    /\ count stats = 2%nat
    /\ timing (std stats) = true
    /\ (Qabs (std_squared stats - exact_population_variance example_times)
        <= tolerance 2 1)%Q
    /\ (Qabs (std_squared stats - exact_population_variance example_times)
        < Qabs (std_squared stats - exact_sample_variance example_times))%Q.
Proof.
  destruct (std_is_population_std_up_to_rounding example_times 1)
    as (stats & E & C & T & A & N).
  - discriminate.
  - vm_compute. discriminate.
  - vm_compute. discriminate.
  - vm_compute. discriminate.
  - repeat constructor; vm_compute; discriminate.
  - exists stats. split; [exact E|]. split; [exact C|].
    split; [exact T|]. split; [exact A|].
    apply N; [apply Nat.le_refl|vm_compute; reflexivity].
Defined.

(** Against C5 as stated: the exact population standard deviation of
    three times [0.1] is zero, and the [std] returned is not. *)
Lemma std_differs_from_exact_population_std :
  ~ std_equals_population [tenth; tenth; tenth].
Proof.
  intros H. specialize (H (statistics [tenth; tenth; tenth]) eq_refl).
  vm_compute in H. discriminate H.
Qed.

End PopulationStd.

(** ** Summaries and charts *)

Lemma has_trials_length {D : Type} (c : TestCase D) :
  has_trials c = true -> 1 <= List.length (times c).
Proof.
  unfold has_trials. destruct (times c); simpl; [discriminate|lia].
Qed.

Lemma filter_has_trials {D : Type} (cases : list (TestCase D)) :
  Forall (fun c => In c cases /\ 1 <= List.length (times c))
         (filter has_trials cases).
Proof.
  apply Forall_forall. intros c H. apply filter_In in H. destruct H as [H1 H2].
  split; [exact H1|apply has_trials_length, H2].
Qed.

Lemma manual_summary_loop cases : forall out,
  Manual.summary_loop cases out
  = Return (out ++ flat_map manual_block (filter has_trials cases))%list.
Proof.
  induction cases as [|c cases IH]; intros out; simpl.
  - rewrite app_nil_r. reflexivity.
  - unfold has_trials at 1. destruct (nonempty (times c)) eqn:E.
    + rewrite (calculate_statistics_nonempty _ E). cbn [bind].
      rewrite IH. cbn [flat_map]. unfold manual_block at 2, case_block.
      rewrite <- !app_assoc. reflexivity.
    + apply IH.
Qed.

Lemma fixed_summary_loop cases : forall out,
  Fixed.summary_loop cases out
  = Return (out ++ flat_map fixed_block (filter has_trials cases))%list.
Proof.
  induction cases as [|c cases IH]; intros out; simpl.
  - rewrite app_nil_r. reflexivity.
  - unfold has_trials at 1. destruct (nonempty (times c)) eqn:E.
    + rewrite (calculate_statistics_nonempty _ E). cbn [bind].
      rewrite IH. cbn [flat_map]. unfold fixed_block at 2, case_block.
      rewrite <- !app_assoc. reflexivity.
    + apply IH.
Qed.

Lemma correct_summary_loop cases : forall out,
  Correct.summary_loop cases out
  = Return (out ++ flat_map correct_block (filter has_trials cases))%list.
Proof.
  induction cases as [|c cases IH]; intros out; simpl.
  - rewrite app_nil_r. reflexivity.
  - unfold has_trials at 1. destruct (nonempty (times c)) eqn:E.
    + rewrite (calculate_statistics_nonempty _ E). cbn [bind].
      rewrite IH. cbn [flat_map]. unfold correct_block at 2, case_block.
      rewrite <- !app_assoc. reflexivity.
    + apply IH.
Qed.

(** Sorting keeps the cases. *)
Lemma insert_case_In c x sorted :
  In x (Correct.insert_case c sorted) <-> x = c \/ In x sorted.
Proof.
  induction sorted as [|d sorted IH]; simpl.
  - intuition.
  - destruct (Correct.key_ltb c d); simpl; rewrite ?IH; intuition.
Qed.

Lemma fold_insert_In cases : forall acc x,
  In x (fold_left (fun sorted c => Correct.insert_case c sorted) cases acc)
  <-> In x acc \/ In x cases.
Proof.
  induction cases as [|c cases IH]; intros acc x; simpl.
  - intuition.
  - rewrite IH, insert_case_In. intuition.
Qed.

Lemma sort_cases_In cases x :
  In x (Correct.sort_cases cases) <-> In x cases.
Proof.
  unfold Correct.sort_cases. rewrite fold_insert_In. simpl. intuition.
Qed.

Lemma sort_cases_length cases :
  List.length (Correct.sort_cases cases) = List.length cases.
Proof.
  unfold Correct.sort_cases.
  assert (H : forall acc,
             List.length (fold_left (fun sorted c => Correct.insert_case c sorted)
                                    cases acc)
             = List.length acc + List.length cases).
  { induction cases as [|c cases IH]; intros acc; simpl; [lia|].
    rewrite IH.
    assert (L : forall l, List.length (Correct.insert_case c l) = S (List.length l)).
    { induction l as [|d l IHl]; simpl; [reflexivity|].
      destruct (Correct.key_ltb c d); simpl; [reflexivity|]. rewrite IHl. reflexivity. }
    rewrite L. lia. }
  rewrite H. reflexivity.
Qed.

(** The chart loops: a bar for each case drawn, or [KeyError] at a
    name that has no colour. *)
Lemma correct_plot_loop cases : forall bars,
  match Correct.plot_loop cases bars with
  | Return out =>
      exists new, out = (bars ++ new)%list
        /\ map bar_label new
           = map (fun c => label_of (name c) (deep_copy c))
                 (filter has_trials cases)
  | Raise e => exists c, In c cases /\ color_map (name c) = Raise e
  end.
Proof.
  induction cases as [|c cases IH]; intros bars; simpl.
  - exists []. rewrite app_nil_r. split; reflexivity.
  - unfold has_trials at 1. destruct (nonempty (times c)) eqn:E.
    + rewrite (calculate_statistics_nonempty _ E). cbn [bind].
      destruct (color_map (name c)) as [color|e] eqn:C; cbn [bind].
      * match goal with |- context [Correct.plot_loop cases ?b] =>
          specialize (IH b); destruct (Correct.plot_loop cases b) as [out|e] end.
        -- destruct IH as (new & -> & Hn). eexists (_ :: new).
           rewrite <- app_assoc. split; [reflexivity|]. simpl. rewrite Hn. reflexivity.
        -- destruct IH as (c' & Hin & Hc). exists c'. auto.
      * exists c. auto.
    + specialize (IH bars). destruct (Correct.plot_loop cases bars) as [out|e].
      * exact IH.
      * destruct IH as (c' & Hin & Hc). exists c'. auto.
Qed.

Lemma manual_plot_loop cases : forall bars,
  match Manual.plot_loop cases bars with
  | Return out =>
      exists new, out = (bars ++ new)%list
        /\ map bar_label new
           = map (fun c => label_of (name c) (deep_copy c))
                 (filter manual_plotted cases)
  | Raise e => exists c, In c cases /\ color_map (name c) = Raise e
  end.
Proof.
  induction cases as [|c cases IH]; intros bars; simpl.
  - exists []. rewrite app_nil_r. split; reflexivity.
  - unfold manual_plotted at 1, has_trials.
    destruct (nonempty (times c)) eqn:E; cbn [andb].
    + destruct (negb (String.eqb (name c) "TMA No Multicast")) eqn:N.
      * rewrite (calculate_statistics_nonempty _ E). cbn [bind].
        destruct (color_map (name c)) as [color|e] eqn:C; cbn [bind].
        -- match goal with |- context [Manual.plot_loop cases ?b] =>
             specialize (IH b); destruct (Manual.plot_loop cases b) as [out|e] end.
           ++ destruct IH as (new & -> & Hn). eexists (_ :: new).
              rewrite <- app_assoc. split; [reflexivity|]. simpl. rewrite Hn. reflexivity.
           ++ destruct IH as (c' & Hin & Hc). exists c'. auto.
        -- exists c. auto.
      * specialize (IH bars). destruct (Manual.plot_loop cases bars) as [out|e].
        -- exact IH.
        -- destruct IH as (c' & Hin & Hc). exists c'. auto.
    + specialize (IH bars). destruct (Manual.plot_loop cases bars) as [out|e].
      * exact IH.
      * destruct IH as (c' & Hin & Hc). exists c'. auto.
Qed.

Lemma fixed_plot_loop groups : forall bars,
  Fixed.plot_loop groups bars
  = Return (bars ++ map bar_of_group (filter group_has_trials groups))%list.
Proof.
  induction groups as [|[key cases] groups IH]; intros bars; simpl.
  - rewrite app_nil_r. reflexivity.
  - unfold group_has_trials at 1. cbn [snd].
    destruct (nonempty (Fixed.all_times cases)) eqn:E.
    + rewrite (calculate_statistics_nonempty _ E). cbn [bind].
      rewrite IH. cbn [map]. rewrite <- app_assoc. reflexivity.
    + apply IH.
Qed.

(** C8.  In each script, the summary printed for any list of test cases
    is the banner followed by one block per case that has at least one
    time, and the chart has bars only for such cases (for groups of
    cases whose merged times are not empty, in the line-scanning
    script): cases with no trial are dropped from both. *)
Theorem reported_cases_have_trials :
  (forall tcs : list Correct.Case,
      Correct.print_summary tcs
      = Return (banner ++ flat_map correct_block
                            (filter has_trials (Correct.sort_cases tcs)))%list
      /\ Forall (fun c => In c tcs /\ 1 <= List.length (times c))
                (filter has_trials (Correct.sort_cases tcs)))
  /\ (forall tcs : list Fixed.Case,
         Fixed.print_summary tcs
         = Return (banner ++ flat_map fixed_block (filter has_trials tcs))%list
         /\ Forall (fun c => In c tcs /\ 1 <= List.length (times c))
                   (filter has_trials tcs))
  /\ (forall tcs : list Manual.Case,
         Manual.print_summary tcs
         = Return (banner ++ flat_map manual_block (filter has_trials tcs))%list
         /\ Forall (fun c => In c tcs /\ 1 <= List.length (times c))
                   (filter has_trials tcs))
  /\ (forall tcs : list Correct.Case,
         match Correct.create_plot tcs with
         | Return bars =>
             map bar_label bars
             = map (fun c => label_of (name c) (deep_copy c))
                   (filter has_trials (Correct.sort_cases tcs))
         | Raise e => exists c, In c tcs /\ color_map (name c) = Raise e
         end)
  /\ (forall tcs : list Fixed.Case,
         Fixed.create_plot tcs
         = Return (map bar_of_group
                       (filter group_has_trials (Fixed.grouped_cases tcs)))
         /\ Forall (fun g => 1 <= List.length (Fixed.all_times (snd g)))
                   (filter group_has_trials (Fixed.grouped_cases tcs)))
  /\ (forall tcs : list Manual.Case,
         match Manual.create_plot tcs with
         | Return bars =>
             map bar_label bars
             = map (fun c => label_of (name c) (deep_copy c))
                   (filter manual_plotted tcs)
         | Raise e => exists c, In c tcs /\ color_map (name c) = Raise e
         end).
Proof.
  repeat apply conj.
  - intros tcs. split; [apply correct_summary_loop|].
    eapply Forall_impl; [|apply filter_has_trials].
    intros c [H1 H2]. split; [apply sort_cases_In, H1|exact H2].
  - intros tcs. split; [apply fixed_summary_loop|apply filter_has_trials].
  - intros tcs. split; [apply manual_summary_loop|apply filter_has_trials].
  - intros tcs. unfold Correct.create_plot.
    pose proof (correct_plot_loop (Correct.sort_cases tcs) []) as H.
    destruct (Correct.plot_loop (Correct.sort_cases tcs) []) as [out|e].
    + destruct H as (new & -> & Hn). exact Hn.
    + destruct H as (c & Hin & Hc). exists c. split; [apply sort_cases_In, Hin|exact Hc].
  - intros tcs. split; [apply fixed_plot_loop|].
    apply Forall_forall. intros g H. apply filter_In in H. destruct H as [_ H].
    unfold group_has_trials in H. destruct (Fixed.all_times (snd g)); simpl; [discriminate|lia].
  - intros tcs. unfold Manual.create_plot.
    pose proof (manual_plot_loop tcs []) as H.
    destruct (Manual.plot_loop tcs []) as [out|e].
    + destruct H as (new & -> & Hn). exact Hn.
    + exact H.
Qed.

(** ** The chart of the line-range script *)

Lemma filter_has_trials_all {D : Type} (cases : list (TestCase D)) :
  Forall (fun c => times c <> []) cases -> filter has_trials cases = cases.
Proof.
  induction 1 as [|c cases Hc _ IH]; simpl; [reflexivity|].
  unfold has_trials at 1. destruct (times c); [contradiction|].
  simpl. rewrite IH. reflexivity.
Qed.

Lemma manual_plot_step_drawn (c : Manual.Case) cases bars color :
  times c <> [] ->
  String.eqb (name c) "TMA No Multicast" = false ->
  color_map (name c) = Return color ->
  Manual.plot_loop (c :: cases) bars
  = Manual.plot_loop cases
      (bars ++ [mkBar (label_of (name c) (deep_copy c))
                      (mean (statistics (times c)))
                      (std (statistics (times c))) color])%list.
Proof.
  intros Ht Hn Hc. cbn [Manual.plot_loop]. rewrite Hn, Hc.
  destruct (times c) as [|t ts] eqn:E; [contradiction|].
  cbn [nonempty andb negb]. rewrite calculate_statistics_returns. reflexivity.
Qed.

Lemma manual_plot_step_excluded (c : Manual.Case) cases bars :
  String.eqb (name c) "TMA No Multicast" = true ->
  Manual.plot_loop (c :: cases) bars = Manual.plot_loop cases bars.
Proof.
  intros Hn. cbn [Manual.plot_loop]. rewrite Hn, andb_false_r. reflexivity.
Qed.

(** C9.  In the line-range script, for a list made of one
    [TMA No Multicast] case and one [TMA Multicast] case, both with
    times, in either order, [create_plot] draws exactly one bar, the
    one of the multicast case, while [print_summary] prints the blocks
    of both cases. *)
Theorem chart_excludes_no_multicast :
  forall nm m : Manual.Case,
    name nm = "TMA No Multicast" ->
    name m = "TMA Multicast" ->
    times nm <> [] ->
    times m <> [] ->
    forall tcs,
      tcs = [nm; m] \/ tcs = [m; nm] ->
      Manual.create_plot tcs
      = Return [mkBar (label_of "TMA Multicast" (deep_copy m))
                      (mean (statistics (times m)))
                      (std (statistics (times m))) "red"]
      /\ Manual.print_summary tcs
         = Return (banner ++ flat_map manual_block tcs)%list.
Proof.
  intros nm m Hnm Hm Tnm Tm tcs Htcs.
  assert (Enm : String.eqb (name nm) "TMA No Multicast" = true)
    by (rewrite Hnm; reflexivity).
  assert (Em : String.eqb (name m) "TMA No Multicast" = false)
    by (rewrite Hm; reflexivity).
  assert (Cm : color_map (name m) = Return "red") by (rewrite Hm; reflexivity).
  split.
  - unfold Manual.create_plot.
    destruct Htcs as [-> | ->].
    + rewrite (manual_plot_step_excluded nm _ _ Enm).
      rewrite (manual_plot_step_drawn m _ _ _ Tm Em Cm). rewrite Hm. reflexivity.
    + rewrite (manual_plot_step_drawn m _ _ _ Tm Em Cm).
      rewrite (manual_plot_step_excluded nm _ _ Enm). rewrite Hm. reflexivity.
  - unfold Manual.print_summary. rewrite manual_summary_loop.
    rewrite filter_has_trials_all; [reflexivity|].
    destruct Htcs as [-> | ->]; repeat constructor; assumption.
Qed.

Lemma chart_excludes_no_multicast_witness :
  Manual.create_plot [example_no_multicast_case; example_multicast_case]
  = Return [mkBar (label_of "TMA Multicast" (deep_copy example_multicast_case))
                  (mean (statistics (times example_multicast_case)))
                  (std (statistics (times example_multicast_case))) "red"]
  /\ Manual.print_summary [example_no_multicast_case; example_multicast_case]
     = Return (banner ++ flat_map manual_block
                           [example_no_multicast_case; example_multicast_case])%list.
Proof.
  apply (chart_excludes_no_multicast
           example_no_multicast_case example_multicast_case);
    [reflexivity | reflexivity | discriminate | discriminate | left; reflexivity].
Defined.

(** The same on the output of the parser: a file whose ranges hold one
    multicast and one no-multicast trial gives one bar and two
    blocks. *)
Lemma chart_excludes_no_multicast_example :
  let lines :=
    (repeat "" 18 ++ ["Trial 1: Completed in 1.0ms"] ++ repeat "" 27
       ++ ["Trial 1: Completed in 2.0ms"])%list in
  exists out bar,
    Manual.main (text_of_lines lines) = Return (out, [bar])
    /\ bar_label bar = "TMA Multicast (2X)"
    /\ In (String LF "TMA Multicast (2X)") out
    /\ In (String LF "TMA No Multicast (2X)") out.
Proof.
  eexists _, _. split; [vm_compute; reflexivity|].
  split; [reflexivity|]. split; simpl; auto 20.
Qed.

(** ** Sections of the same identity *)

Lemma group_of_append key k c groups :
  group_of key (Fixed.group_append k c groups)
  = if String.eqb k key
    then Some (match group_of key groups with
               | Some cases => cases ++ [c]
               | None => [c]
               end)%list
    else group_of key groups.
Proof.
  induction groups as [|[k' cases] groups IH]; simpl.
  - destruct (String.eqb k key); reflexivity.
  - destruct (String.eqb k' k) eqn:E1; simpl.
    + apply String.eqb_eq in E1. subst k'.
      destruct (String.eqb k key); reflexivity.
    + destruct (String.eqb k' key) eqn:E2.
      * apply String.eqb_eq in E2. subst k'.
        rewrite String.eqb_sym, E1. reflexivity.
      * exact IH.
Qed.

Lemma keys_of_append k c groups :
  map fst (Fixed.group_append k c groups)
  = if existsb (String.eqb k) (map fst groups)
    then map fst groups
    else (map fst groups ++ [k])%list.
Proof.
  induction groups as [|[k' cases] groups IH]; simpl; [reflexivity|].
  rewrite (String.eqb_sym k k').
  destruct (String.eqb k' k); simpl; [reflexivity|].
  rewrite IH. destruct (existsb _ _); reflexivity.
Qed.

Lemma NoDup_keys_append k c groups :
  NoDup (map fst groups) -> NoDup (map fst (Fixed.group_append k c groups)).
Proof.
  intros H. rewrite keys_of_append.
  destruct (existsb (String.eqb k) (map fst groups)) eqn:E; [exact H|].
  apply NoDup_app; [exact H|repeat constructor; intros []|].
  intros x Hx [Hk|[]]. subst x.
  assert (existsb (String.eqb k) (map fst groups) = true).
  { apply existsb_exists. exists k. split; [exact Hx|apply String.eqb_refl]. }
  congruence.
Qed.

Lemma fold_group_of key cases : forall groups,
  group_of key (fold_left (fun g c => Fixed.group_append (Fixed.key_of c) c g)
                          cases groups)
  = match group_of key groups, with_key key cases with
    | None, [] => None
    | None, found => Some found
    | Some old, found => Some (old ++ found)%list
    end.
Proof.
  unfold with_key.
  induction cases as [|c cases IH]; intros groups; simpl.
  - destruct (group_of key groups); [rewrite app_nil_r|]; reflexivity.
  - rewrite IH, group_of_append.
    destruct (String.eqb (Fixed.key_of c) key); [|reflexivity].
    destruct (group_of key groups) as [old|]; simpl.
    + rewrite <- app_assoc. reflexivity.
    + destruct (filter _ cases); reflexivity.
Qed.

Lemma fold_NoDup_keys cases : forall groups,
  NoDup (map fst groups) ->
  NoDup (map fst (fold_left
                    (fun g c => Fixed.group_append (Fixed.key_of c) c g)
                    cases groups)).
Proof.
  induction cases as [|c cases IH]; intros groups H; simpl; [exact H|].
  apply IH, NoDup_keys_append, H.
Qed.

(** A key of the dictionary holds, in order, the cases that have it. *)
Lemma grouped_cases_lookup key cases :
  group_of key (Fixed.grouped_cases cases)
  = match with_key key cases with
    | [] => None
    | found => Some found
    end.
Proof. unfold Fixed.grouped_cases. rewrite fold_group_of. reflexivity. Qed.

Lemma grouped_cases_NoDup cases :
  NoDup (map fst (Fixed.grouped_cases cases)).
Proof. apply fold_NoDup_keys. constructor. Qed.

(** A key that is found splits the dictionary around its entry. *)
Lemma group_of_split key groups : forall found,
  group_of key groups = Some found ->
  NoDup (map fst groups) ->
  exists before after,
    groups = (before ++ (key, found) :: after)%list
    /\ ~ In key (map fst before) /\ ~ In key (map fst after).
Proof.
  induction groups as [|[k cs] groups IH]; intros found H N; simpl in H;
    [discriminate|].
  inversion N as [|? ? Hk N']; subst.
  destruct (String.eqb k key) eqn:E.
  - apply String.eqb_eq in E. subst k. inversion H; subst.
    exists [], groups. split; [reflexivity|]. split; [intros []|exact Hk].
  - destruct (IH _ H N') as (before & after & -> & Hb & Ha).
    exists ((k, cs) :: before), after. split; [reflexivity|].
    split; [|exact Ha].
    simpl. intros [Hk'|Hin]; [|auto].
    subst k. rewrite String.eqb_refl in E. discriminate.
Qed.

Lemma all_times_fold cases : forall acc,
  fold_left (fun acc c => (acc ++ times c)%list) cases acc
  = (acc ++ List.concat (map (@times (option string)) cases))%list.
Proof.
  induction cases as [|c cases IH]; intros acc; simpl.
  - rewrite app_nil_r. reflexivity.
  - rewrite IH, app_assoc. reflexivity.
Qed.

(** The merged times of a group: the times of its cases, in order. *)
Lemma all_times_concat cases :
  Fixed.all_times cases = List.concat (map (@times (option string)) cases).
Proof. unfold Fixed.all_times. apply all_times_fold. Qed.

Lemma bar_labels_of_groups groups b :
  In b (map bar_of_group (filter group_has_trials groups)) ->
  In (bar_label b) (map fst groups).
Proof.
  intros H. apply in_map_iff in H. destruct H as (g & <- & Hg).
  apply filter_In in Hg. destruct Hg as [Hg _].
  apply in_map_iff. exists g. split; [reflexivity|exact Hg].
Qed.

Lemma with_key_none key cases :
  (forall c, In c cases -> Fixed.key_of c <> key) -> with_key key cases = [].
Proof.
  unfold with_key. induction cases as [|c cases IH]; intros H; simpl; [reflexivity|].
  destruct (String.eqb (Fixed.key_of c) key) eqn:E.
  - apply String.eqb_eq in E. exfalso. apply (H c); [left; reflexivity|exact E].
  - apply IH. intros c' Hc'. apply H. right. exact Hc'.
Qed.

Lemma with_key_app key xs ys :
  with_key key (xs ++ ys) = (with_key key xs ++ with_key key ys)%list.
Proof. apply filter_app. Qed.

(** The statistics of every bar: those of all the times of the cases
    that share the key of the bar. *)
Lemma plot_merges_by_key :
  forall (cases : list Fixed.Case) (key : string),
    List.concat (map (@times (option string)) (with_key key cases)) <> [] ->
    exists bars1 bars2,
      Fixed.create_plot cases
      = Return (bars1 ++ bar_of_group (key, with_key key cases) :: bars2)%list
      /\ Fixed.all_times (with_key key cases)
         = List.concat (map (@times (option string)) (with_key key cases))
      /\ (forall b, In b (bars1 ++ bars2) -> bar_label b <> key).
Proof.
  intros cases key Hne.
  pose proof (grouped_cases_lookup key cases) as L.
  destruct (with_key key cases) as [|c found] eqn:W; [contradiction Hne; reflexivity|].
  destruct (group_of_split _ _ _ L (grouped_cases_NoDup cases))
    as (before & after & G & Hb & Ha).
  unfold Fixed.create_plot. rewrite fixed_plot_loop, G. cbn [app].
  rewrite filter_app, map_app. cbn [filter].
  assert (T : group_has_trials (key, c :: found) = true).
  { unfold group_has_trials. cbn [snd]. rewrite all_times_concat.
    destruct (List.concat _); [contradiction Hne; reflexivity|reflexivity]. }
  rewrite T. cbn [map].
  eexists _, _. split; [reflexivity|]. split; [apply all_times_concat|].
  intros b Hin E. apply in_app_or in Hin. destruct Hin as [Hin|Hin];
    apply bar_labels_of_groups in Hin; rewrite E in Hin; auto.
Qed.

(** The regex script on two sections of the same identity: two test
    cases, two blocks in the summary, two bars. *)
Lemma correct_keeps_repeated_sections :
  Correct.parse_performance_data repeated_section_log
  = Return [ mkCase "TMA No Swizzling" false "1X" [Prim2SF 1%float];
             mkCase "TMA No Swizzling" false "1X"
                    [Prim2SF 2%float; Prim2SF 3%float] ]
  /\ exists out bars,
       Correct.main repeated_section_log = Return (out, bars)
       /\ List.length bars = 2
       /\ In "  Trials: 1" out /\ In "  Trials: 2" out
       /\ ~ In "  Trials: 3" out.
Proof.
  split; [vm_compute; reflexivity|].
  eexists _, _. split; [vm_compute; reflexivity|].
  split; [reflexivity|]. split; [simpl; auto 20|]. split; [simpl; auto 20|].
  simpl. intros H.
  repeat match goal with H : _ \/ _ |- _ => destruct H as [H|H] end;
    try discriminate H; contradiction.
Qed.

(** The line-scanning script on the same log: two test cases and two
    blocks in the summary, but one bar, on the three times together. *)
Lemma fixed_merges_in_the_chart_only :
  Fixed.parse_performance_data repeated_section_log
  = Return [ mkCase "TMA No Swizzling" false (Some "1X") [Prim2SF 1%float];
             mkCase "TMA No Swizzling" false (Some "1X")
                    [Prim2SF 2%float; Prim2SF 3%float] ]
  /\ exists out,
       Fixed.main repeated_section_log
       = Return (out, [mkBar "TMA No Swizzling (1X)" (Prim2SF 2%float)
                             (std (statistics [Prim2SF 1%float; Prim2SF 2%float;
                                               Prim2SF 3%float]))
                             "blue"])
       /\ In "  Trials: 1" out /\ In "  Trials: 2" out
       /\ ~ In "  Trials: 3" out.
Proof.
  split; [vm_compute; reflexivity|].
  eexists. split; [vm_compute; reflexivity|].
  split; [simpl; auto 20|]. split; [simpl; auto 20|].
  simpl. intros H.
  repeat match goal with H : _ \/ _ |- _ => destruct H as [H|H] end;
    try discriminate H; contradiction.
Qed.

(** Against C2 as stated: on a log with two no-swizzling sections of
    one and two trials, neither parser returns a single case of that
    identity with three times; the sections stay two test cases. *)
Lemma repeated_sections_not_merged :
  ~ merged_by Correct.parse_performance_data repeated_section_log
              "TMA No Swizzling" 3
  /\ ~ merged_by Fixed.parse_performance_data repeated_section_log
                 "TMA No Swizzling" 3.
Proof.
  split; intros (cases & c & H & F & L).
  - rewrite (proj1 correct_keeps_repeated_sections) in H.
    inversion H; subst cases. vm_compute in F. discriminate F.
  - rewrite (proj1 fixed_merges_in_the_chart_only) in H.
    inversion H; subst cases. vm_compute in F. discriminate F.
Qed.

(** C2, amended.  In the line-scanning script, [create_plot] gives two
    test cases of the same name and depth, when no other case has
    their key, one bar: its statistics are computed on the times of the
    first followed by the times of the second, so the count is the sum
    of the two counts; no other bar carries the key. *)
Theorem plot_merges_same_identity :
  forall (pre mid post : list Fixed.Case) (c1 c2 : Fixed.Case),
    name c1 = name c2 ->
    deep_copy c1 = deep_copy c2 ->
    (forall c, In c (pre ++ mid ++ post)%list ->
               Fixed.key_of c <> Fixed.key_of c1) ->
    (times c1 ++ times c2)%list <> [] ->
    exists bars1 bars2 stats,
      Fixed.create_plot (pre ++ c1 :: mid ++ c2 :: post)%list
      = Return (bars1
                ++ mkBar (Fixed.key_of c1) (mean stats) (std stats)
                         (Fixed.color_of_key (Fixed.key_of c1))
                :: bars2)%list
      /\ calculate_statistics (times c1 ++ times c2)%list = Return stats
      /\ count stats = List.length (times c1) + List.length (times c2)
      /\ (forall b, In b (bars1 ++ bars2)%list ->
                    bar_label b <> Fixed.key_of c1).
Proof.
  intros pre mid post c1 c2 Hn Hd Hother Hne.
  assert (K : Fixed.key_of c2 = Fixed.key_of c1).
  { unfold Fixed.key_of. rewrite Hn, Hd. reflexivity. }
  assert (W : with_key (Fixed.key_of c1) (pre ++ c1 :: mid ++ c2 :: post)%list
              = [c1; c2]).
  { rewrite with_key_app.
    rewrite (with_key_none _ pre)
      by (intros c Hc; apply Hother; apply in_or_app; left; exact Hc).
    cbn [app]. unfold with_key at 1. cbn [filter]. rewrite String.eqb_refl.
    fold (with_key (Fixed.key_of c1) (mid ++ c2 :: post)%list).
    rewrite with_key_app.
    rewrite (with_key_none _ mid)
      by (intros c Hc; apply Hother; apply in_or_app; right;
          apply in_or_app; left; exact Hc).
    cbn [app]. unfold with_key at 1. cbn [filter]. rewrite K, String.eqb_refl.
    fold (with_key (Fixed.key_of c1) post).
    rewrite (with_key_none _ post)
      by (intros c Hc; apply Hother; apply in_or_app; right;
          apply in_or_app; right; exact Hc).
    reflexivity. }
  destruct (plot_merges_by_key (pre ++ c1 :: mid ++ c2 :: post)%list
                               (Fixed.key_of c1)) as (bars1 & bars2 & P & _ & L).
  { rewrite W. cbn [map List.concat]. rewrite app_nil_r. exact Hne. }
  rewrite W in P.
  assert (A : Fixed.all_times [c1; c2] = (times c1 ++ times c2)%list)
    by reflexivity.
  exists bars1, bars2, (statistics (times c1 ++ times c2)%list).
  split; [|split; [|split]].
  - rewrite P. unfold bar_of_group. cbn [fst snd]. rewrite A. reflexivity.
  - apply calculate_statistics_nonempty.
    destruct (times c1 ++ times c2)%list; [contradiction|reflexivity].
  - cbn [count statistics]. apply length_app.
  - exact L.
Qed.

Lemma plot_merges_same_identity_witness :
  exists bars1 bars2 stats,
    Fixed.create_plot
      ([] ++ example_first_section :: [] ++ example_second_section :: [])%list
    = Return (bars1
              ++ mkBar (Fixed.key_of example_first_section)
                       (mean stats) (std stats)
                       (Fixed.color_of_key (Fixed.key_of example_first_section))
              :: bars2)%list
    /\ calculate_statistics
         (times example_first_section ++ times example_second_section)%list
       = Return stats
    /\ count stats
       = List.length (times example_first_section)
         + List.length (times example_second_section)
    /\ (forall b, In b (bars1 ++ bars2)%list ->
                  bar_label b <> Fixed.key_of example_first_section).
Proof.
  apply (plot_merges_same_identity [] [] []
           example_first_section example_second_section).
  - reflexivity.
  - reflexivity.
  - intros c [].
  - discriminate.
Defined.

(** ** Trial lines whose number does not parse *)

Lemma append_time_unmatched line ts :
  search_completed line = None -> append_time line ts = Return ts.
Proof. intros H. unfold append_time. rewrite H. reflexivity. Qed.

(** The regex script: the loop over the lines of a section goes on as
    if the line were not there. *)
Lemma correct_skips_unmatched_line before : forall line after ts,
  search_completed line = None ->
  Correct.extract_times (before ++ line :: after) ts
  = Correct.extract_times (before ++ after) ts.
Proof.
  induction before as [|l before IH]; intros line after ts H; cbn [app Correct.extract_times].
  - rewrite (append_time_unmatched _ _ H). cbn [bind].
    destruct (_ && _); reflexivity.
  - destruct (_ && _); [|apply IH, H].
    destruct (append_time l ts) as [ts'|e]; cbn [bind]; [apply IH, H|reflexivity].
Qed.

Lemma with_times_same (c : Fixed.Case) : Fixed.with_times c (times c) = c.
Proof. destruct c. reflexivity. Qed.

(** The line-scanning script: the [if]/[elif] chain changes nothing on
    a quiet line without a match. *)
Lemma dispatch_quiet_unmatched line cur tcs :
  quiet_line line ->
  search_completed line = None ->
  Fixed.dispatch line cur tcs = Return (cur, tcs).
Proof.
  intros (H1 & H2 & H3 & _ & _ & HS) Hs. unfold Fixed.dispatch.
  rewrite H1, H2, H3. destruct cur as [c|]; [|reflexivity].
  destruct (startswith line "Trial" && str_in "Completed in" line).
  - rewrite (append_time_unmatched _ _ Hs). cbn [bind].
    rewrite with_times_same. reflexivity.
  - rewrite HS. reflexivity.
Qed.

Lemma dispatch_blank cur tcs :
  Fixed.dispatch (strip "") cur tcs = Return (cur, tcs).
Proof. destruct cur; reflexivity. Qed.

Lemma look_ahead_blank raw : forall n before after,
  str_in "Deep copy 2X" (strip raw) = false ->
  str_in "Deep copy 4X" (strip raw) = false ->
  Fixed.look_ahead (firstn n (before ++ raw :: after))
  = Fixed.look_ahead (firstn n (before ++ "" :: after)).
Proof.
  induction n as [|n IH]; intros before after H2 H4; [reflexivity|].
  destruct before as [|l before]; cbn [app firstn Fixed.look_ahead].
  - rewrite H2, H4. reflexivity.
  - rewrite (IH before after H2 H4). reflexivity.
Qed.

Lemma set_depth_blank raw cur before after :
  str_in "Deep copy 2X" (strip raw) = false ->
  str_in "Deep copy 4X" (strip raw) = false ->
  Fixed.set_depth cur (before ++ raw :: after)
  = Fixed.set_depth cur (before ++ "" :: after).
Proof.
  intros H2 H4. unfold Fixed.set_depth.
  rewrite (look_ahead_blank raw 4 before after H2 H4). reflexivity.
Qed.

Lemma scan_blank raw before : forall after cur tcs,
  quiet_line (strip raw) ->
  search_completed (strip raw) = None ->
  Fixed.scan (before ++ raw :: after) cur tcs
  = Fixed.scan (before ++ "" :: after) cur tcs.
Proof.
  induction before as [|l before IH]; intros after cur tcs Q Hs;
    cbn [app Fixed.scan].
  - rewrite (dispatch_quiet_unmatched _ _ _ Q Hs), dispatch_blank. reflexivity.
  - destruct (Fixed.dispatch (strip l) cur tcs) as [st|e]; cbn [bind]; [|reflexivity].
    destruct Q as (Q1 & Q2 & Q3 & Q4 & Q5 & Q6).
    rewrite (set_depth_blank raw (fst st) before after Q4 Q5).
    apply IH; [repeat split; assumption|exact Hs].
Qed.

(** What both parsers return on the log with the unmatched line: the
    two good times, and nothing else. *)
Lemma parsers_on_unmatched_line :
  Correct.parse_performance_data unmatched_line_log
  = Return [mkCase "TMA No Swizzling" false "1X"
                   [Prim2SF 1%float; Prim2SF 2%float]]
  /\ Fixed.parse_performance_data unmatched_line_log
     = Return [mkCase "TMA No Swizzling" false (Some "1X")
                      [Prim2SF 1%float; Prim2SF 2%float]].
Proof. split; vm_compute; reflexivity. Qed.

(** Against C7 as stated: no error is recorded.  On a log with the
    line [Trial 2: Completed in fast], each script returns the same
    test cases, prints the same summary and draws the same bars as on
    the log where that line is blank. *)
Lemma unmatched_line_leaves_no_trace :
  ~ leaves_a_trace Correct.main unmatched_line_log blanked_line_log
  /\ ~ leaves_a_trace Fixed.main unmatched_line_log blanked_line_log
  /\ ~ leaves_a_trace Correct.parse_performance_data
                      unmatched_line_log blanked_line_log
  /\ ~ leaves_a_trace Fixed.parse_performance_data
                      unmatched_line_log blanked_line_log.
Proof.
  unfold leaves_a_trace.
  repeat split; intros H; apply H; vm_compute; reflexivity.
Qed.

(** A token of digits and dots that is not a number is matched by the
    regular expression and refused by [float]: the run stops with
    [ValueError] in the three scripts. *)
Lemma malformed_token_aborts :
  search_completed "Trial 2: Completed in 1.2.3ms" = Some "1.2.3"
  /\ python_float "1.2.3" = Raise ValueError
  /\ Correct.main malformed_token_log = Raise ValueError
  /\ Fixed.main malformed_token_log = Raise ValueError
  /\ Manual.main malformed_range_log = Raise ValueError.
Proof. repeat split; vm_compute; reflexivity. Qed.

(** ** The five fixed ranges of the line-range script *)

Lemma python_float_raises e tok :
  python_float tok = Raise e -> e = ValueError.
Proof.
  unfold python_float. destruct (_ && _); intros H; inversion H. reflexivity.
Qed.

Lemma append_time_outcome line ts :
  (exists ts', append_time line ts = Return ts')
  \/ append_time line ts = Raise ValueError.
Proof.
  unfold append_time. destruct (search_completed line) as [tok|]; [|eauto].
  destruct (python_float tok) as [t|e] eqn:E; cbn [bind]; [eauto|].
  right. rewrite (python_float_raises _ _ E). reflexivity.
Qed.

Lemma append_time_convertible line ts :
  convertible line -> exists ts', append_time line ts = Return ts'.
Proof.
  intros H. unfold append_time.
  destruct (search_completed line) as [tok|] eqn:E; [|eauto].
  destruct (H tok E) as [t ->]. cbn [bind]. eauto.
Qed.

Lemma range_loop_outcome lines indices : forall ts,
  (exists ts', Manual.range_loop lines indices ts = Return ts')
  \/ Manual.range_loop lines indices ts = Raise ValueError.
Proof.
  induction indices as [|i indices IH]; intros ts; cbn [Manual.range_loop];
    [eauto|].
  destruct (nth_error lines i) as [line|]; [|apply IH].
  destruct (_ && _); [|apply IH].
  destruct (append_time_outcome line ts) as [[ts' ->]| ->]; cbn [bind];
    [apply IH|auto].
Qed.

Lemma range_loop_convertible lines indices : forall ts,
  (forall line, In line lines -> convertible line) ->
  exists ts', Manual.range_loop lines indices ts = Return ts'.
Proof.
  induction indices as [|i indices IH]; intros ts H; cbn [Manual.range_loop];
    [eauto|].
  destruct (nth_error lines i) as [line|] eqn:E; [|apply IH, H].
  destruct (_ && _); [|apply IH, H].
  destruct (append_time_convertible line ts) as [ts' ->];
    [apply H; eapply nth_error_In; exact E|].
  cbn [bind]. apply IH, H.
Qed.

Lemma range_loop_same lines lines' indices : forall ts,
  (forall i, In i indices -> nth_error lines i = nth_error lines' i) ->
  Manual.range_loop lines indices ts = Manual.range_loop lines' indices ts.
Proof.
  induction indices as [|i indices IH]; intros ts H; cbn [Manual.range_loop];
    [reflexivity|].
  rewrite <- (H i) by (left; reflexivity).
  assert (H' : forall j, In j indices -> nth_error lines j = nth_error lines' j)
    by (intros j Hj; apply H; right; exact Hj).
  destruct (nth_error lines i) as [line|]; [|apply IH, H'].
  destruct (_ && _); [|apply IH, H'].
  destruct (append_time line ts); cbn [bind]; [apply IH, H'|reflexivity].
Qed.


(** On a file with no malformed token it returns them. *)
Lemma manual_returns_five_cases :
  forall content,
    (forall line, In line (readlines content) -> convertible line) ->
    exists t1 t2 t3 t4 t5,
      Manual.parse_performance_data content
      = Return (five_cases t1 t2 t3 t4 t5).
Proof.
  intros content H. unfold Manual.parse_performance_data, Manual.parse_lines,
    Manual.range_times.
  revert H. generalize (readlines content). intros lines H.
  destruct (range_loop_convertible lines (seq 4 10) [] H) as [t1 ->]. cbn [bind].
  destruct (range_loop_convertible lines (seq 18 10) [] H) as [t2 ->]. cbn [bind].
  destruct (range_loop_convertible lines (seq 32 10) [] H) as [t3 ->]. cbn [bind].
  destruct (range_loop_convertible lines (seq 46 10) [] H) as [t4 ->]. cbn [bind].
  destruct (range_loop_convertible lines (seq 60 10) [] H) as [t5 ->]. cbn [bind].
  exists t1, t2, t3, t4, t5. reflexivity.
Qed.

(** Only the lines at indices 4-13, 18-27, 32-41, 46-55 and 60-69 are
    read. *)
Lemma manual_reads_only_its_ranges :
  forall lines lines',
    (forall i, in_ranges i -> nth_error lines i = nth_error lines' i) ->
    Manual.parse_lines lines = Manual.parse_lines lines'.
Proof.
  intros lines lines' H. unfold Manual.parse_lines, Manual.range_times.
  rewrite (range_loop_same lines lines' (seq 4 10)),
          (range_loop_same lines lines' (seq 18 10)),
          (range_loop_same lines lines' (seq 32 10)),
          (range_loop_same lines lines' (seq 46 10)),
          (range_loop_same lines lines' (seq 60 10)); [reflexivity| | | | |];
    intros i Hi; apply in_seq in Hi; apply H; unfold in_ranges; lia.
Qed.

(** The times may all be empty: an empty file gives five cases without
    times. *)
Lemma manual_on_empty_file :
  Manual.parse_performance_data "" = Return (five_cases [] [] [] [] []).
Proof. reflexivity. Qed.

(** C10, at the failing input.  On a file whose line of index 4 is
    [Trial 1: Completed in 1.2.3ms], the line-range parser returns no
    list at all: the token is matched, [float] refuses it, and the run
    stops with [ValueError]. *)
Theorem manual_aborts_on_malformed_range :
  nth_error (readlines malformed_range_log) 4
  = Some (String.append "Trial 1: Completed in 1.2.3ms" (String LF ""))
  /\ Manual.parse_performance_data malformed_range_log = Raise ValueError.
Proof. split; vm_compute; reflexivity. Qed.

(** ** Sections with and without a depth marker *)

(** How the regular expression splits the marked section: the text
    before the header, the header, and one piece that holds the marker
    and the trials together. *)
Lemma split_of_marked_section :
  re_split_copy_with marked_section_log
  = [ "";
      "Copy with TMA Multicast load and store";
      String LF (text_of_lines [ "Deep copy 2X";
                                 "Trial 1: Completed in 1.0ms";
                                 "Success" ]) ].
Proof. vm_compute. reflexivity. Qed.

(** C1, at the failing input.  On a multicast section made of the
    header, the marker [Deep copy 2X], one trial line and [Success],
    the regex parser returns no test case: the piece after the header
    holds the marker, so the branch that records the depth is taken and
    the branch that reads the trials is not.  The line-scanning parser
    returns the case with its one time. *)
Theorem correct_drops_marked_section :
  Correct.parse_performance_data marked_section_log = Return []
  /\ Fixed.parse_performance_data marked_section_log
     = Return [mkCase "TMA Multicast" true (Some "2X") [Prim2SF 1%float]].
Proof. split; vm_compute; reflexivity. Qed.

(** C3, at the failing input.  On a multicast section with no depth
    marker, the line-scanning parser returns a case whose depth is
    [None], printed [(None)], not the string [Unknown]; the regex
    parser returns [Unknown]. *)
Theorem fixed_leaves_depth_unset :
  Fixed.parse_performance_data unmarked_section_log
  = Return [mkCase "TMA Multicast" true None [Prim2SF 1%float]]
  /\ (exists out bars,
         Fixed.main unmarked_section_log = Return (out, bars)
         /\ In (String LF "TMA Multicast (None)") out)
  /\ Correct.parse_performance_data unmarked_section_log
     = Return [mkCase "TMA Multicast" true "Unknown" [Prim2SF 1%float]].
Proof.
  split; [vm_compute; reflexivity|]. split; [|vm_compute; reflexivity].
  eexists _, _. split; [vm_compute; reflexivity|]. simpl. auto.
Qed.

(** ** The depths the parsers can return *)

(** *** The line-scanning script *)

Lemma look_ahead_values window d :
  Fixed.look_ahead window = Some d -> d = "2X" \/ d = "4X".
Proof.
  induction window as [|l window IH]; cbn [Fixed.look_ahead]; [discriminate|].
  destruct (str_in "Deep copy 2X" (strip l)); [intros H; inversion H; auto|].
  destruct (str_in "Deep copy 4X" (strip l)); [intros H; inversion H; auto|].
  exact IH.
Qed.

Lemma dispatch_depths line cur tcs st :
  fixed_current_ok cur -> Forall fixed_case_ok tcs ->
  Fixed.dispatch line cur tcs = Return st ->
  fixed_current_ok (fst st) /\ Forall fixed_case_ok (snd st).
Proof.
  intros Hc Ht. unfold Fixed.dispatch.
  destruct (str_in Fixed.header_no_swizzling line);
    [intros H; inversion H; split; [left; reflexivity|exact Ht]|].
  destruct (str_in Fixed.header_multicast line);
    [intros H; inversion H; split; [do 3 right; reflexivity|exact Ht]|].
  destruct (str_in Fixed.header_no_multicast line);
    [intros H; inversion H; split; [do 3 right; reflexivity|exact Ht]|].
  destruct cur as [c|]; [|intros H; inversion H; split; assumption].
  destruct (startswith line "Trial" && str_in "Completed in" line).
  - destruct (append_time line (times c)) as [ts|e]; cbn [bind];
      intros H; inversion H. split; [exact Hc|exact Ht].
  - destruct (startswith line "Success" && nonempty (times c));
      intros H; inversion H; cbn [fst snd].
    + split; [exact I|]. apply Forall_app. split; [exact Ht|].
      constructor; [exact Hc|constructor].
    + split; assumption.
Qed.

Lemma set_depth_depths cur following :
  fixed_current_ok cur -> fixed_current_ok (Fixed.set_depth cur following).
Proof.
  intros H. unfold Fixed.set_depth. destruct cur as [c|]; [|exact I].
  destruct (deep_copy c); [exact H|].
  destruct (Fixed.look_ahead (firstn 4 following)) as [d|] eqn:E; [|exact H].
  destruct (look_ahead_values _ _ E) as [-> | ->];
    [right; left; reflexivity|right; right; left; reflexivity].
Qed.

Lemma scan_depths lines : forall cur tcs out,
  fixed_current_ok cur -> Forall fixed_case_ok tcs ->
  Fixed.scan lines cur tcs = Return out ->
  Forall fixed_case_ok out.
Proof.
  induction lines as [|raw lines IH]; intros cur tcs out Hc Ht;
    cbn [Fixed.scan].
  - intros H; inversion H; subst. exact Ht.
  - destruct (Fixed.dispatch (strip raw) cur tcs) as [st|e] eqn:E;
      cbn [bind]; [|discriminate].
    destruct (dispatch_depths _ _ _ _ Hc Ht E) as [Hc' Ht'].
    apply IH; [apply set_depth_depths, Hc'|exact Ht'].
Qed.

(** Every case the line-scanning parser returns has depth [1X], [2X],
    [4X] or [None]: the string [Unknown] never appears. *)
Lemma fixed_depth_is_never_Unknown :
  forall content cases c,
    Fixed.parse_performance_data content = Return cases ->
    In c cases ->
    fixed_depth (deep_copy c) /\ deep_copy c <> Some "Unknown".
Proof.
  intros content cases c H Hin.
  assert (F : Forall fixed_case_ok cases).
  { apply (scan_depths (readlines content) None [] cases);
      [exact I|constructor|exact H]. }
  rewrite Forall_forall in F. specialize (F c Hin).
  split; [exact F|].
  destruct F as [E|[E|[E|E]]]; rewrite E; discriminate.
Qed.

(** *** The regex script *)

Lemma rev_string_acc s : forall acc,
  rev_string acc s = String.append (rev_string "" s) acc.
Proof.
  induction s as [|c s IH]; intros acc; cbn [rev_string]; [reflexivity|].
  rewrite (IH (String c acc)), (IH (String c "")).
  generalize (rev_string "" s). intros r.
  induction r as [|x r IHr]; cbn [String.append]; [reflexivity|].
  rewrite IHr. reflexivity.
Qed.

Lemma append_empty_r s : String.append s "" = s.
Proof. induction s as [|c s IH]; simpl; [reflexivity|rewrite IH; reflexivity]. Qed.

Lemma append_assoc_string a b c :
  String.append (String.append a b) c = String.append a (String.append b c).
Proof. induction a as [|x a IH]; simpl; [reflexivity|rewrite IH; reflexivity]. Qed.

Lemma prefix_nil s : String.prefix "" s = true.
Proof. destruct s; reflexivity. Qed.

Lemma prefix_append p : forall a b,
  String.prefix p a = true -> String.prefix p (String.append a b) = true.
Proof.
  induction p as [|x p IH]; intros a b H; [apply prefix_nil|].
  destruct a as [|y a]; [discriminate|]. simpl in *.
  destruct (ascii_dec x y) as [E|E]; [|discriminate]. apply IH, H.
Qed.

Lemma prefix_of_empty p : String.prefix p "" = true -> p = "".
Proof. destruct p; [reflexivity|discriminate]. Qed.

Lemma prefix_of_lf p s :
  no_lf p = true -> String.prefix p (String LF s) = true -> p = "".
Proof.
  destruct p as [|x p]; [reflexivity|]. unfold no_lf. simpl.
  destruct (ascii_dec x LF) as [E|E]; [|discriminate].
  subst x. simpl. discriminate.
Qed.

Lemma prefix_step x p c s :
  String.prefix (String x p) (String c s) = true ->
  x = c /\ String.prefix p s = true.
Proof.
  simpl. destruct (ascii_dec x c) as [E|E]; [auto|discriminate].
Qed.

(** The two modes of the splitter, together. *)
Lemma re_split_go_alternating s :
  (forall cur, alternating (re_split_go false cur s))
  /\ (forall cur need,
         String.prefix need s = true ->
         no_lf need = true ->
         String.prefix "Copy with"
           (String.append (rev_string "" cur) need) = true ->
         exists header rest,
           re_split_go true cur s = header :: rest
           /\ startswith header "Copy with" = true
           /\ alternating rest).
Proof.
  induction s as [|c s [IHtext IHheader]].
  - split.
    + intros cur. constructor.
    + intros cur need Hp _ Hc. apply prefix_of_empty in Hp. subst need.
      rewrite append_empty_r in Hc.
      eexists _, _. split; [reflexivity|]. split; [exact Hc|constructor].
  - split.
    + intros cur. cbn [re_split_go].
      destruct (startswith (String c s) "Copy with") eqn:E; [|apply IHtext].
      unfold startswith in E. apply prefix_step in E. destruct E as [<- E].
      destruct (IHheader (String "C" "") "opy with" E eq_refl eq_refl)
        as (header & rest & -> & Hh & Hr).
      constructor; assumption.
    + intros cur need Hp Hn Hc. cbn [re_split_go].
      destruct (Ascii.eqb c LF) eqn:E.
      * apply Ascii.eqb_eq in E. subst c.
        apply (prefix_of_lf _ _ Hn) in Hp. subst need.
        rewrite append_empty_r in Hc.
        eexists _, _. split; [reflexivity|]. split; [exact Hc|apply IHtext].
      * destruct need as [|x need].
        -- apply (IHheader (String c cur) ""); [apply prefix_nil|reflexivity|].
           cbn [rev_string]. rewrite rev_string_acc, append_assoc_string.
           rewrite append_empty_r in Hc. apply prefix_append, Hc.
        -- apply prefix_step in Hp. destruct Hp as [<- Hp].
           apply (IHheader (String x cur) need); [exact Hp| |].
           ++ unfold no_lf in *. simpl in Hn.
              apply andb_true_iff in Hn. apply Hn.
           ++ cbn [rev_string]. rewrite rev_string_acc, append_assoc_string.
              exact Hc.
Qed.

(** What [re.split] returns alternates texts and headers. *)
Lemma re_split_alternating content :
  alternating (re_split_copy_with content).
Proof. apply re_split_go_alternating. Qed.

Lemma classify_depths header name multicast depth :
  Correct.classify header None = Some (name, multicast, depth) ->
  correct_depth depth.
Proof.
  unfold Correct.classify.
  destruct (str_in "no swizzling" header);
    [intros H; inversion H; left; reflexivity|].
  destruct (str_in "Multicast" header && negb (str_in "NO multicast" header));
    [intros H; inversion H; right; reflexivity|].
  destruct (str_in "NO multicast" header);
    [intros H; inversion H; right; reflexivity|discriminate].
Qed.

(** A piece read when no depth is remembered adds only cases of depth
    [1X] or [Unknown]. *)
Lemma step_text_depths st section st' :
  Correct.current_deep_copy st = None ->
  correct_cases_ok st ->
  Correct.step st section = Return st' ->
  correct_cases_ok st'.
Proof.
  intros Hd Hok. unfold Correct.step.
  destruct (startswith section "Copy with");
    [intros H; inversion H; exact Hok|].
  destruct (str_in "Deep copy 2X" section);
    [intros H; inversion H; exact Hok|].
  destruct (str_in "Deep copy 4X" section);
    [intros H; inversion H; exact Hok|].
  destruct (Correct.truthy (Correct.current_section st) && str_in "Trial" section);
    [|intros H; inversion H; subst; exact Hok].
  destruct (Correct.extract_times (split_lf section) []) as [ts|e];
    cbn [bind]; [|discriminate].
  destruct (nonempty ts); [|intros H; inversion H; subst; exact Hok].
  rewrite Hd.
  destruct (Correct.classify _ None) as [[[name multicast] depth]|] eqn:E;
    intros H; inversion H; subst; [|exact Hok].
  unfold correct_cases_ok. cbn [Correct.test_cases].
  apply Forall_app. split; [exact Hok|].
  constructor; [|constructor]. cbn [deep_copy].
  eapply classify_depths, E.
Qed.

Lemma step_header_forgets st header :
  startswith header "Copy with" = true ->
  Correct.step st header
  = Return (Correct.mkState (Some (strip header)) None (Correct.test_cases st)).
Proof. intros H. unfold Correct.step. rewrite H. reflexivity. Qed.

Lemma loop_depths sections :
  alternating sections ->
  forall st st',
    Correct.current_deep_copy st = None ->
    correct_cases_ok st ->
    Correct.loop sections st = Return st' ->
    correct_cases_ok st'.
Proof.
  induction 1 as [text|text header rest Hh _ IH]; intros st st' Hd Hok;
    cbn [Correct.loop].
  - destruct (Correct.step st text) as [st1|e] eqn:E; cbn [bind]; [|discriminate].
    intros H; inversion H; subst. eapply step_text_depths; eassumption.
  - destruct (Correct.step st text) as [st1|e] eqn:E; cbn [bind]; [|discriminate].
    rewrite (step_header_forgets st1 header Hh). cbn [bind].
    apply IH; [reflexivity|].
    change (correct_cases_ok st1).
    eapply step_text_depths; eassumption.
Qed.

(** Every case the regex parser returns has depth [1X] or [Unknown]:
    the depth of a marker is never used, because each header that
    starts a section forgets it. *)
Lemma correct_depth_is_1X_or_Unknown :
  forall content cases c,
    Correct.parse_performance_data content = Return cases ->
    In c cases ->
    correct_depth (deep_copy c).
Proof.
  intros content cases c. unfold Correct.parse_performance_data.
  destruct (Correct.loop (re_split_copy_with content)
                         (Correct.mkState None None [])) as [st|e] eqn:E;
    cbn [bind]; [|discriminate].
  intros H Hin. inversion H; subst.
  assert (F : correct_cases_ok st).
  { apply (loop_depths _ (re_split_alternating content)
                       (Correct.mkState None None []) st);
      [reflexivity|constructor|exact E]. }
  unfold correct_cases_ok in F. rewrite Forall_forall in F. apply F, Hin.
Qed.

(** ** A well-formed section in the line-scanning script *)

Lemma dispatch_harmless line cur tcs :
  convertible line ->
  exists cur' extra,
    Fixed.dispatch line cur tcs = Return (cur', (tcs ++ extra)%list).
Proof.
  intros H. unfold Fixed.dispatch.
  destruct (str_in Fixed.header_no_swizzling line);
    [exists (Some (mkCase "TMA No Swizzling" false (Some "1X") [])), [];
     rewrite app_nil_r; reflexivity|].
  destruct (str_in Fixed.header_multicast line);
    [exists (Some (mkCase "TMA Multicast" true None [])), [];
     rewrite app_nil_r; reflexivity|].
  destruct (str_in Fixed.header_no_multicast line);
    [exists (Some (mkCase "TMA No Multicast" false None [])), [];
     rewrite app_nil_r; reflexivity|].
  destruct cur as [c|]; [|exists None, []; rewrite app_nil_r; reflexivity].
  destruct (startswith line "Trial" && str_in "Completed in" line).
  - destruct (append_time_convertible line (times c) H) as [ts ->].
    cbn [bind]. eexists _, []. rewrite app_nil_r. reflexivity.
  - destruct (startswith line "Success" && nonempty (times c)).
    + eexists _, _. reflexivity.
    + eexists _, []. rewrite app_nil_r. reflexivity.
Qed.

(** Harmless lines are read without stopping, and only add cases. *)
Lemma scan_harmless pre : forall rest cur tcs,
  Forall harmless pre ->
  exists cur' extra,
    Fixed.scan (pre ++ rest) cur tcs
    = Fixed.scan rest cur' (tcs ++ extra)%list.
Proof.
  induction pre as [|raw pre IH]; intros rest cur tcs H; cbn [app].
  - exists cur, []. rewrite app_nil_r. reflexivity.
  - inversion H as [|? ? Hraw Hpre]; subst. cbn [Fixed.scan].
    destruct (dispatch_harmless (strip raw) cur tcs Hraw) as (cur1 & extra1 & ->).
    cbn [bind fst snd].
    destruct (IH rest (Fixed.set_depth cur1 (pre ++ rest)%list)
                 (tcs ++ extra1)%list Hpre) as (cur2 & extra2 & ->).
    exists cur2, (extra1 ++ extra2)%list. rewrite app_assoc. reflexivity.
Qed.

Lemma set_depth_current nm mc ts cur following :
  current_is nm mc ts cur ->
  current_is nm mc ts (Fixed.set_depth cur following).
Proof.
  intros [d ->]. unfold Fixed.set_depth. cbn [deep_copy].
  destruct d as [d|]; [exists (Some d); reflexivity|].
  destruct (Fixed.look_ahead (firstn 4 following)) as [d|];
    [exists (Some d)|exists None]; reflexivity.
Qed.

Lemma dispatch_header raw nm mc d0 cur tcs :
  header_line raw nm mc d0 ->
  Fixed.dispatch (strip raw) cur tcs
  = Return (Some (mkCase nm mc d0 []), tcs).
Proof.
  unfold header_line, Fixed.dispatch.
  intros [(H1 & -> & -> & ->)|[(H1 & H2 & -> & -> & ->)
                              |(H1 & H2 & H3 & -> & -> & ->)]].
  - rewrite H1. reflexivity.
  - rewrite H1, H2. reflexivity.
  - rewrite H1, H2, H3. reflexivity.
Qed.

Lemma dispatch_marker raw c tcs :
  marker_line raw ->
  Fixed.dispatch (strip raw) (Some c) tcs = Return (Some c, tcs).
Proof.
  intros ((H1 & H2 & H3) & HT & HS). unfold Fixed.dispatch.
  rewrite H1, H2, H3, HT, HS. reflexivity.
Qed.

Lemma dispatch_trial raw t c tcs :
  trial_line raw t ->
  Fixed.dispatch (strip raw) (Some c) tcs
  = Return (Some (Fixed.with_times c (times c ++ [t])%list), tcs).
Proof.
  intros ((H1 & H2 & H3) & HT & HC & tok & Hs & Hf). unfold Fixed.dispatch.
  rewrite H1, H2, H3, HT, HC. cbn [andb]. unfold append_time.
  rewrite Hs, Hf. reflexivity.
Qed.

Lemma dispatch_success raw c tcs :
  success_line raw ->
  times c <> [] ->
  Fixed.dispatch (strip raw) (Some c) tcs = Return (None, (tcs ++ [c])%list).
Proof.
  intros ((H1 & H2 & H3) & HT & HS) Hne. unfold Fixed.dispatch.
  rewrite H1, H2, H3, HT, HS.
  destruct (times c); [contradiction|reflexivity].
Qed.

Lemma scan_markers markers : forall rest nm mc ts cur tcs,
  Forall marker_line markers ->
  current_is nm mc ts cur ->
  exists cur',
    current_is nm mc ts cur'
    /\ Fixed.scan (markers ++ rest) cur tcs = Fixed.scan rest cur' tcs.
Proof.
  induction markers as [|raw markers IH]; intros rest nm mc ts cur tcs H Hc;
    cbn [app].
  - exists cur. split; [exact Hc|reflexivity].
  - inversion H as [|? ? Hraw Hm]; subst. cbn [Fixed.scan].
    destruct Hc as [d ->]. rewrite (dispatch_marker raw _ tcs Hraw).
    cbn [bind fst snd]. apply IH; [exact Hm|].
    apply set_depth_current. exists d. reflexivity.
Qed.

Lemma scan_trials trials : forall new rest nm mc ts cur tcs,
  Forall2 trial_line trials new ->
  current_is nm mc ts cur ->
  exists cur',
    current_is nm mc (ts ++ new)%list cur'
    /\ Fixed.scan (trials ++ rest) cur tcs = Fixed.scan rest cur' tcs.
Proof.
  induction trials as [|raw trials IH]; intros new rest nm mc ts cur tcs H Hc;
    inversion H as [|? t ? new' Hraw Ht]; subst; cbn [app].
  - exists cur. rewrite app_nil_r. split; [exact Hc|reflexivity].
  - cbn [Fixed.scan]. destruct Hc as [d ->].
    rewrite (dispatch_trial raw t _ tcs Hraw). cbn [bind fst snd times].
    destruct (IH new' rest nm mc (ts ++ [t])%list
                 (Fixed.set_depth
                    (Some (Fixed.with_times (mkCase nm mc d ts) (ts ++ [t])%list))
                    (trials ++ rest)%list) tcs Ht) as (cur' & Hc' & ->).
    + apply set_depth_current. exists d. reflexivity.
    + exists cur'. split; [|reflexivity].
      rewrite <- app_assoc in Hc'. exact Hc'.
Qed.

(** The line-scanning parser on a file that holds a well-formed
    section: a recognised header, lines such as a depth marker, [K]
    trial lines with valid numbers ([K >= 1]) and a [Success] line.
    When no other line of the file holds a malformed token, the parse
    returns a list that holds the case of the section with exactly
    the [K] times of its trial lines, in order. *)
Lemma fixed_reads_the_trials_of_a_section :
  forall pre header markers trials success post nm mc d0 ts,
    Forall harmless pre ->
    Forall harmless post ->
    header_line header nm mc d0 ->
    Forall marker_line markers ->
    Forall2 trial_line trials ts ->
    ts <> [] ->
    success_line success ->
    exists before after depth,
      Fixed.parse_lines
        (pre ++ header :: markers ++ trials ++ success :: post)%list
      = Return (before ++ mkCase nm mc depth ts :: after)%list
      /\ List.length (times (mkCase nm mc depth ts)) = List.length trials.
Proof.
  intros pre header markers trials success post nm mc d0 ts
         Hpre Hpost Hh Hm Ht Hne Hs.
  unfold Fixed.parse_lines.
  destruct (scan_harmless pre (header :: markers ++ trials ++ success :: post)%list
                          None [] Hpre) as (cur0 & before & ->).
  cbn [app Fixed.scan]. rewrite (dispatch_header header nm mc d0 _ _ Hh).
  cbn [bind fst snd].
  destruct (scan_markers markers (trials ++ success :: post)%list nm mc []
              (Fixed.set_depth (Some (mkCase nm mc d0 []))
                 (markers ++ trials ++ success :: post)%list) before Hm)
    as (cur1 & Hc1 & ->).
  { apply set_depth_current. exists d0. reflexivity. }
  destruct (scan_trials trials ts (success :: post) nm mc [] cur1 before Ht Hc1)
    as (cur2 & [d ->] & ->).
  cbn [app Fixed.scan].
  rewrite (dispatch_success success _ before Hs) by exact Hne.
  cbn [bind fst snd Fixed.set_depth].
  destruct (scan_harmless post [] None (before ++ [mkCase nm mc d ts])%list Hpost)
    as (cur3 & after & E).
  rewrite app_nil_r in E. rewrite E. cbn [Fixed.scan].
  exists before, after, d. split.
  - rewrite <- app_assoc. reflexivity.
  - cbn [times]. symmetry. eapply Forall2_length, Ht.
Qed.

(** The lines of the specification are such lines. *)
Lemma lines_of_the_format :
  header_line "Copy with TMA load and store -- no swizzling"
              "TMA No Swizzling" false (Some "1X")
  /\ header_line "Copy with TMA Multicast load and store"
                 "TMA Multicast" true None
  /\ header_line "Copy with TMA load and store, NO multicast"
                 "TMA No Multicast" false None
  /\ marker_line "Deep copy 2X" /\ marker_line "Deep copy 4X"
  /\ trial_line "Trial 1: Completed in 1.0ms" (Prim2SF 1%float)
  /\ success_line "Success".
Proof.
  split; [left; repeat split; reflexivity|].
  split; [right; left; repeat split; reflexivity|].
  split; [right; right; repeat split; reflexivity|].
  split; [repeat split; reflexivity|].
  split; [repeat split; reflexivity|].
  split; [|repeat split; reflexivity].
  split; [repeat split; reflexivity|].
  split; [reflexivity|]. split; [reflexivity|].
  exists "1.0". split; vm_compute; reflexivity.
Qed.

(** ** A trial line without a match, in the whole parse *)

(** *** Patterns without a line feed *)

Lemma prefix_before_lf p : forall s r,
  no_lf p = true ->
  String.prefix p (String.append s (String LF r)) = String.prefix p s.
Proof.
  induction p as [|x p IH]; intros s r H.
  - rewrite !prefix_nil. reflexivity.
  - unfold no_lf in H. cbn [all_chars] in H. apply andb_prop in H.
    destruct H as [Hx Hp]. destruct s as [|c s]; cbn [String.append String.prefix].
    + destruct (ascii_dec x LF) as [E|_]; [|reflexivity].
      subst x. discriminate Hx.
    + destruct (ascii_dec x c); [apply IH, Hp|reflexivity].
Qed.

Lemma str_in_empty p : str_in p "" = String.prefix p "".
Proof. cbn [str_in]. destruct (String.prefix p ""); reflexivity. Qed.

Lemma str_in_lf p s : forall r,
  no_lf p = true ->
  str_in p (String.append s (String LF r)) = str_in p s || str_in p r.
Proof.
  induction s as [|c s IH]; intros r H.
  - pose proof (prefix_before_lf p "" r H) as E.
    cbn [String.append] in *. cbn [str_in]. rewrite E.
    destruct (String.prefix p ""); reflexivity.
  - cbn [String.append]. cbn [str_in].
    change (String c (String.append s (String LF r)))
      with (String.append (String c s) (String LF r)).
    rewrite (prefix_before_lf p (String c s) r H), (IH r H).
    destruct (String.prefix p (String c s)); reflexivity.
Qed.

Lemma split_lf_nonempty s : split_lf s <> [].
Proof.
  destruct s as [|c s]; cbn [split_lf]; [discriminate|].
  destruct (Ascii.eqb c LF); [discriminate|].
  destruct (split_lf s); discriminate.
Qed.

Lemma split_lf_lf s : forall r,
  split_lf (String.append s (String LF r)) = (split_lf s ++ split_lf r)%list.
Proof.
  induction s as [|c s IH]; intros r; cbn [String.append split_lf].
  - rewrite Ascii.eqb_refl. reflexivity.
  - rewrite IH. destruct (Ascii.eqb c LF); [reflexivity|].
    destruct (split_lf s) as [|h t] eqn:E; [destruct (split_lf_nonempty s E)|].
    reflexivity.
Qed.

Lemma split_lf_no_lf s : no_lf s = true -> split_lf s = [s].
Proof.
  unfold no_lf. induction s as [|c s IH]; cbn [all_chars split_lf]; intros H;
    [reflexivity|].
  apply andb_prop in H. destruct H as [Hc Hs].
  destruct (Ascii.eqb c LF); [discriminate Hc|]. rewrite (IH Hs). reflexivity.
Qed.

(** The first line of a text is a prefix of it. *)
Lemma split_lf_head s : forall h t,
  split_lf s = h :: t ->
  s = h \/ exists r, s = String.append h (String LF r).
Proof.
  induction s as [|c s IH]; intros h t; cbn [split_lf].
  - intros H. inversion H. left. reflexivity.
  - destruct (Ascii.eqb_spec c LF) as [->|_].
    + intros H. inversion H. right. exists s. reflexivity.
    + destruct (split_lf s) as [|h' t'] eqn:E;
        [destruct (split_lf_nonempty s E)|].
      specialize (IH h' t' eq_refl). intros H. inversion H; subst.
      destruct IH as [->|[r ->]];
        [left; reflexivity|right; exists r; reflexivity].
Qed.

(** A pattern without a line feed is in a text when it is in one of its
    lines. *)
Lemma str_in_lines p :
  no_lf p = true ->
  forall s, str_in p s = existsb (str_in p) (split_lf s).
Proof.
  intros H. induction s as [|c s IH].
  - cbn [split_lf existsb]. rewrite orb_false_r. reflexivity.
  - cbn [split_lf]. destruct (Ascii.eqb_spec c LF) as [->|_].
    + cbn [existsb]. rewrite <- IH.
      apply (str_in_lf p "" s H).
    + destruct (split_lf s) as [|h t] eqn:E;
        [destruct (split_lf_nonempty s E)|].
      cbn [existsb] in *. cbn [str_in]. rewrite IH.
      assert (P : String.prefix p (String c s) = String.prefix p (String c h)).
      { destruct (split_lf_head s h t E) as [->|[r ->]]; [reflexivity|].
        apply (prefix_before_lf p (String c h) r H). }
      rewrite P. destruct (String.prefix p (String c h)); reflexivity.
Qed.

Lemma extract_times_no_trial lines : forall ts,
  existsb (str_in "Trial") lines = false ->
  Correct.extract_times lines ts = Return ts.
Proof.
  induction lines as [|l lines IH]; intros ts H; cbn [Correct.extract_times];
    [reflexivity|].
  cbn [existsb] in H. apply orb_false_elim in H. destruct H as [Hl Hr].
  rewrite Hl. cbn [andb]. apply IH, Hr.
Qed.

(** *** The pieces of the split around a line *)

Lemma rev_string_snoc cur c :
  rev_string "" (String c cur)
  = String.append (rev_string "" cur) (String c "").
Proof. cbn [rev_string]. apply rev_string_acc. Qed.

Lemma rev_string_rev s : forall acc,
  rev_string "" (rev_string acc s)
  = String.append (rev_string "" acc) s.
Proof.
  induction s as [|c s IH]; intros acc; cbn [rev_string].
  - rewrite append_empty_r. reflexivity.
  - rewrite IH, rev_string_snoc, append_assoc_string. reflexivity.
Qed.

(** In a text, the piece being read ends where the next header starts:
    it is the piece read so far followed by a part [y] of the rest,
    and neither [y] nor the pieces after it depend on what was read. *)
Lemma re_split_go_first rest :
  exists y Q tail,
    rest = String.append y tail
    /\ String.prefix "Copy with" y = false
    /\ forall cur,
         re_split_go false cur rest
         = String.append (rev_string "" cur) y :: Q.
Proof.
  induction rest as [|c s IH].
  - exists "", [], "". split; [reflexivity|]. split; [reflexivity|].
    intros cur. cbn [re_split_go]. rewrite append_empty_r. reflexivity.
  - destruct (String.prefix "Copy with" (String c s)) eqn:B.
    + exists "", (re_split_go true (String c "") s), (String c s).
      split; [reflexivity|]. split; [reflexivity|].
      intros cur. cbn [re_split_go]. unfold startswith. rewrite B.
      rewrite append_empty_r. reflexivity.
    + destruct IH as (y & Q & tail & -> & Hy & IH).
      exists (String c y), Q, tail. split; [reflexivity|]. split.
      * destruct (String.prefix "Copy with" (String c y)) eqn:E; [|reflexivity].
        pose proof (prefix_append "Copy with" (String c y) tail E) as K.
        cbn [String.append] in K. rewrite K in B. discriminate B.
      * intros cur. cbn [re_split_go]. unfold startswith. rewrite B.
        rewrite IH, rev_string_snoc, append_assoc_string. reflexivity.
Qed.

(** The splitter over one line and its line feed: whatever the mode,
    it is in a text after the line feed, and the text being read does
    not start with [Copy with]. *)
Lemma re_split_go_line l : forall m cur,
  (m = false ->
   cur = ""
   \/ String.prefix "Copy with" (String.append (rev_string "" cur) l) = false) ->
  exists P cur',
    String.prefix "Copy with" (rev_string "" cur') = false
    /\ forall rest,
         re_split_go m cur (String.append l (String LF rest))
         = (P ++ re_split_go false (String LF cur') rest)%list.
Proof.
  induction l as [|c l IH]; intros m cur H.
  - destruct m.
    + exists [rev_string "" cur], "". split; [reflexivity|].
      intros rest. cbn [String.append re_split_go]. rewrite Ascii.eqb_refl.
      reflexivity.
    + exists [], cur. split.
      * destruct (H eq_refl) as [->|K]; [reflexivity|].
        rewrite append_empty_r in K. exact K.
      * intros rest. reflexivity.
  - destruct m.
    + destruct (Ascii.eqb c LF) eqn:E.
      * destruct (IH false (String c "")) as (P & cur' & K & R).
        { intros _. right. apply Ascii.eqb_eq in E. subst c. reflexivity. }
        exists (rev_string "" cur :: P), cur'. split; [exact K|].
        intros rest. cbn [String.append re_split_go]. rewrite E, R. reflexivity.
      * destruct (IH true (String c cur)) as (P & cur' & K & R);
          [discriminate|].
        exists P, cur'. split; [exact K|].
        intros rest. cbn [String.append re_split_go]. rewrite E, R. reflexivity.
    + assert (B : forall rest,
                 startswith (String c (String.append l (String LF rest)))
                            "Copy with"
                 = String.prefix "Copy with" (String c l)).
      { intros rest. apply (prefix_before_lf "Copy with" (String c l) rest).
        reflexivity. }
      destruct (String.prefix "Copy with" (String c l)) eqn:E.
      * destruct (IH true (String c "")) as (P & cur' & K & R);
          [discriminate|].
        exists (rev_string "" cur :: P), cur'. split; [exact K|].
        intros rest. cbn [String.append re_split_go]. rewrite B, R. reflexivity.
      * destruct (IH false (String c cur)) as (P & cur' & K & R).
        { intros _. right. rewrite rev_string_snoc, append_assoc_string.
          cbn [String.append].
          destruct (H eq_refl) as [->|K]; [exact E|exact K]. }
        exists P, cur'. split; [exact K|].
        intros rest. cbn [String.append re_split_go]. rewrite B, R. reflexivity.
Qed.

Lemma text_of_lines_cons l ls rest :
  String.append (text_of_lines (l :: ls)) rest
  = String.append l (String LF (String.append (text_of_lines ls) rest)).
Proof. cbn [text_of_lines]. rewrite append_assoc_string. reflexivity. Qed.

(** The splitter over whole lines, from the start of the file: what it
    has read of the piece it is in is empty, or ends at the last line
    feed and does not start with [Copy with]. *)
Lemma re_split_go_lines before : forall acc,
  (acc = ""
   \/ exists cur', acc = String LF cur'
                   /\ String.prefix "Copy with" (rev_string "" cur') = false) ->
  exists P acc',
    (acc' = ""
     \/ exists cur', acc' = String LF cur'
                     /\ String.prefix "Copy with" (rev_string "" cur') = false)
    /\ forall rest,
         re_split_go false acc (String.append (text_of_lines before) rest)
         = (P ++ re_split_go false acc' rest)%list.
Proof.
  induction before as [|l before IH]; intros acc H.
  - exists [], acc. split; [exact H|]. intros rest. reflexivity.
  - destruct (re_split_go_line l false acc) as (P & cur' & K & R).
    { intros _. destruct H as [->|(cur0 & -> & K0)]; [left; reflexivity|].
      right. rewrite rev_string_snoc, append_assoc_string.
      cbn [String.append].
      rewrite (prefix_before_lf "Copy with" (rev_string "" cur0) l eq_refl).
      exact K0. }
    destruct (IH (String LF cur')) as (P' & acc' & H' & R').
    { right. exists cur'. split; [reflexivity|exact K]. }
    exists (P ++ P')%list, acc'. split; [exact H'|].
    intros rest. rewrite text_of_lines_cons, R, R', app_assoc. reflexivity.
Qed.

(** Over a line that holds no [Copy with], the splitter only reads on. *)
Lemma re_split_go_plain_line line : forall acc rest,
  str_in "Copy with" line = false ->
  re_split_go false acc (String.append line (String LF rest))
  = re_split_go false (String LF (rev_string acc line)) rest.
Proof.
  induction line as [|c line IH]; intros acc rest H.
  - reflexivity.
  - cbn [str_in] in H.
    destruct (String.prefix "Copy with" (String c line)) eqn:E;
      [discriminate H|].
    cbn [String.append re_split_go rev_string].
    change (String c (String.append line (String LF rest)))
      with (String.append (String c line) (String LF rest)).
    unfold startswith.
    rewrite (prefix_before_lf "Copy with" (String c line) rest eq_refl), E.
    apply IH, H.
Qed.

Lemma correct_loop_app P : forall R st,
  Correct.loop (P ++ R) st
  = (st' <- Correct.loop P st ;; Correct.loop R st').
Proof.
  induction P as [|p P IH]; intros R st; cbn [app Correct.loop bind];
    [reflexivity|].
  destruct (Correct.step st p) as [st1|e]; cbn [bind]; [apply IH|reflexivity].
Qed.

(** One turn of the loop on the piece that holds the line and on the
    same piece without it. *)
Lemma correct_step_skips st text text' before line after :
  startswith text "Copy with" = false ->
  startswith text' "Copy with" = false ->
  str_in "Deep copy 2X" text = str_in "Deep copy 2X" text' ->
  str_in "Deep copy 4X" text = str_in "Deep copy 4X" text' ->
  str_in "Trial" text = true ->
  split_lf text = (before ++ line :: after)%list ->
  split_lf text' = (before ++ after)%list ->
  search_completed line = None ->
  Correct.step st text = Correct.step st text'.
Proof.
  intros S S' D2 D4 T L L' U. unfold Correct.step.
  rewrite S, S', D2, D4, T, L, L'.
  rewrite (correct_skips_unmatched_line before line after [] U).
  destruct (str_in "Deep copy 2X" text'); [reflexivity|].
  destruct (str_in "Deep copy 4X" text'); [reflexivity|].
  destruct (Correct.truthy (Correct.current_section st)); cbn [andb];
    [|destruct (str_in "Trial" text'); reflexivity].
  destruct (str_in "Trial" text') eqn:T'; [reflexivity|].
  rewrite (str_in_lines "Trial" eq_refl), L' in T'.
  rewrite (extract_times_no_trial _ [] T'). reflexivity.
Qed.

Lemma str_in_false_prefix p s :
  str_in p s = false -> String.prefix p s = false.
Proof.
  destruct s; cbn [str_in]; destruct (String.prefix p _); intros H;
    [discriminate H|reflexivity|discriminate H|reflexivity].
Qed.

(** The regex parser on a file with the line and on the file without
    it. *)
Lemma correct_parse_skips before line rest :
  str_in "Trial" line = true ->
  search_completed line = None ->
  plain_section_line line ->
  Correct.parse_performance_data (file_of before (line_then line rest))
  = Correct.parse_performance_data (file_of before rest).
Proof.
  intros HT HU (Hlf & HC & H2 & H4).
  unfold Correct.parse_performance_data, re_split_copy_with, file_of, line_then.
  destruct (re_split_go_lines before "" (or_introl eq_refl))
    as (P & acc' & Hacc & R).
  rewrite !R, (re_split_go_plain_line line acc' rest HC).
  destruct (re_split_go_first rest) as (y & Q & tail & _ & Hy & F).
  rewrite !F, !correct_loop_app.
  destruct (Correct.loop P (Correct.mkState None None [])) as [st|e];
    cbn [bind]; [|reflexivity].
  cbn [Correct.loop].
  rewrite rev_string_snoc, rev_string_rev, !append_assoc_string.
  cbn [String.append].
  assert (E : Correct.step st
                 (String.append (rev_string "" acc')
                    (String.append line (String LF y)))
               = Correct.step st (String.append (rev_string "" acc') y));
    [|rewrite E; reflexivity].
  pose proof (split_lf_no_lf line Hlf) as Hl.
  destruct Hacc as [->|(cur' & -> & K)].
  - cbn [rev_string String.append].
    apply (correct_step_skips st _ _ [] line (split_lf y)).
    + unfold startswith.
      rewrite (prefix_before_lf "Copy with" line y eq_refl).
      apply str_in_false_prefix, HC.
    + exact Hy.
    + rewrite (str_in_lf "Deep copy 2X" line y eq_refl), H2. reflexivity.
    + rewrite (str_in_lf "Deep copy 4X" line y eq_refl), H4. reflexivity.
    + rewrite (str_in_lf "Trial" line y eq_refl), HT. reflexivity.
    + rewrite split_lf_lf, Hl. reflexivity.
    + reflexivity.
    + exact HU.
  - rewrite rev_string_snoc, !append_assoc_string. cbn [String.append].
    set (x := rev_string "" cur') in *.
    apply (correct_step_skips st _ _ (split_lf x) line (split_lf y)).
    + unfold startswith.
      rewrite (prefix_before_lf "Copy with" x _ eq_refl). exact K.
    + unfold startswith.
      rewrite (prefix_before_lf "Copy with" x _ eq_refl). exact K.
    + rewrite !(str_in_lf "Deep copy 2X" _ _ eq_refl), H2. reflexivity.
    + rewrite !(str_in_lf "Deep copy 4X" _ _ eq_refl), H4. reflexivity.
    + rewrite !(str_in_lf "Trial" _ _ eq_refl), HT. apply orb_true_r.
    + rewrite !split_lf_lf, Hl. reflexivity.
    + rewrite split_lf_lf. reflexivity.
    + exact HU.
Qed.

(** C7, amended.  A line that holds [Trial] and [Completed in] but on
    which the regular expression finds no match is skipped in silence.
    In the regex script, when the line holds no [Copy with] and no
    depth marker, [parse_performance_data] returns on the file that
    holds the line what it returns on the file without the line; and
    the loop over the lines of a section gives the result it gives
    without the line.  In the line-scanning script, when the line
    holds no header, no depth marker and does not start with
    [Success], the whole parse gives the result it gives with the line
    left blank.  All the other lines are processed as before, and
    nothing about the line is kept. *)
Theorem unmatched_trial_line_is_skipped :
  forall line : string,
    unmatched_trial_line line ->
    (forall before rest,
        plain_section_line line ->
        Correct.parse_performance_data (file_of before (line_then line rest))
        = Correct.parse_performance_data (file_of before rest))
    /\ (forall before after ts,
           Correct.extract_times (before ++ line :: after) ts
           = Correct.extract_times (before ++ after) ts)
    /\ (forall raw before after,
           strip raw = line ->
           quiet_line line ->
           Fixed.parse_lines (before ++ raw :: after)
           = Fixed.parse_lines (before ++ "" :: after)).
Proof.
  intros line (HT & _ & Hs). split; [|split].
  - intros before rest Hp. apply correct_parse_skips; assumption.
  - intros before after ts. apply correct_skips_unmatched_line, Hs.
  - intros raw before after <- Q. unfold Fixed.parse_lines.
    apply scan_blank; assumption.
Qed.

Lemma unmatched_trial_line_is_skipped_witness :
  (forall before rest,
      plain_section_line "Trial 2: Completed in fast" ->
      Correct.parse_performance_data
        (file_of before (line_then "Trial 2: Completed in fast" rest))
      = Correct.parse_performance_data (file_of before rest))
  /\ (forall before after ts,
         Correct.extract_times
           (before ++ "Trial 2: Completed in fast" :: after) ts
         = Correct.extract_times (before ++ after) ts)
  /\ (forall raw before after,
         strip raw = "Trial 2: Completed in fast" ->
         quiet_line "Trial 2: Completed in fast" ->
         Fixed.parse_lines (before ++ raw :: after)
         = Fixed.parse_lines (before ++ "" :: after)).
Proof.
  apply (unmatched_trial_line_is_skipped "Trial 2: Completed in fast").
  repeat split; reflexivity.
Defined.

(** The hypotheses on the line hold of the line of the example, and the
    two files of the example are the file with the line and the file
    without it. *)
Lemma unmatched_line_example :
  plain_section_line "Trial 2: Completed in fast"
  /\ quiet_line "Trial 2: Completed in fast"
  /\ unmatched_line_log
     = file_of ["Copy with TMA load and store -- no swizzling";
                "Trial 1: Completed in 1.0ms"]
               (line_then "Trial 2: Completed in fast"
                  (text_of_lines ["Trial 3: Completed in 2.0ms"; "Success"]))
  /\ Correct.parse_performance_data unmatched_line_log
     = Correct.parse_performance_data
         (file_of ["Copy with TMA load and store -- no swizzling";
                   "Trial 1: Completed in 1.0ms"]
                  (text_of_lines ["Trial 3: Completed in 2.0ms"; "Success"])).
Proof. repeat split; vm_compute; reflexivity. Qed.

(** Without the hypothesis on depth markers the regex parser does not
    skip the line: a marker in it makes the whole section go. *)
Lemma marker_in_unmatched_line :
  unmatched_trial_line "Trial 2: Completed in Deep copy 2X"
  /\ Correct.parse_performance_data
       (file_of ["Copy with TMA load and store -- no swizzling";
                 "Trial 1: Completed in 1.0ms"]
                (line_then "Trial 2: Completed in Deep copy 2X"
                   (text_of_lines ["Trial 3: Completed in 2.0ms"; "Success"])))
     = Return []
  /\ Correct.parse_performance_data
       (file_of ["Copy with TMA load and store -- no swizzling";
                 "Trial 1: Completed in 1.0ms"]
                (text_of_lines ["Trial 3: Completed in 2.0ms"; "Success"]))
     = Return [mkCase "TMA No Swizzling" false "1X"
                      [Prim2SF 1%float; Prim2SF 2%float]].
Proof. repeat split; vm_compute; reflexivity. Qed.

(** * Further properties *)

(** ** Splitting the text *)

Lemma concat_cons_nonempty x y ys :
  String.concat "" (x :: y :: ys)
  = String.append x (String.concat "" (y :: ys)).
Proof. reflexivity. Qed.

Lemma re_split_go_nonempty s : forall mode cur, re_split_go mode cur s <> [].
Proof.
  induction s as [|c s IH]; intros mode cur; cbn [re_split_go].
  - destruct mode; discriminate.
  - destruct mode.
    + destruct (Ascii.eqb c LF); [discriminate|apply IH].
    + destruct (startswith (String c s) "Copy with"); [discriminate|apply IH].
Qed.

Lemma concat_cons x rest :
  rest <> [] ->
  String.concat "" (x :: rest) = String.append x (String.concat "" rest).
Proof. destruct rest; [contradiction|reflexivity]. Qed.

(** The pieces, joined, are the piece being read followed by the rest
    of the text. *)
Lemma re_split_go_concat s : forall mode cur,
  String.concat "" (re_split_go mode cur s)
  = String.append (rev_string "" cur) s.
Proof.
  induction s as [|c s IH]; intros mode cur; cbn [re_split_go].
  - destruct mode; cbn [String.concat]; rewrite ?append_empty_r; reflexivity.
  - assert (Push : forall m,
               String.concat "" (re_split_go m (String c cur) s)
               = String.append (rev_string "" cur) (String c s)).
    { intros m. rewrite IH. cbn [rev_string].
      rewrite rev_string_acc, append_assoc_string. reflexivity. }
    assert (Cut : forall m,
               String.concat "" (rev_string "" cur :: re_split_go m (String c "") s)
               = String.append (rev_string "" cur) (String c s)).
    { intros m. rewrite concat_cons by apply re_split_go_nonempty.
      rewrite IH. reflexivity. }
    destruct mode.
    + destruct (Ascii.eqb c LF); [apply Cut|apply Push].
    + destruct (startswith (String c s) "Copy with"); [apply Cut|apply Push].
Qed.

(** X1.  The pieces [re.split] returns for any content alternate text
    and header, starting and ending with a text; every header starts
    with [Copy with]; and the pieces joined give back the content. *)
Theorem re_split_pieces :
  forall content,
    alternating (re_split_copy_with content)
    /\ String.concat "" (re_split_copy_with content) = content.
Proof.
  intros content. split; [apply re_split_go_alternating|].
  unfold re_split_copy_with. rewrite re_split_go_concat. reflexivity.
Qed.

(** ** Lines of a text *)

Lemma readlines_line l : forall rest,
  no_lf l = true ->
  readlines (String.append l (String LF rest))
  = String.append l (String LF "") :: readlines rest.
Proof.
  induction l as [|c l IH]; intros rest H; cbn [String.append readlines].
  - reflexivity.
  - unfold no_lf in H. cbn [all_chars] in H. apply andb_true_iff in H.
    destruct H as [Hc Hl]. apply negb_true_iff in Hc. rewrite Hc.
    rewrite (IH rest Hl). reflexivity.
Qed.

Lemma readlines_text_of_lines ls :
  plain_lines ls ->
  readlines (text_of_lines ls)
  = map (fun l => String.append l (String LF "")) ls.
Proof.
  induction 1 as [|l ls Hl _ IH]; cbn [text_of_lines map]; [reflexivity|].
  rewrite (readlines_line l _ Hl), IH. reflexivity.
Qed.

Lemma rstrip_snoc_space x c :
  isspace c = true -> rstrip (String.append x (String c "")) = rstrip x.
Proof.
  intros H. induction x as [|a x IH]; cbn [String.append rstrip].
  - rewrite H. reflexivity.
  - rewrite IH. reflexivity.
Qed.

Lemma lstrip_snoc_space l c :
  isspace c = true ->
  lstrip (String.append l (String c ""))
  = match lstrip l with
    | EmptyString => EmptyString
    | r => String.append r (String c "")
    end.
Proof.
  intros H. induction l as [|a l IH]; cbn [String.append lstrip].
  - rewrite H. reflexivity.
  - destruct (isspace a); [exact IH|reflexivity].
Qed.

(** The line feed that ends a line does not change the stripped
    line. *)
Lemma strip_line_feed l : strip (String.append l (String LF "")) = strip l.
Proof.
  unfold strip. rewrite (lstrip_snoc_space l LF eq_refl).
  destruct (lstrip l) as [|a r]; [reflexivity|].
  apply (rstrip_snoc_space (String a r) LF eq_refl).
Qed.

Lemma look_ahead_stripped w : forall w',
  map strip w = map strip w' -> Fixed.look_ahead w = Fixed.look_ahead w'.
Proof.
  induction w as [|l w IH]; intros [|l' w'] H; try discriminate H;
    cbn [Fixed.look_ahead]; [reflexivity|].
  cbn [map] in H. inversion H as [[Hl Hw]]. rewrite Hl, (IH w' Hw). reflexivity.
Qed.

Lemma set_depth_stripped cur ls ls' :
  map strip ls = map strip ls' ->
  Fixed.set_depth cur ls = Fixed.set_depth cur ls'.
Proof.
  intros H. unfold Fixed.set_depth.
  rewrite (look_ahead_stripped (firstn 4 ls) (firstn 4 ls'));
    [reflexivity|].
  rewrite <- !firstn_map, H. reflexivity.
Qed.

(** The scan depends on the lines only through their stripped form. *)
Lemma scan_stripped ls : forall ls' cur tcs,
  map strip ls = map strip ls' ->
  Fixed.scan ls cur tcs = Fixed.scan ls' cur tcs.
Proof.
  induction ls as [|l ls IH]; intros [|l' ls'] cur tcs H; try discriminate H;
    cbn [Fixed.scan]; [reflexivity|].
  cbn [map] in H. inversion H as [[Hl Hls]]. rewrite Hl.
  destruct (Fixed.dispatch (strip l') cur tcs) as [st|e]; cbn [bind];
    [|reflexivity].
  rewrite (set_depth_stripped (fst st) ls ls' Hls). apply IH, Hls.
Qed.

(** X2.  The line-scanning parser on the text of a list of lines, each
    ended by a line feed, does what its loop does on the lines: the
    line feeds are stripped away, so results stated on lists of lines
    hold of the files that hold them. *)
Theorem fixed_parse_of_text :
  forall ls : list string,
    plain_lines ls ->
    Fixed.parse_performance_data (text_of_lines ls) = Fixed.parse_lines ls.
Proof.
  intros ls H. unfold Fixed.parse_performance_data, Fixed.parse_lines.
  rewrite (readlines_text_of_lines ls H). apply scan_stripped.
  rewrite map_map. apply map_ext. intros l. apply strip_line_feed.
Qed.

Lemma fixed_parse_of_text_witness :
  Fixed.parse_performance_data
    (text_of_lines ["Copy with TMA Multicast load and store";
                    "Trial 1: Completed in 1.0ms"; "Success"])
  = Fixed.parse_lines ["Copy with TMA Multicast load and store";
                       "Trial 1: Completed in 1.0ms"; "Success"].
Proof.
  apply (fixed_parse_of_text
           ["Copy with TMA Multicast load and store";
            "Trial 1: Completed in 1.0ms"; "Success"]).
  repeat constructor.
Defined.

(** ** What the regular expression captures *)

Lemma span_num_spec s :
  s = String.append (fst (span_num s)) (snd (span_num s))
  /\ all_chars is_num_char (fst (span_num s)) = true.
Proof.
  induction s as [|c s [IH1 IH2]]; cbn [span_num]; [split; reflexivity|].
  destruct (is_num_char c) eqn:E; [|split; reflexivity].
  destruct (span_num s) as [tok rest]. cbn [fst snd] in *.
  split; [cbn [String.append]; rewrite <- IH1; reflexivity|].
  cbn [all_chars]. rewrite E, IH2. reflexivity.
Qed.

Lemma prefix_drop p : forall s,
  String.prefix p s = true ->
  s = String.append p (drop (String.length p) s).
Proof.
  induction p as [|x p IH]; intros s H; [reflexivity|].
  destruct s as [|c s]; [discriminate|].
  apply prefix_step in H. destruct H as [<- H].
  cbn [String.length drop String.append]. rewrite <- (IH s H). reflexivity.
Qed.

Lemma prefix_append_same a : forall b c,
  String.prefix b c = true ->
  String.prefix (String.append a b) (String.append a c) = true.
Proof.
  induction a as [|x a IH]; intros b c H; [exact H|].
  cbn [String.append String.prefix].
  destruct (ascii_dec x x) as [_|N]; [apply IH, H|contradiction].
Qed.

Lemma str_in_prefix p s : String.prefix p s = true -> str_in p s = true.
Proof. intros H. destruct s; cbn [str_in]; rewrite H; reflexivity. Qed.

Lemma str_in_tail p c s : str_in p s = true -> str_in p (String c s) = true.
Proof.
  intros H. cbn [str_in]. destruct (String.prefix p (String c s)); [reflexivity|exact H].
Qed.

Lemma match_completed_at_shape s tok :
  match_completed_at s = Some tok ->
  tok <> ""
  /\ all_chars is_num_char tok = true
  /\ String.prefix
       (String.append "Completed in " (String.append tok "ms")) s = true.
Proof.
  unfold match_completed_at.
  destruct (startswith s "Completed in ") eqn:P; [|discriminate].
  destruct (span_num_spec (drop 13 s)) as [D A].
  destruct (span_num (drop 13 s)) as [t rest]. cbn [fst snd] in D, A.
  destruct t as [|c t]; [discriminate|].
  destruct (startswith rest "ms") eqn:M; [|discriminate].
  intros H. inversion H; subst tok.
  split; [discriminate|]. split; [exact A|].
  rewrite (prefix_drop "Completed in " s P).
  change (String.length "Completed in ") with 13. rewrite D.
  apply prefix_append_same, prefix_append_same. exact M.
Qed.

Lemma captured_token_chars line : forall tok,
  search_completed line = Some tok -> all_chars is_num_char tok = true.
Proof.
  induction line as [|c line IH]; intros tok; cbn [search_completed].
  - destruct (match_completed_at "") eqn:E; [|discriminate].
    intros H; inversion H; subst.
    apply (match_completed_at_shape _ _ E).
  - destruct (match_completed_at (String c line)) eqn:E.
    + intros H; inversion H; subst.
      apply (match_completed_at_shape _ _ E).
    + apply IH.
Qed.

(** X3.  When the regular expression matches a line, the token it
    captures is not empty, holds only digits and dots, and stands in
    the line between [Completed in ] and [ms]. *)
Theorem captured_token_shape :
  forall line tok,
    search_completed line = Some tok ->
    tok <> ""
    /\ all_chars is_num_char tok = true
    /\ str_in (String.append "Completed in " (String.append tok "ms")) line
       = true.
Proof.
  induction line as [|c line IH]; intros tok; cbn [search_completed].
  - destruct (match_completed_at "") eqn:E; [|discriminate].
    intros H; inversion H; subst.
    destruct (match_completed_at_shape _ _ E) as (H1 & H2 & H3).
    repeat split; [exact H1|exact H2|apply str_in_prefix, H3].
  - destruct (match_completed_at (String c line)) eqn:E.
    + intros H; inversion H; subst.
      destruct (match_completed_at_shape _ _ E) as (H1 & H2 & H3).
      repeat split; [exact H1|exact H2|apply str_in_prefix, H3].
    + intros H. destruct (IH tok H) as (H1 & H2 & H3).
      repeat split; [exact H1|exact H2|apply str_in_tail, H3].
Qed.

Lemma captured_token_shape_witness :
  "0.512" <> ""
  /\ all_chars is_num_char "0.512" = true
  /\ str_in (String.append "Completed in " (String.append "0.512" "ms"))
            "Trial 1: Completed in 0.512ms" = true.
Proof.
  apply (captured_token_shape "Trial 1: Completed in 0.512ms" "0.512").
  reflexivity.
Defined.

(** ** What [float] returns *)

Lemma b64_of_decimal_nonneg M k : nonneg (b64_of_decimal M k) = true.
Proof.
  unfold b64_of_decimal. destruct M; try reflexivity.
  apply b64_div_nonneg. reflexivity.
Qed.

Lemma python_float_nonneg tok x :
  python_float tok = Return x -> nonneg x = true.
Proof.
  unfold python_float. destruct (_ && _); intros H; inversion H.
  apply b64_of_decimal_nonneg.
Qed.

(** X4.  On a token the regular expression has captured, [float] fails
    exactly when the token has two dots or more, or no digit, and then
    with [ValueError]; when it succeeds the number is not NaN and not
    below zero. *)
Theorem float_of_captured_token :
  forall line tok,
    search_completed line = Some tok ->
    (python_float tok = Raise ValueError
     <-> (2 <= count_char is_dot tok \/ count_char is_digit tok = 0))
    /\ (forall e, python_float tok = Raise e -> e = ValueError)
    /\ (forall x, python_float tok = Return x -> nonneg x = true).
Proof.
  intros line tok H. pose proof (captured_token_chars line tok H) as A.
  split; [|split; [intros e; apply python_float_raises
                  |intros x; apply python_float_nonneg]].
  unfold python_float. rewrite A. cbn [andb].
  destruct (count_char is_dot tok <=? 1) eqn:D;
    destruct (1 <=? count_char is_digit tok) eqn:G; cbn [andb].
  - apply Nat.leb_le in D. apply Nat.leb_le in G.
    split; [discriminate|intros [K|K]; exfalso; lia].
  - apply Nat.leb_gt in G. split; [intros _; right; lia|reflexivity].
  - apply Nat.leb_gt in D. split; [intros _; left; lia|reflexivity].
  - apply Nat.leb_gt in D. split; [intros _; left; lia|reflexivity].
Qed.

Lemma float_of_captured_token_witness :
  (python_float "1.2.3" = Raise ValueError
   <-> (2 <= count_char is_dot "1.2.3" \/ count_char is_digit "1.2.3" = 0))
  /\ (forall e, python_float "1.2.3" = Raise e -> e = ValueError)
  /\ (forall x, python_float "1.2.3" = Return x -> nonneg x = true).
Proof.
  apply (float_of_captured_token "Trial 2: Completed in 1.2.3ms" "1.2.3").
  reflexivity.
Defined.

(** ** The cases the parsers return *)

Lemma append_time_parsed line ts ts' :
  append_time line ts = Return ts' ->
  parsed_times ts -> parsed_times ts'.
Proof.
  unfold append_time. destruct (search_completed line) as [tok|];
    [|intros H; inversion H; subst; auto].
  destruct (python_float tok) as [t|e] eqn:E; cbn [bind]; [|discriminate].
  intros H Hts. inversion H; subst. apply Forall_app. split; [exact Hts|].
  constructor; [eapply python_float_nonneg, E|constructor].
Qed.

(** *** The regex script *)

Lemma extract_times_parsed lines : forall ts ts',
  Correct.extract_times lines ts = Return ts' ->
  parsed_times ts -> parsed_times ts'.
Proof.
  induction lines as [|l lines IH]; intros ts ts'; cbn [Correct.extract_times].
  - intros H; inversion H; subst; auto.
  - destruct (_ && _); [|apply IH].
    destruct (append_time l ts) as [ts1|e] eqn:E; cbn [bind]; [|discriminate].
    intros H Hts. eapply IH; [exact H|]. eapply append_time_parsed; eassumption.
Qed.

Lemma classify_identity header nm mc d ts :
  Correct.classify header None = Some (nm, mc, d) ->
  correct_identity (mkCase nm mc d ts).
Proof.
  unfold Correct.classify, correct_identity. cbn [name multicast deep_copy].
  destruct (str_in "no swizzling" header);
    [intros H; inversion H; left; repeat split|].
  destruct (str_in "Multicast" header && negb (str_in "NO multicast" header));
    [intros H; inversion H; right; left; repeat split|].
  destruct (str_in "NO multicast" header);
    [intros H; inversion H; right; right; repeat split|discriminate].
Qed.

Lemma nonempty_not_nil {A : Type} (xs : list A) :
  nonempty xs = true -> xs <> [].
Proof. destruct xs; [discriminate|discriminate]. Qed.

Lemma step_text_shape st section st' :
  Correct.current_deep_copy st = None ->
  Forall correct_shape (Correct.test_cases st) ->
  Correct.step st section = Return st' ->
  Forall correct_shape (Correct.test_cases st').
Proof.
  intros Hd Hok. unfold Correct.step.
  destruct (startswith section "Copy with");
    [intros H; inversion H; exact Hok|].
  destruct (str_in "Deep copy 2X" section);
    [intros H; inversion H; exact Hok|].
  destruct (str_in "Deep copy 4X" section);
    [intros H; inversion H; exact Hok|].
  destruct (Correct.truthy (Correct.current_section st) && str_in "Trial" section);
    [|intros H; inversion H; subst; exact Hok].
  destruct (Correct.extract_times (split_lf section) []) as [ts|e] eqn:X;
    cbn [bind]; [|discriminate].
  destruct (nonempty ts) eqn:N; [|intros H; inversion H; subst; exact Hok].
  rewrite Hd.
  destruct (Correct.classify _ None) as [[[nm mc] d]|] eqn:E;
    intros H; inversion H; subst; [|exact Hok].
  cbn [Correct.test_cases]. apply Forall_app. split; [exact Hok|].
  constructor; [|constructor].
  split; [eapply classify_identity, E|]. cbn [times].
  split; [apply nonempty_not_nil, N|].
  eapply extract_times_parsed; [exact X|constructor].
Qed.

Lemma loop_shape sections :
  alternating sections ->
  forall st st',
    Correct.current_deep_copy st = None ->
    Forall correct_shape (Correct.test_cases st) ->
    Correct.loop sections st = Return st' ->
    Forall correct_shape (Correct.test_cases st').
Proof.
  induction 1 as [text|text header rest Hh _ IH]; intros st st' Hd Hok;
    cbn [Correct.loop].
  - destruct (Correct.step st text) as [st1|e] eqn:E; cbn [bind]; [|discriminate].
    intros H; inversion H; subst. eapply step_text_shape; eassumption.
  - destruct (Correct.step st text) as [st1|e] eqn:E; cbn [bind]; [|discriminate].
    rewrite (step_header_forgets st1 header Hh). cbn [bind].
    apply IH; [reflexivity|]. cbn [Correct.test_cases].
    eapply step_text_shape; eassumption.
Qed.

(** X5.  Every case the regex parser returns is one of three kinds:
    [TMA No Swizzling], not multicast, depth [1X]; [TMA Multicast],
    multicast, depth [Unknown]; [TMA No Multicast], not multicast, depth
    [Unknown].  It has at least one time, and none of its times is NaN
    or below zero. *)
Theorem correct_parser_cases :
  forall content cases c,
    Correct.parse_performance_data content = Return cases ->
    In c cases ->
    correct_identity c /\ times c <> [] /\ parsed_times (times c).
Proof.
  intros content cases c. unfold Correct.parse_performance_data.
  destruct (Correct.loop (re_split_copy_with content)
                         (Correct.mkState None None [])) as [st|e] eqn:E;
    cbn [bind]; [|discriminate].
  intros H Hin. inversion H; subst.
  assert (F : Forall correct_shape (Correct.test_cases st)).
  { apply (loop_shape _ (re_split_alternating content)
                      (Correct.mkState None None []) st);
      [reflexivity|constructor|exact E]. }
  rewrite Forall_forall in F. apply F, Hin.
Qed.

Lemma correct_parser_cases_witness :
  correct_identity (mkCase "TMA No Swizzling" false "1X" example_times)
  /\ times (mkCase "TMA No Swizzling" false "1X" example_times) <> []
  /\ parsed_times
       (times (mkCase "TMA No Swizzling" false "1X" example_times)).
Proof.
  apply (correct_parser_cases example_log
           [mkCase "TMA No Swizzling" false "1X" example_times]).
  - vm_compute. reflexivity.
  - left. reflexivity.
Defined.

(** *** The line-scanning script *)

Lemma dispatch_shape line cur tcs st :
  fixed_current_shape cur -> Forall fixed_shape tcs ->
  Fixed.dispatch line cur tcs = Return st ->
  fixed_current_shape (fst st) /\ Forall fixed_shape (snd st).
Proof.
  intros Hc Ht. unfold Fixed.dispatch.
  destruct (str_in Fixed.header_no_swizzling line).
  { intros H; inversion H. split; [|exact Ht].
    split; [left; repeat split|constructor]. }
  destruct (str_in Fixed.header_multicast line).
  { intros H; inversion H. split; [|exact Ht].
    split; [right; split; [left; split; reflexivity|left; reflexivity]
           |constructor]. }
  destruct (str_in Fixed.header_no_multicast line).
  { intros H; inversion H. split; [|exact Ht].
    split; [right; split; [right; split; reflexivity|left; reflexivity]
           |constructor]. }
  destruct cur as [c|]; [|intros H; inversion H; split; assumption].
  destruct Hc as [Hid Hts].
  destruct (startswith line "Trial" && str_in "Completed in" line).
  - destruct (append_time line (times c)) as [ts|e] eqn:E; cbn [bind];
      intros H; inversion H. split; [|exact Ht].
    split; [exact Hid|]. cbn [Fixed.with_times times].
    eapply append_time_parsed; eassumption.
  - destruct (startswith line "Success" && nonempty (times c)) eqn:S;
      intros H; inversion H; cbn [fst snd].
    + split; [exact I|]. apply Forall_app. split; [exact Ht|].
      constructor; [|constructor].
      apply andb_true_iff in S. destruct S as [_ N].
      split; [exact Hid|]. split; [apply nonempty_not_nil, N|exact Hts].
    + split; [split|]; assumption.
Qed.

Lemma set_depth_shape cur following :
  fixed_current_shape cur ->
  fixed_current_shape (Fixed.set_depth cur following).
Proof.
  intros H. unfold Fixed.set_depth. destruct cur as [c|]; [|exact I].
  destruct (deep_copy c) eqn:D; [exact H|].
  destruct (Fixed.look_ahead (firstn 4 following)) as [d|] eqn:E; [|exact H].
  destruct H as [Hid Hts]. split; [|exact Hts].
  destruct Hid as [(_ & _ & K)|[Hn _]]; [rewrite D in K; discriminate|].
  right. split; [exact Hn|]. cbn [Fixed.with_deep_copy deep_copy].
  destruct (look_ahead_values _ _ E) as [-> | ->]; auto.
Qed.

Lemma scan_shape lines : forall cur tcs out,
  fixed_current_shape cur -> Forall fixed_shape tcs ->
  Fixed.scan lines cur tcs = Return out ->
  Forall fixed_shape out.
Proof.
  induction lines as [|raw lines IH]; intros cur tcs out Hc Ht;
    cbn [Fixed.scan].
  - intros H; inversion H; subst. exact Ht.
  - destruct (Fixed.dispatch (strip raw) cur tcs) as [st|e] eqn:E;
      cbn [bind]; [|discriminate].
    destruct (dispatch_shape _ _ _ _ Hc Ht E) as [Hc' Ht'].
    apply IH; [apply set_depth_shape, Hc'|exact Ht'].
Qed.

(** X6.  Every case the line-scanning parser returns is a
    [TMA No Swizzling] case, not multicast, of depth [1X], or a
    [TMA Multicast] (multicast) or [TMA No Multicast] (not multicast)
    case of depth [None], [2X] or [4X].  It has at least one time, and
    none of its times is NaN or below zero. *)
Theorem fixed_parser_cases :
  forall content cases c,
    Fixed.parse_performance_data content = Return cases ->
    In c cases ->
    fixed_identity c /\ times c <> [] /\ parsed_times (times c).
Proof.
  intros content cases c H Hin.
  assert (F : Forall fixed_shape cases).
  { apply (scan_shape (readlines content) None [] cases);
      [exact I|constructor|exact H]. }
  rewrite Forall_forall in F. apply F, Hin.
Qed.

Lemma fixed_parser_cases_witness :
  fixed_identity (mkCase "TMA No Swizzling" false (Some "1X") example_times)
  /\ times (mkCase "TMA No Swizzling" false (Some "1X") example_times) <> []
  /\ parsed_times
       (times (mkCase "TMA No Swizzling" false (Some "1X") example_times)).
Proof.
  apply (fixed_parser_cases example_log
           [mkCase "TMA No Swizzling" false (Some "1X") example_times]).
  - vm_compute. reflexivity.
  - left. reflexivity.
Defined.

(** *** The line-range script *)

Lemma append_time_length line ts ts' :
  append_time line ts = Return ts' ->
  List.length ts' <= S (List.length ts).
Proof.
  unfold append_time. destruct (search_completed line) as [tok|];
    [|intros H; inversion H; subst; lia].
  destruct (python_float tok) as [t|e]; cbn [bind]; [|discriminate].
  intros H; inversion H; subst. rewrite length_app. simpl. lia.
Qed.

Lemma range_loop_bound lines indices : forall ts ts',
  Manual.range_loop lines indices ts = Return ts' ->
  List.length ts' <= List.length ts + List.length indices
  /\ (parsed_times ts -> parsed_times ts').
Proof.
  induction indices as [|i indices IH]; intros ts ts'; cbn [Manual.range_loop].
  - intros H; inversion H; subst. split; [simpl; lia|auto].
  - assert (Skip : Manual.range_loop lines indices ts = Return ts' ->
                   List.length ts' <= List.length ts + List.length (i :: indices)
                   /\ (parsed_times ts -> parsed_times ts')).
    { intros H. destruct (IH _ _ H) as [L P]. split; [simpl; lia|exact P]. }
    destruct (nth_error lines i) as [line|]; [|exact Skip].
    destruct (_ && _); [|exact Skip].
    destruct (append_time line ts) as [ts1|e] eqn:E; cbn [bind]; [|discriminate].
    intros H. destruct (IH _ _ H) as [L P].
    pose proof (append_time_length _ _ _ E) as L1.
    split; [simpl; lia|].
    intros Hts. apply P. eapply append_time_parsed; eassumption.
Qed.

Lemma range_times_bound lines first ts :
  Manual.range_times lines first = Return ts ->
  List.length ts <= 10 /\ parsed_times ts.
Proof.
  unfold Manual.range_times. intros H.
  destruct (range_loop_bound _ _ _ _ H) as [L P].
  rewrite length_seq in L. simpl in L. split; [exact L|apply P; constructor].
Qed.

(** X7.  Whenever the line-range parser returns, it returns the five
    hard-coded cases in their order, each with at most ten times, none
    of them NaN or below zero. *)
Theorem manual_parser_cases :
  forall content cases,
    Manual.parse_performance_data content = Return cases ->
    exists t1 t2 t3 t4 t5,
      cases = five_cases t1 t2 t3 t4 t5
      /\ Forall (fun ts => List.length ts <= 10 /\ parsed_times ts)
                [t1; t2; t3; t4; t5].
Proof.
  intros content cases.
  unfold Manual.parse_performance_data, Manual.parse_lines.
  generalize (readlines content). intros lines.
  destruct (Manual.range_times lines 4) as [t1|e] eqn:E1; cbn [bind]; [|discriminate].
  destruct (Manual.range_times lines 18) as [t2|e] eqn:E2; cbn [bind]; [|discriminate].
  destruct (Manual.range_times lines 32) as [t3|e] eqn:E3; cbn [bind]; [|discriminate].
  destruct (Manual.range_times lines 46) as [t4|e] eqn:E4; cbn [bind]; [|discriminate].
  destruct (Manual.range_times lines 60) as [t5|e] eqn:E5; cbn [bind]; [|discriminate].
  intros H; inversion H; subst.
  exists t1, t2, t3, t4, t5. split; [reflexivity|].
  repeat (apply Forall_cons; [eapply range_times_bound; eassumption|]).
  apply Forall_nil.
Qed.

Lemma manual_parser_cases_witness :
  exists t1 t2 t3 t4 t5,
    five_cases [] [] [] [] [] = five_cases t1 t2 t3 t4 t5
    /\ Forall (fun ts => List.length ts <= 10 /\ parsed_times ts)
              [t1; t2; t3; t4; t5].
Proof.
  apply (manual_parser_cases "" (five_cases [] [] [] [] [])). reflexivity.
Defined.

Lemma range_loop_past_the_end lines indices : forall ts,
  (forall i, In i indices -> List.length lines <= i) ->
  Manual.range_loop lines indices ts = Return ts.
Proof.
  induction indices as [|i indices IH]; intros ts H; cbn [Manual.range_loop];
    [reflexivity|].
  assert (N : nth_error lines i = None)
    by (apply nth_error_None, H; left; reflexivity).
  rewrite N. apply IH. intros j Hj. apply H. right. exact Hj.
Qed.

(** X8.  On a file of at most four lines the guard [i < len(lines)]
    keeps every range empty: the line-range parser returns its five
    cases without any time. *)
Theorem manual_on_short_file :
  forall content,
    List.length (readlines content) <= 4 ->
    Manual.parse_performance_data content
    = Return (five_cases [] [] [] [] []).
Proof.
  intros content H.
  unfold Manual.parse_performance_data, Manual.parse_lines, Manual.range_times.
  rewrite !range_loop_past_the_end; [reflexivity| | | | |];
    intros i Hi; apply in_seq in Hi; lia.
Qed.

Lemma manual_on_short_file_witness :
  Manual.parse_performance_data
    (text_of_lines ["Trial 1: Completed in 1.0ms"; "Success"])
  = Return (five_cases [] [] [] [] []).
Proof.
  apply (manual_on_short_file
           (text_of_lines ["Trial 1: Completed in 1.0ms"; "Success"])).
  vm_compute. repeat constructor.
Defined.

(** ** When the line-range parser stops *)

Lemma range_loop_raises lines indices : forall ts,
  Manual.range_loop lines indices ts = Raise ValueError
  <-> exists i line,
        In i indices /\ nth_error lines i = Some line
        /\ malformed_trial_line line.
Proof.
  induction indices as [|i indices IH]; intros ts; cbn [Manual.range_loop].
  - split; [discriminate|]. intros (i & line & [] & _).
  - assert (Skip : forall ts',
      (forall line, nth_error lines i = Some line ->
                    ~ malformed_trial_line line) ->
      Manual.range_loop lines indices ts' = Raise ValueError
      <-> exists j line,
            In j (i :: indices) /\ nth_error lines j = Some line
            /\ malformed_trial_line line).
    { intros ts' Hno. rewrite IH. split.
      - intros (j & line & Hj & Hl & Hm). exists j, line.
        split; [right; exact Hj|]. split; assumption.
      - intros (j & line & [<-|Hj] & Hl & Hm).
        + destruct (Hno line Hl Hm).
        + exists j, line. split; [exact Hj|]. split; assumption. }
    destruct (nth_error lines i) as [line|] eqn:E.
    + destruct (str_in "Trial" line && str_in "Completed in" line) eqn:G.
      * apply andb_prop in G. destruct G as [G1 G2].
        unfold append_time.
        destruct (search_completed line) as [tok|] eqn:S.
        -- destruct (python_float tok) as [t|e] eqn:P; cbn [bind].
           ++ apply Skip. intros l [= <-] (_ & _ & tok' & S' & P').
              rewrite S in S'. injection S' as <-. rewrite P in P'.
              discriminate P'.
           ++ pose proof (python_float_raises _ _ P) as ->.
              split; [|reflexivity]. intros _. exists i, line.
              split; [left; reflexivity|]. split; [exact E|].
              split; [exact G1|]. split; [exact G2|].
              exists tok. split; assumption.
        -- apply Skip. intros l [= <-] (_ & _ & tok' & S' & _).
           rewrite S in S'. discriminate S'.
      * apply Skip. intros l [= <-] (G1 & G2 & _).
        rewrite G1, G2 in G. discriminate G.
    + apply Skip. intros l H. discriminate H.
Qed.

(** X9.  The line-range parser stops with [ValueError] exactly when one
    of the lines it reads (indices 4-13, 18-27, 32-41, 46-55, 60-69)
    holds [Trial] and [Completed in] with a token that [float] refuses;
    lines outside the ranges, whatever they hold, never stop it. *)
Theorem manual_stops_exactly_on_a_malformed_line :
  forall content,
    Manual.parse_performance_data content = Raise ValueError
    <-> exists i line,
          in_ranges i /\ nth_error (readlines content) i = Some line
          /\ malformed_trial_line line.
Proof.
  intros content. unfold Manual.parse_performance_data.
  generalize (readlines content). intros lines.
  unfold Manual.parse_lines, Manual.range_times. split.
  - intros H.
    assert (R : exists first,
               In first [4; 18; 32; 46; 60]
               /\ Manual.range_loop lines (seq first 10) [] = Raise ValueError).
    { destruct (range_loop_outcome lines (seq 4 10) []) as [[t1 E1]|E1];
        [|exists 4; split; [simpl; tauto|exact E1]].
      destruct (range_loop_outcome lines (seq 18 10) []) as [[t2 E2]|E2];
        [|exists 18; split; [simpl; tauto|exact E2]].
      destruct (range_loop_outcome lines (seq 32 10) []) as [[t3 E3]|E3];
        [|exists 32; split; [simpl; tauto|exact E3]].
      destruct (range_loop_outcome lines (seq 46 10) []) as [[t4 E4]|E4];
        [|exists 46; split; [simpl; tauto|exact E4]].
      destruct (range_loop_outcome lines (seq 60 10) []) as [[t5 E5]|E5];
        [|exists 60; split; [simpl; tauto|exact E5]].
      rewrite E1, E2, E3, E4, E5 in H. discriminate H. }
    destruct R as (first & Hf & R). apply range_loop_raises in R.
    destruct R as (i & line & Hi & Hl & Hm). exists i, line.
    split; [|split; assumption].
    apply in_seq in Hi. unfold in_ranges. simpl in Hf.
    repeat match goal with H : _ \/ _ |- _ => destruct H end;
      try contradiction; subst; lia.
  - intros (i & line & Hi & Hl & Hm).
    assert (R : forall first, In i (seq first 10) ->
               Manual.range_loop lines (seq first 10) [] = Raise ValueError).
    { intros first Hin. apply range_loop_raises. exists i, line.
      split; [exact Hin|]. split; assumption. }
    destruct (range_loop_outcome lines (seq 4 10) []) as [[t1 E1]|E1];
      rewrite E1; cbn [bind]; [|reflexivity].
    destruct (range_loop_outcome lines (seq 18 10) []) as [[t2 E2]|E2];
      rewrite E2; cbn [bind]; [|reflexivity].
    destruct (range_loop_outcome lines (seq 32 10) []) as [[t3 E3]|E3];
      rewrite E3; cbn [bind]; [|reflexivity].
    destruct (range_loop_outcome lines (seq 46 10) []) as [[t4 E4]|E4];
      rewrite E4; cbn [bind]; [|reflexivity].
    destruct (range_loop_outcome lines (seq 60 10) []) as [[t5 E5]|E5];
      rewrite E5; cbn [bind]; [|reflexivity].
    exfalso. unfold in_ranges in Hi.
    destruct Hi as [Hi|[Hi|[Hi|[Hi|Hi]]]].
    + rewrite R in E1; [discriminate|apply in_seq; lia].
    + rewrite R in E2; [discriminate|apply in_seq; lia].
    + rewrite R in E3; [discriminate|apply in_seq; lia].
    + rewrite R in E4; [discriminate|apply in_seq; lia].
    + rewrite R in E5; [discriminate|apply in_seq; lia].
Qed.

(** ** The order of the regex script *)

Lemma ltb_irrefl s : String.ltb s s = false.
Proof.
  unfold String.ltb. pose proof (String.compare_antisym s s) as H.
  destruct (String.compare s s); [reflexivity|discriminate H|reflexivity].
Qed.

Lemma ltb_trans a b c :
  String.ltb a b = true -> String.ltb b c = true -> String.ltb a c = true.
Proof.
  unfold String.ltb. intros H1 H2.
  assert (L1 : String.compare a b = Lt)
    by (destruct (String.compare a b); congruence).
  assert (L2 : String.compare b c = Lt)
    by (destruct (String.compare b c); congruence).
  apply OrderedTypeEx.String_as_OT.cmp_lt in L1, L2.
  pose proof (OrderedTypeEx.String_as_OT.lt_trans _ _ _ L1 L2) as L.
  apply OrderedTypeEx.String_as_OT.cmp_lt in L.
  unfold OrderedTypeEx.String_as_OT.cmp in L. rewrite L. reflexivity.
Qed.

Lemma ltb_asym a b : String.ltb a b = true -> String.ltb b a = false.
Proof.
  intros H. destruct (String.ltb b a) eqn:E; [|reflexivity].
  pose proof (ltb_trans _ _ _ H E) as T. rewrite ltb_irrefl in T.
  discriminate T.
Qed.

Lemma ltb_total a b :
  String.ltb a b = false -> a = b \/ String.ltb b a = true.
Proof.
  unfold String.ltb. rewrite (String.compare_antisym b a).
  destruct (String.compare a b) eqn:E; intros H.
  - left. apply String.compare_eq_iff, E.
  - discriminate H.
  - right. reflexivity.
Qed.

Lemma ltb_le_trans a b c :
  String.ltb a b = true -> String.ltb c b = false -> String.ltb a c = true.
Proof.
  intros H1 H2. destruct (ltb_total _ _ H2) as [->|H3]; [exact H1|].
  exact (ltb_trans _ _ _ H1 H3).
Qed.

Lemma key_ltb_asym (c d : Correct.Case) :
  Correct.key_ltb c d = true -> Correct.key_ltb d c = false.
Proof.
  unfold Correct.key_ltb. intros H. apply orb_prop in H.
  destruct H as [H|H].
  - rewrite (ltb_asym _ _ H). cbn [orb].
    destruct (String.eqb_spec (name d) (name c)) as [E|_]; [|reflexivity].
    rewrite E, ltb_irrefl in H. discriminate H.
  - apply andb_prop in H. destruct H as [E H].
    apply String.eqb_eq in E. rewrite E, ltb_irrefl, (ltb_asym _ _ H).
    apply andb_false_r.
Qed.

Lemma key_ltb_le_trans (c d e : Correct.Case) :
  Correct.key_ltb c d = true -> Correct.key_ltb e d = false ->
  Correct.key_ltb c e = true.
Proof.
  unfold Correct.key_ltb. intros H1 H2.
  apply orb_false_elim in H2. destruct H2 as [N2 D2].
  apply orb_prop in H1. destruct H1 as [H1|H1].
  - rewrite (ltb_le_trans _ _ _ H1 N2). reflexivity.
  - apply andb_prop in H1. destruct H1 as [E H1].
    apply String.eqb_eq in E. rewrite E.
    destruct (ltb_total _ _ N2) as [En|Hn].
    + rewrite En, String.eqb_refl in *. cbn [andb] in D2.
      rewrite (ltb_le_trans _ _ _ H1 D2). apply orb_true_r.
    + rewrite Hn. reflexivity.
Qed.

Lemma key_ltb_not_same (x c e : Correct.Case) :
  Correct.key_ltb c e = true -> same_key x c = true -> same_key x e = false.
Proof.
  unfold Correct.key_ltb, same_key. intros H S.
  apply andb_prop in S. destruct S as [S1 S2].
  apply String.eqb_eq in S1, S2. rewrite S1, S2.
  destruct (String.eqb_spec (name c) (name e)) as [E1|_]; [|reflexivity].
  destruct (String.eqb_spec (deep_copy c) (deep_copy e)) as [E2|_];
    [|reflexivity].
  rewrite E1, E2, !ltb_irrefl, andb_false_r in H. discriminate H.
Qed.

Lemma insert_case_perm c l : Permutation (c :: l) (Correct.insert_case c l).
Proof.
  induction l as [|d l IH]; cbn [Correct.insert_case]; [reflexivity|].
  destruct (Correct.key_ltb c d); [reflexivity|].
  rewrite perm_swap. apply perm_skip, IH.
Qed.

Lemma insert_case_above c d l :
  Correct.key_ltb c d = true ->
  StronglySorted in_key_order (d :: l) ->
  Forall (fun e => Correct.key_ltb c e = true) (d :: l).
Proof.
  intros H S. apply StronglySorted_inv in S. destruct S as [_ F].
  constructor; [exact H|].
  eapply Forall_impl; [|exact F]. intros e He.
  exact (key_ltb_le_trans _ _ _ H He).
Qed.

Lemma insert_case_sorted c l :
  StronglySorted in_key_order l ->
  StronglySorted in_key_order (Correct.insert_case c l).
Proof.
  induction l as [|d l IH]; intros S; cbn [Correct.insert_case].
  - repeat constructor.
  - destruct (Correct.key_ltb c d) eqn:E.
    + constructor; [exact S|].
      eapply Forall_impl; [|exact (insert_case_above _ _ _ E S)].
      intros e He. exact (key_ltb_asym _ _ He).
    + pose proof (StronglySorted_inv S) as [S' F].
      constructor; [apply IH, S'|].
      apply Forall_forall. intros e He. apply insert_case_In in He.
      destruct He as [->|He]; [exact E|].
      rewrite Forall_forall in F. apply F, He.
Qed.

Lemma insert_case_filter x c l :
  StronglySorted in_key_order l ->
  filter (same_key x) (Correct.insert_case c l)
  = (filter (same_key x) l ++ filter (same_key x) [c])%list.
Proof.
  induction l as [|d l IH]; intros S; cbn [Correct.insert_case].
  - reflexivity.
  - destruct (Correct.key_ltb c d) eqn:E.
    + cbn [filter app]. destruct (same_key x c) eqn:K.
      * assert (N : filter (same_key x) (d :: l) = []).
        { pose proof (insert_case_above _ _ _ E S) as F.
          clear S E. induction F as [|e es He _ IHF]; [reflexivity|].
          cbn [filter]. rewrite (key_ltb_not_same _ _ _ He K). exact IHF. }
        cbn [filter] in N. rewrite N. reflexivity.
      * rewrite app_nil_r. reflexivity.
    + pose proof (StronglySorted_inv S) as [S' _].
      cbn [filter]. rewrite (IH S').
      destruct (same_key x d); reflexivity.
Qed.

Lemma fold_insert_sort cases : forall acc,
  StronglySorted in_key_order acc ->
  let sorted :=
    fold_left (fun sorted c => Correct.insert_case c sorted) cases acc in
  Permutation (acc ++ cases) sorted
  /\ StronglySorted in_key_order sorted
  /\ forall x, filter (same_key x) sorted
               = (filter (same_key x) acc ++ filter (same_key x) cases)%list.
Proof.
  induction cases as [|c cases IH]; intros acc S; cbn [fold_left].
  - rewrite app_nil_r. split; [reflexivity|]. split; [exact S|].
    intros x. rewrite app_nil_r. reflexivity.
  - destruct (IH _ (insert_case_sorted c acc S)) as (P & S' & F).
    split; [|split; [exact S'|]].
    + cbv zeta. eapply Permutation_trans; [|exact P].
      eapply Permutation_trans; [symmetry; apply Permutation_middle|].
      apply (Permutation_app_tail cases (insert_case_perm c acc)).
    + intros x. rewrite F, (insert_case_filter x c acc S), <- app_assoc.
      cbn [filter]. destruct (same_key x c); reflexivity.
Qed.

(** X10.  The order in which the regex script goes through its cases
    after [test_cases.sort(key=...)]: the same cases, each as often as
    before; no case comes after one of greater [(name, deep_copy)];
    cases with the same name and depth keep the order they were parsed
    in.  Repeated sections therefore come out next to each other, the
    earlier first, and are not merged. *)
Theorem sort_cases_is_stable :
  forall cases,
    Permutation cases (Correct.sort_cases cases)
    /\ StronglySorted in_key_order (Correct.sort_cases cases)
    /\ forall c, filter (same_key c) (Correct.sort_cases cases)
                 = filter (same_key c) cases.
Proof.
  intros cases. unfold Correct.sort_cases.
  destruct (fold_insert_sort cases [] (SSorted_nil _)) as (P & S & F).
  split; [exact P|]. split; [exact S|]. intros c. apply F.
Qed.





(** ** The dictionary of the line-scanning chart *)

Lemma group_of_In k cs groups :
  NoDup (map fst groups) -> In (k, cs) groups -> group_of k groups = Some cs.
Proof.
  induction groups as [|[k' cs'] groups IH]; intros N H; [destruct H|].
  cbn [map fst] in N. inversion N as [|? ? Hk N']; subst.
  cbn [group_of]. destruct H as [H|H].
  - inversion H; subst. rewrite String.eqb_refl. reflexivity.
  - destruct (String.eqb_spec k' k) as [->|_]; [|apply IH; assumption].
    exfalso. apply Hk. apply in_map_iff. exists (k, cs). split; [reflexivity|exact H].
Qed.

Lemma group_of_Some k cs groups :
  group_of k groups = Some cs -> In (k, cs) groups.
Proof.
  induction groups as [|[k' cs'] groups IH]; cbn [group_of]; [discriminate|].
  destruct (String.eqb_spec k' k) as [->|_].
  - intros H; inversion H; subst. left. reflexivity.
  - intros H. right. apply IH, H.
Qed.

(** X11.  The dictionary [grouped_cases] that [create_plot] of the
    line-scanning script builds: no key occurs twice, and a key is
    there with a list of cases exactly when that list is not empty and
    holds, in parse order, all the cases whose name and depth print as
    the key. *)
Theorem grouped_cases_partition :
  forall cases,
    NoDup (map fst (Fixed.grouped_cases cases))
    /\ forall key cs,
         In (key, cs) (Fixed.grouped_cases cases)
         <-> cs <> [] /\ cs = with_key key cases.
Proof.
  intros cases. split; [apply grouped_cases_NoDup|].
  intros key cs. pose proof (grouped_cases_lookup key cases) as L. split.
  - intros H. apply (group_of_In _ _ _ (grouped_cases_NoDup cases)) in H.
    rewrite H in L. destruct (with_key key cases); [discriminate L|].
    inversion L. split; [discriminate|reflexivity].
  - intros [Hne ->]. apply group_of_Some. rewrite L.
    destruct (with_key key cases); [contradiction|reflexivity].
Qed.

Lemma grouped_cases_member cases g :
  In g (Fixed.grouped_cases cases) ->
  exists c cs, snd g = c :: cs /\ In c cases /\ Fixed.key_of c = fst g
               /\ snd g = with_key (fst g) cases.
Proof.
  destruct g as [key found]. intros H. cbn [fst snd].
  apply (group_of_In _ _ _ (grouped_cases_NoDup cases)) in H.
  rewrite grouped_cases_lookup in H.
  destruct (with_key key cases) as [|c cs] eqn:W; [discriminate H|].
  inversion H; subst. exists c, cs. split; [reflexivity|].
  assert (Hin : In c (with_key key cases)) by (rewrite W; left; reflexivity).
  apply filter_In in Hin. destruct Hin as [Hin E].
  apply String.eqb_eq in E. repeat split; assumption.
Qed.

Lemma fixed_parse_shape content cases :
  Fixed.parse_performance_data content = Return cases ->
  Forall fixed_shape cases.
Proof.
  intros H. apply (scan_shape (readlines content) None [] cases);
    [exact I|constructor|exact H].
Qed.

Lemma color_of_identity (c : Fixed.Case) :
  fixed_identity c ->
  Fixed.color_of_key (Fixed.key_of c)
  = if String.eqb (Fixed.key_of c) "TMA No Swizzling (1X)"
    then "blue" else "red".
Proof.
  unfold fixed_identity, Fixed.key_of. destruct c as [nm mc d ts]. cbn [name multicast deep_copy].
  intros [(-> & _ & ->)|[[[-> _]|[-> _]] [->|[->| ->]]]];
    vm_compute; reflexivity.
Qed.

(** X12.  The colours of the line-scanning chart on what its parser
    returns: the bar [TMA No Swizzling (1X)] is blue and every other
    bar is red.  The bars of [TMA No Multicast] are red as well, since
    their key holds [Multicast] and does not hold [NO multicast]; the
    green of [color_map] is never used. *)
Theorem fixed_chart_colours :
  forall content cases bars b,
    Fixed.parse_performance_data content = Return cases ->
    Fixed.create_plot cases = Return bars ->
    In b bars ->
    bar_color b
    = if String.eqb (bar_label b) "TMA No Swizzling (1X)"
      then "blue" else "red".
Proof.
  intros content cases bars b Hp Hb Hin.
  unfold Fixed.create_plot in Hb. rewrite fixed_plot_loop in Hb.
  inversion Hb; subst. cbn [app] in Hin.
  apply in_map_iff in Hin. destruct Hin as (g & <- & Hg).
  apply filter_In in Hg. destruct Hg as [Hg _].
  destruct (grouped_cases_member _ _ Hg) as (c & cs & _ & Hc & Hk & _).
  cbn [bar_of_group bar_color bar_label]. rewrite <- Hk.
  apply color_of_identity.
  pose proof (fixed_parse_shape _ _ Hp) as F.
  rewrite Forall_forall in F. apply (F c Hc).
Qed.

Lemma fixed_chart_colours_witness :
  bar_color (bar_of_group ("TMA No Multicast (2X)", [no_multicast_case]))
  = if String.eqb
         (bar_label
            (bar_of_group ("TMA No Multicast (2X)", [no_multicast_case])))
         "TMA No Swizzling (1X)"
    then "blue" else "red".
Proof.
  apply (fixed_chart_colours no_multicast_log [no_multicast_case]
           [bar_of_group ("TMA No Multicast (2X)", [no_multicast_case])]).
  - vm_compute. reflexivity.
  - vm_compute. reflexivity.
  - left. reflexivity.
Defined.

(** ** The three pipelines *)













(** ** Before the first header *)

Lemma re_split_go_no_header s : forall cur,
  str_in "Copy with" s = false ->
  exists text, re_split_go false cur s = [text].
Proof.
  induction s as [|c s IH]; intros cur H; cbn [re_split_go]; [eauto|].
  cbn [str_in] in H. unfold startswith.
  destruct (String.prefix "Copy with" (String c s)); [discriminate H|].
  apply IH, H.
Qed.

Lemma correct_step_no_section d section :
  exists h d',
    Correct.step (Correct.mkState None d []) section
    = Return (Correct.mkState h d' []).
Proof.
  unfold Correct.step. cbn [Correct.current_section Correct.test_cases
                            Correct.current_deep_copy Correct.truthy andb].
  destruct (startswith section "Copy with"); [eauto|].
  destruct (str_in "Deep copy 2X" section); [eauto|].
  destruct (str_in "Deep copy 4X" section); eauto.
Qed.

(** X16.  A file that nowhere holds [Copy with] gives the regex parser
    no case: it returns the empty list whatever the lines hold, even
    trial lines with a token that [float] would refuse. *)
Theorem correct_without_header :
  forall content,
    str_in "Copy with" content = false ->
    Correct.parse_performance_data content = Return [].
Proof.
  intros content H. unfold Correct.parse_performance_data, re_split_copy_with.
  destruct (re_split_go_no_header content "" H) as [text ->].
  cbn [Correct.loop].
  destruct (correct_step_no_section None text) as (h & d & ->).
  reflexivity.
Qed.

Lemma correct_without_header_witness :
  Correct.parse_performance_data "Trial 1: Completed in 1.2.3ms" = Return [].
Proof.
  apply (correct_without_header "Trial 1: Completed in 1.2.3ms").
  vm_compute. reflexivity.
Defined.

Lemma fixed_dispatch_no_case line tcs :
  no_header line -> Fixed.dispatch line None tcs = Return (None, tcs).
Proof.
  intros (H1 & H2 & H3). unfold Fixed.dispatch. rewrite H1, H2, H3.
  reflexivity.
Qed.

(** X17.  The line-scanning parser ignores every line that comes before
    the first header: the lines from the first header on are parsed as
    if they were the whole file.  Trial lines there are not read, so a
    malformed token among them does not stop the run. *)
Theorem fixed_ignores_lines_before_first_header :
  forall pre rest,
    Forall (fun raw => no_header (strip raw)) pre ->
    Fixed.parse_lines (pre ++ rest) = Fixed.parse_lines rest.
Proof.
  intros pre rest H. unfold Fixed.parse_lines.
  induction H as [|raw pre Hr _ IH]; cbn [app Fixed.scan]; [reflexivity|].
  rewrite (fixed_dispatch_no_case _ _ Hr). cbn [bind fst snd Fixed.set_depth].
  exact IH.
Qed.

Lemma fixed_ignores_lines_before_first_header_witness :
  Fixed.parse_lines
    (["Trial 1: Completed in 1.2.3ms"; "Success"]
     ++ ["Copy with TMA load and store -- no swizzling";
         "Trial 1: Completed in 1.0ms"; "Success"])
  = Fixed.parse_lines
      ["Copy with TMA load and store -- no swizzling";
       "Trial 1: Completed in 1.0ms"; "Success"].
Proof.
  apply (fixed_ignores_lines_before_first_header
           ["Trial 1: Completed in 1.2.3ms"; "Success"]).
  repeat constructor.
Defined.

(** ** Where the line-scanning parser collects a case *)

Lemma fixed_dispatch_collects line cur tcs st :
  Fixed.dispatch line cur tcs = Return st ->
  List.length (snd st)
  <= List.length tcs + (if startswith line "Success" then 1 else 0).
Proof.
  unfold Fixed.dispatch.
  destruct (str_in Fixed.header_no_swizzling line);
    [intros H; inversion H; cbn [snd]; lia|].
  destruct (str_in Fixed.header_multicast line);
    [intros H; inversion H; cbn [snd]; lia|].
  destruct (str_in Fixed.header_no_multicast line);
    [intros H; inversion H; cbn [snd]; lia|].
  destruct cur as [c|]; [|intros H; inversion H; cbn [snd]; lia].
  destruct (_ && _).
  - destruct (append_time line (times c)); cbn [bind]; [|discriminate].
    intros H; inversion H; cbn [snd]; lia.
  - destruct (startswith line "Success"); cbn [andb].
    + destruct (nonempty (times c)); intros H; inversion H; cbn [snd];
        rewrite ?length_app; simpl; lia.
    + intros H; inversion H; cbn [snd]; lia.
Qed.

Lemma fixed_scan_collects lines : forall cur tcs out,
  Fixed.scan lines cur tcs = Return out ->
  List.length out <= List.length tcs + List.length (success_lines lines).
Proof.
  induction lines as [|raw lines IH]; intros cur tcs out; cbn [Fixed.scan].
  - intros H; inversion H; subst. simpl. lia.
  - destruct (Fixed.dispatch (strip raw) cur tcs) as [st|e] eqn:E;
      cbn [bind]; [|discriminate].
    intros H. apply IH in H. apply fixed_dispatch_collects in E.
    unfold success_lines in *. cbn [filter].
    destruct (startswith (strip raw) "Success"); simpl; lia.
Qed.

(** X18.  The line-scanning parser collects a case only at a line that
    starts with [Success]: it never returns more cases than the file
    has such lines.  A section whose [Success] line is missing, as the
    last one of a log that was cut off, is lost with all its times. *)
Theorem fixed_collects_at_success_lines :
  forall content cases,
    Fixed.parse_performance_data content = Return cases ->
    List.length cases <= List.length (success_lines (readlines content)).
Proof.
  intros content cases H.
  apply (fixed_scan_collects (readlines content) None [] cases H).
Qed.

Lemma fixed_collects_at_success_lines_witness :
  List.length (@nil Fixed.Case)
  <= List.length (success_lines (readlines truncated_log)).
Proof.
  apply (fixed_collects_at_success_lines truncated_log []).
  vm_compute. reflexivity.
Defined.
